(** * The channel mixer of SDL_mixer (src/mixer.c), embedded in Rocq

    The C file keeps the mixer in static variables: the channel array
    [mix_channel], its size [num_channels], [reserved_channels], the post-mix
    effect chain, the device format and a few hooks.  Here all of them are
    fields of one record, [Mixer], which every operation receives and returns.

    - C [int] values are [Z]; values of the unsigned types are [Z] as well and
      every operation on them that can wrap says so ([u64], [u32], [to_int]).
      Arithmetic on [int] is exact: its overflow is undefined in C, and the
      sums and products of volumes, lengths and counts here stay far from it.
    - The channel array is a [list]; an access [mix_channel[i]] outside the
      allocated array is undefined behaviour in C and is an explicit [Crash]
      here.
    - Pointers to chunks and to functions are addresses in [Z], [NULL] is 0;
      the chunk objects live in a finite map from addresses.
    - User callbacks are opaque: a call is recorded in the [log] of the mixer
      with its arguments, and is taken not to call back into the mixer.
    - [SDL_GetTicks()] is an argument [now] of every operation that reads the
      clock; the result of [SDL_malloc]/[SDL_realloc]/[SDL_aligned_alloc] is
      an argument where an operation has a failure path for it.  The mixing
      callback allocates once per call of [Mix_DoEffects]: there the argument
      is a function [malloc_ok] that gives the result for the call made for a
      channel at an offset of the output buffer.
    - The scratch buffer of the mixing callback is not part of the record:
      its length when the callback is entered is an argument of
      [mix_channels].
    - Locking ([Mix_LockAudio]/[Mix_UnlockAudio]) has no effect on the
      sequential behaviour and is left out. *)

From Stdlib Require Import ZArith Lia List Bool String.
From stdpp Require Import gmap list.
Import ListNotations.
Local Open Scope Z_scope.

(** ** Machine integers *)

Definition u64 (x : Z) : Z := x mod 2 ^ 64.
Definition u32 (x : Z) : Z := x mod 2 ^ 32.

(** Conversion to [int] (32 bits, two's complement). *)
Definition to_int (x : Z) : Z := (x + 2 ^ 31) mod 2 ^ 32 - 2 ^ 31.

Definition NULL : Z := 0.
Definition MIX_MAX_VOLUME : Z := 128.
Definition MIX_CHANNEL_POST : Z := -2.

(** ** Data *)

Inductive Mix_Fading := MIX_NO_FADING | MIX_FADING_OUT | MIX_FADING_IN.

Definition fading_eqb (a b : Mix_Fading) : bool :=
  match a, b with
  | MIX_NO_FADING, MIX_NO_FADING
  | MIX_FADING_OUT, MIX_FADING_OUT
  | MIX_FADING_IN, MIX_FADING_IN => true
  | _, _ => false
  end.

(** [struct Mix_Chunk]; its [volume] field is [cvolume] here. *)
Record Mix_Chunk := mkChunk {
  allocated : Z;
  abuf : Z;
  alen : Z;
  cvolume : Z
}.

(** One node of an effect chain; the [next] pointers are the list. *)
Record effect_info := mkEffect {
  callback : Z;
  done_callback : Z;
  udata : Z
}.

(** [struct _Mix_Channel].  [samples] is the read cursor, kept as a byte
    offset from [chunk->abuf]. *)
Record Mix_Channel := mkChannel {
  chunk : Z;
  playing : Z;
  paused : Z;
  samples : Z;
  volume : Z;
  looping : Z;
  tag : Z;
  expire : Z;
  start_time : Z;
  fading : Mix_Fading;
  fade_volume : Z;
  fade_volume_reset : Z;
  fade_length : Z;
  ticks_fade : Z;
  effects : list effect_info
}.

Definition set_chunk v c := mkChannel v (playing c) (paused c) (samples c) (volume c) (looping c) (tag c) (expire c) (start_time c) (fading c) (fade_volume c) (fade_volume_reset c) (fade_length c) (ticks_fade c) (effects c).
Definition set_playing v c := mkChannel (chunk c) v (paused c) (samples c) (volume c) (looping c) (tag c) (expire c) (start_time c) (fading c) (fade_volume c) (fade_volume_reset c) (fade_length c) (ticks_fade c) (effects c).
Definition set_paused v c := mkChannel (chunk c) (playing c) v (samples c) (volume c) (looping c) (tag c) (expire c) (start_time c) (fading c) (fade_volume c) (fade_volume_reset c) (fade_length c) (ticks_fade c) (effects c).
Definition set_samples v c := mkChannel (chunk c) (playing c) (paused c) v (volume c) (looping c) (tag c) (expire c) (start_time c) (fading c) (fade_volume c) (fade_volume_reset c) (fade_length c) (ticks_fade c) (effects c).
Definition set_volume v c := mkChannel (chunk c) (playing c) (paused c) (samples c) v (looping c) (tag c) (expire c) (start_time c) (fading c) (fade_volume c) (fade_volume_reset c) (fade_length c) (ticks_fade c) (effects c).
Definition set_looping v c := mkChannel (chunk c) (playing c) (paused c) (samples c) (volume c) v (tag c) (expire c) (start_time c) (fading c) (fade_volume c) (fade_volume_reset c) (fade_length c) (ticks_fade c) (effects c).
Definition set_tag v c := mkChannel (chunk c) (playing c) (paused c) (samples c) (volume c) (looping c) v (expire c) (start_time c) (fading c) (fade_volume c) (fade_volume_reset c) (fade_length c) (ticks_fade c) (effects c).
Definition set_expire v c := mkChannel (chunk c) (playing c) (paused c) (samples c) (volume c) (looping c) (tag c) v (start_time c) (fading c) (fade_volume c) (fade_volume_reset c) (fade_length c) (ticks_fade c) (effects c).
Definition set_start_time v c := mkChannel (chunk c) (playing c) (paused c) (samples c) (volume c) (looping c) (tag c) (expire c) v (fading c) (fade_volume c) (fade_volume_reset c) (fade_length c) (ticks_fade c) (effects c).
Definition set_fading v c := mkChannel (chunk c) (playing c) (paused c) (samples c) (volume c) (looping c) (tag c) (expire c) (start_time c) v (fade_volume c) (fade_volume_reset c) (fade_length c) (ticks_fade c) (effects c).
Definition set_fade_volume v c := mkChannel (chunk c) (playing c) (paused c) (samples c) (volume c) (looping c) (tag c) (expire c) (start_time c) (fading c) v (fade_volume_reset c) (fade_length c) (ticks_fade c) (effects c).
Definition set_fade_volume_reset v c := mkChannel (chunk c) (playing c) (paused c) (samples c) (volume c) (looping c) (tag c) (expire c) (start_time c) (fading c) (fade_volume c) v (fade_length c) (ticks_fade c) (effects c).
Definition set_fade_length v c := mkChannel (chunk c) (playing c) (paused c) (samples c) (volume c) (looping c) (tag c) (expire c) (start_time c) (fading c) (fade_volume c) (fade_volume_reset c) v (ticks_fade c) (effects c).
Definition set_ticks_fade v c := mkChannel (chunk c) (playing c) (paused c) (samples c) (volume c) (looping c) (tag c) (expire c) (start_time c) (fading c) (fade_volume c) (fade_volume_reset c) (fade_length c) v (effects c).
Definition set_effects v c := mkChannel (chunk c) (playing c) (paused c) (samples c) (volume c) (looping c) (tag c) (expire c) (start_time c) (fading c) (fade_volume c) (fade_volume_reset c) (fade_length c) (ticks_fade c) v.

(** What the mixer does to the outside world. *)
Inductive event :=
| ChannelFinished (cb channel : Z)
    (* channel_done_callback(channel) *)
| EffectDone (d channel arg : Z)
    (* e->done_callback(channel, e->udata) *)
| EffectRun (f chan len arg : Z)
    (* e->callback(chan, buf, len, e->udata) *)
| MixAudio (chan dst src_chunk src_off len vol : Z).
    (* SDL_MixAudio(stream + dst, src_chunk->abuf + src_off, format, len, vol / 128.0),
       issued while mixing channel chan *)

(** The static variables of mixer.c. *)
Record Mixer := mkMixer {
  audio_opened : Z;
  mixer_format : Z;
  mixer_channels : Z;
  mix_channel : list Mix_Channel;
  posteffects : list effect_info;
  num_channels : Z;
  reserved_channels : Z;
  channel_done_callback : Z;
  master_volume : Z;
  heap : gmap Z Mix_Chunk;
  error : option string;
  log : list event
}.

Definition set_mix_channel v m := mkMixer (audio_opened m) (mixer_format m) (mixer_channels m) v (posteffects m) (num_channels m) (reserved_channels m) (channel_done_callback m) (master_volume m) (heap m) (error m) (log m).
Definition set_posteffects v m := mkMixer (audio_opened m) (mixer_format m) (mixer_channels m) (mix_channel m) v (num_channels m) (reserved_channels m) (channel_done_callback m) (master_volume m) (heap m) (error m) (log m).
Definition set_num_channels v m := mkMixer (audio_opened m) (mixer_format m) (mixer_channels m) (mix_channel m) (posteffects m) v (reserved_channels m) (channel_done_callback m) (master_volume m) (heap m) (error m) (log m).
Definition set_reserved_channels v m := mkMixer (audio_opened m) (mixer_format m) (mixer_channels m) (mix_channel m) (posteffects m) (num_channels m) v (channel_done_callback m) (master_volume m) (heap m) (error m) (log m).
Definition set_heap v m := mkMixer (audio_opened m) (mixer_format m) (mixer_channels m) (mix_channel m) (posteffects m) (num_channels m) (reserved_channels m) (channel_done_callback m) (master_volume m) v (error m) (log m).
Definition set_channel_done_callback v m := mkMixer (audio_opened m) (mixer_format m) (mixer_channels m) (mix_channel m) (posteffects m) (num_channels m) (reserved_channels m) v (master_volume m) (heap m) (error m) (log m).
Definition set_master_volume v m := mkMixer (audio_opened m) (mixer_format m) (mixer_channels m) (mix_channel m) (posteffects m) (num_channels m) (reserved_channels m) (channel_done_callback m) v (heap m) (error m) (log m).
Definition set_error v m := mkMixer (audio_opened m) (mixer_format m) (mixer_channels m) (mix_channel m) (posteffects m) (num_channels m) (reserved_channels m) (channel_done_callback m) (master_volume m) (heap m) v (log m).
Definition set_log v m := mkMixer (audio_opened m) (mixer_format m) (mixer_channels m) (mix_channel m) (posteffects m) (num_channels m) (reserved_channels m) (channel_done_callback m) (master_volume m) (heap m) (error m) v.

(** ** The monad of mixer operations: state, with undefined behaviour as a
    result of its own *)

Inductive fault :=
| OutOfBounds (i : Z)   (* mix_channel[i] outside the allocated array *)
| BadChunk (p : Z)      (* dereference of a chunk pointer that is no chunk *)
| DivByZero
| Hang.                 (* a loop that makes no progress *)

Inductive result (A : Type) :=
| Ok (a : A)
| Crash (f : fault).
Arguments Ok {A} a.
Arguments Crash {A} f.

Definition M (A : Type) : Type := Mixer -> result (A * Mixer).

Definition ret {A} (a : A) : M A := fun m => Ok (a, m).

Definition bind {A B} (c : M A) (k : A -> M B) : M B :=
  fun m => match c m with
           | Ok (a, m') => k a m'
           | Crash f => Crash f
           end.

Definition crash {A} (f : fault) : M A := fun _ => Crash f.

Definition gets {A} (f : Mixer -> A) : M A := fun m => Ok (f m, m).
Definition modify (f : Mixer -> Mixer) : M unit := fun m => Ok (tt, f m).

Notation "x <- c1 ;; c2" := (bind c1 (fun x => c2))
  (at level 100, c1 at next level, right associativity).
Notation "c1 ;; c2" := (bind c1 (fun _ => c2))
  (at level 100, right associativity).

Definition when (b : bool) (c : M unit) : M unit := if b then c else ret tt.

(** [mix_channel[i]] as an rvalue. *)
Definition load (i : Z) : M Mix_Channel := fun m =>
  match (if 0 <=? i then mix_channel m !! Z.to_nat i else None) with
  | Some c => Ok (c, m)
  | None => Crash (OutOfBounds i)
  end.

(** An assignment to fields of [mix_channel[i]]. *)
Definition upd (i : Z) (f : Mix_Channel -> Mix_Channel) : M unit :=
  c <- load i ;;
  modify (fun m => set_mix_channel (<[Z.to_nat i := f c]> (mix_channel m)) m).

(** [p->...] for a chunk pointer [p]. *)
Definition deref (p : Z) : M Mix_Chunk := fun m =>
  match heap m !! p with
  | Some ch => Ok (ch, m)
  | None => Crash (BadChunk p)
  end.

Definition emit (e : event) : M unit :=
  modify (fun m => set_log (log m ++ [e]) m).

(** [SDL_SetError(msg)], which returns false. *)
Definition SDL_SetError (msg : string) : M bool :=
  modify (set_error (Some msg)) ;; ret false.

(** [for (i = lo; i < hi; ++i) acc = body(i, acc)] *)
Fixpoint for_loop {A} (n : nat) (i : Z) (body : Z -> A -> M A) (acc : A) : M A :=
  match n with
  | O => ret acc
  | S n' => acc' <- body i acc ;; for_loop n' (i + 1) body acc'
  end.

Definition For {A} (lo hi : Z) (body : Z -> A -> M A) (acc : A) : M A :=
  for_loop (Z.to_nat (hi - lo)) lo body acc.

Definition For_ (lo hi : Z) (body : Z -> M unit) : M unit :=
  For lo hi (fun i _ => body i) tt.

(** ** Effect chains *)

(** The [effect_info **e] arguments: the address of a chain head. *)
Inductive chain :=
| PostChain               (* &posteffects *)
| ChanChain (i : Z).      (* &mix_channel[i].effects *)

Definition read_chain (e : chain) : M (list effect_info) :=
  match e with
  | PostChain => gets posteffects
  | ChanChain i => c <- load i ;; ret (effects c)
  end.

Definition write_chain (e : chain) (l : list effect_info) : M unit :=
  match e with
  | PostChain => modify (set_posteffects l)
  | ChanChain i => upd i (set_effects l)
  end.

(** The walk to the last node of [_Mix_register_effect]. *)
Fixpoint append_effect (cur : list effect_info) (new_e : effect_info) : list effect_info :=
  match cur with
  | [] => [new_e]
  | x :: next => x :: append_effect next new_e
  end.

Definition _Mix_register_effect (malloc_ok : bool) (e : option chain) (f d arg : Z) : M bool :=
  match e with
  | None => SDL_SetError "Internal error"
  | Some e =>
      if f =? NULL then SDL_SetError "NULL effect callback"
      else if negb malloc_ok then ret false
      else
        l <- read_chain e ;;
        write_chain e (append_effect l (mkEffect f d arg)) ;;
        ret true
  end.

(** The loop of [_Mix_remove_all_effects]: every node's [done_callback], when
    there is one, is called from the head on. *)
Fixpoint release_all (channel : Z) (cur : list effect_info) : M unit :=
  match cur with
  | [] => ret tt
  | x :: next =>
      when (negb (done_callback x =? NULL))
           (emit (EffectDone (done_callback x) channel (udata x))) ;;
      release_all channel next
  end.

Definition _Mix_remove_all_effects (channel : Z) (e : option chain) : M bool :=
  match e with
  | None => SDL_SetError "Internal error"
  | Some e =>
      l <- read_chain e ;;
      release_all channel l ;;
      write_chain e [] ;;
      ret true
  end.

Definition _Mix_channel_done_playing (channel : Z) : M unit :=
  cb <- gets channel_done_callback ;;
  when (negb (cb =? NULL)) (emit (ChannelFinished cb channel)) ;;
  _ <- _Mix_remove_all_effects channel (Some (ChanChain channel)) ;;
  ret tt.

(** The chain a public effect call works on, or the error of a bad channel
    number. *)
Definition chain_of (channel : Z) : M (option chain) :=
  if channel =? MIX_CHANNEL_POST then ret (Some PostChain)
  else
    n <- gets num_channels ;;
    if (channel <? 0) || (n <=? channel) then
      _ <- SDL_SetError "Invalid channel number" ;; ret None
    else ret (Some (ChanChain channel)).

Definition _Mix_RegisterEffect_locked (malloc_ok : bool) (channel f d arg : Z) : M bool :=
  e <- chain_of channel ;;
  match e with
  | None => ret false
  | Some e => _Mix_register_effect malloc_ok (Some e) f d arg
  end.

Definition Mix_RegisterEffect := _Mix_RegisterEffect_locked.

Definition _Mix_UnregisterAllEffects_locked (channel : Z) : M bool :=
  e <- chain_of channel ;;
  match e with
  | None => ret false
  | Some e => _Mix_remove_all_effects channel (Some e)
  end.

Definition Mix_UnregisterAllEffects := _Mix_UnregisterAllEffects_locked.

(** The loop of [Mix_DoEffects]: the callbacks of the chain run in order on
    the buffer. *)
Fixpoint run_effects (chan len : Z) (e : list effect_info) : M unit :=
  match e with
  | [] => ret tt
  | x :: next =>
      when (negb (callback x =? NULL)) (emit (EffectRun (callback x) chan len (udata x))) ;;
      run_effects chan len next
  end.

(** [Mix_DoEffects].  With no effect registered nothing happens.  The
    post-mix chain works on the output buffer itself; the chain of a channel
    works on a copy of the slice, and when the [SDL_malloc] of the copy fails
    ([malloc_ok = false]) no effect runs and the slice is mixed as it is. *)
Definition Mix_DoEffects (malloc_ok : bool) (chan len : Z) : M unit :=
  let posteffect := chan =? MIX_CHANNEL_POST in
  e <- (if posteffect then gets posteffects
        else c <- load chan ;; ret (effects c)) ;;
  match e with
  | [] => ret tt
  | _ :: _ =>
      if negb posteffect && negb malloc_ok then ret tt
      else run_effects chan len e
  end.

(** ** Channel state queries and volume *)

Definition is_playing (c : Mix_Channel) : bool :=
  (0 <? playing c) || negb (looping c =? 0).

Definition Mix_Playing (which : Z) : M Z :=
  n <- gets num_channels ;;
  if which =? -1 then
    For 0 n (fun i status =>
               c <- load i ;;
               ret (if is_playing c then status + 1 else status)) 0
  else if which <? n then
    c <- load which ;;
    ret (if is_playing c then 1 else 0)
  else ret 0.

(** [Mix_Volume] for one channel: the function at [which != -1], which is
    also what its own loop over all channels calls. *)
Definition Mix_Volume_channel (which vol : Z) : M Z :=
  n <- gets num_channels ;;
  if which <? n then
    c <- load which ;;
    let prev_volume := volume c in
    when (0 <=? vol)
         (upd which (set_volume (if MIX_MAX_VOLUME <? vol then MIX_MAX_VOLUME else vol))) ;;
    ret prev_volume
  else ret 0.

Definition Mix_Volume (which vol : Z) : M Z :=
  if which =? -1 then
    n <- gets num_channels ;;
    prev_volume <- For 0 n (fun i prev_volume =>
                              v <- Mix_Volume_channel i vol ;;
                              ret (prev_volume + v)) 0 ;;
    if n =? 0 then crash DivByZero else ret (Z.quot prev_volume n)
  else Mix_Volume_channel which vol.

(** ** Halting, and resizing the channel array *)

Definition Mix_HaltChannel_locked (which : Z) : M unit :=
  p <- Mix_Playing which ;;
  when (negb (p =? 0))
       (upd which (set_playing 0) ;;
        upd which (set_looping 0) ;;
        _Mix_channel_done_playing which) ;;
  upd which (set_expire 0) ;;
  c <- load which ;;
  when (negb (fading_eqb (fading c) MIX_NO_FADING))
       (upd which (set_volume (fade_volume_reset c))) ;;
  upd which (set_fading MIX_NO_FADING).

Definition Mix_HaltChannel (which : Z) : M unit :=
  n <- gets num_channels ;;
  if which =? -1 then For_ 0 n Mix_HaltChannel_locked
  else when (which <? n) (Mix_HaltChannel_locked which).

(** The assignments that make a slot inert, in [Mix_OpenAudio] and in
    [Mix_AllocateChannels]; the fields they leave alone ([samples],
    [start_time], [fade_length], [ticks_fade]) keep what the memory held. *)
Definition init_channel (c : Mix_Channel) : Mix_Channel :=
  set_paused 0 (set_effects [] (set_expire 0 (set_tag (-1)
    (set_fading MIX_NO_FADING (set_fade_volume_reset MIX_MAX_VOLUME
      (set_fade_volume MIX_MAX_VOLUME (set_volume MIX_MAX_VOLUME
        (set_looping 0 (set_playing 0 (set_chunk NULL c)))))))))).

(** A successful [SDL_realloc] to [numchans] slots: the common prefix is
    kept, new slots hold whatever the memory held ([junk]). *)
Definition realloc_channels (junk : Z -> Mix_Channel) (numchans : Z)
    (old : list Mix_Channel) : list Mix_Channel :=
  take (Z.to_nat numchans) old ++
  map (fun k => junk (Z.of_nat k))
      (seq (length old) (Z.to_nat numchans - length old)).

(** [realloc_ok] says whether [SDL_realloc] returns a block. *)
Definition Mix_AllocateChannels (realloc_ok : bool) (junk : Z -> Mix_Channel)
    (numchans : Z) : M Z :=
  n <- gets num_channels ;;
  if (numchans <? 0) || (numchans =? n) then ret n
  else
    when (numchans <? n)
         (For_ numchans n (fun i =>
            _ <- Mix_UnregisterAllEffects i ;;
            Mix_HaltChannel i)) ;;
    (if realloc_ok || (numchans =? 0) then
       modify (fun m => set_mix_channel
                          (if numchans =? 0 then []
                           else realloc_channels junk numchans (mix_channel m)) m) ;;
       when (n <? numchans) (For_ n numchans (fun i => upd i init_channel)) ;;
       modify (set_num_channels numchans)
     else
       _ <- SDL_SetError "Channel allocation failed" ;; ret tt) ;;
    gets num_channels.

Definition Mix_ChannelFinished (channel_finished : Z) : M unit :=
  modify (set_channel_done_callback channel_finished).

Definition Mix_ReserveChannels (num : Z) : M Z :=
  n <- gets num_channels ;;
  let num := if num <? 0 then 0 else num in
  let num := if n <? num then n else num in
  modify (set_reserved_channels num) ;;
  ret num.

(** ** Starting playback *)

Definition set_alen (p : Z) (v : Z) : M unit :=
  ch <- deref p ;;
  modify (fun m => set_heap (<[p := mkChunk (allocated ch) (abuf ch) v (cvolume ch)]> (heap m)) m).

(** [while (chunk->alen % frame_width) chunk->alen--;] on the [Uint32]
    length. *)
Fixpoint trim_loop (fuel : nat) (p frame_width : Z) : M unit :=
  match fuel with
  | O => crash Hang
  | S fuel' =>
      ch <- deref p ;;
      if u32 frame_width =? 0 then crash DivByZero
      else if negb (alen ch mod u32 frame_width =? 0) then
        set_alen p (u32 (alen ch - 1)) ;;
        trim_loop fuel' p frame_width
      else ret tt
  end.

Definition checkchunkintegral (p : Z) : M Z :=
  fmt <- gets mixer_format ;;
  nch <- gets mixer_channels ;;
  let frame_width := if Z.land fmt 255 =? 16 then 2 else 1 in
  let frame_width := frame_width * nch in
  ch <- deref p ;;
  trim_loop (S (Z.to_nat (alen ch))) p frame_width ;;
  ch <- deref p ;;
  ret (to_int (alen ch)).

(** [for (i = reserved_channels; i < num_channels; ++i) if (!Mix_Playing(i)) break;]
    with the value of [i] after the loop. *)
Fixpoint first_free (fuel : nat) (i n : Z) : M Z :=
  match fuel with
  | O => ret i
  | S fuel' =>
      if i <? n then
        p <- Mix_Playing i ;;
        if p =? 0 then ret i else first_free fuel' (i + 1) n
      else ret i
  end.

Definition Mix_PlayChannelTimed (sdl_ticks : Z) (which chunk_ loops ticks : Z) : M Z :=
  if chunk_ =? NULL then
    _ <- SDL_SetError "Tried to play a NULL chunk" ;; ret (-1)
  else
    ok <- checkchunkintegral chunk_ ;;
    if ok =? 0 then
      _ <- SDL_SetError "Tried to play a chunk with a bad frame" ;; ret (-1)
    else
      n <- gets num_channels ;;
      which <- (if which =? -1 then
                  r <- gets reserved_channels ;;
                  i <- first_free (Z.to_nat (n - r)) r n ;;
                  if i =? n then
                    _ <- SDL_SetError "No free channels available" ;; ret (-1)
                  else ret i
                else
                  p <- Mix_Playing which ;;
                  when (negb (p =? 0)) (_Mix_channel_done_playing which) ;;
                  ret which) ;;
      when ((0 <=? which) && (which <? n))
           (ch <- deref chunk_ ;;
            upd which (set_samples 0) ;;
            upd which (set_playing (to_int (alen ch))) ;;
            upd which (set_looping loops) ;;
            upd which (set_chunk chunk_) ;;
            upd which (set_paused 0) ;;
            upd which (set_fading MIX_NO_FADING) ;;
            upd which (set_start_time sdl_ticks) ;;
            upd which (set_expire (if 0 <? ticks then u64 (sdl_ticks + ticks) else 0))) ;;
      ret which.

Definition Mix_PlayChannel (sdl_ticks : Z) (channel chunk_ loops : Z) : M Z :=
  Mix_PlayChannelTimed sdl_ticks channel chunk_ loops (-1).

(** ** Fading out *)

(** [Mix_FadeOutChannel] at [which != -1]; its loop over all channels calls
    it at each index. *)
Definition Mix_FadeOutChannel_channel (sdl_ticks : Z) (which ms : Z) : M Z :=
  opened <- gets audio_opened ;;
  n <- gets num_channels ;;
  if negb (opened =? 0) && (which <? n) then
    p <- Mix_Playing which ;;
    c <- load which ;;
    if negb (p =? 0) && (0 <? volume c) && negb (fading_eqb (fading c) MIX_FADING_OUT) then
      upd which (set_fade_volume (volume c)) ;;
      upd which (set_fade_length (u64 ms)) ;;
      upd which (set_ticks_fade sdl_ticks) ;;
      when (fading_eqb (fading c) MIX_NO_FADING)
           (upd which (set_fade_volume_reset (volume c))) ;;
      upd which (set_fading MIX_FADING_OUT) ;;
      ret 1
    else ret 0
  else ret 0.

Definition Mix_FadeOutChannel (sdl_ticks : Z) (which ms : Z) : M Z :=
  opened <- gets audio_opened ;;
  if negb (opened =? 0) && (which =? -1) then
    n <- gets num_channels ;;
    For 0 n (fun i status =>
               s <- Mix_FadeOutChannel_channel sdl_ticks i ms ;;
               ret (status + s)) 0
  else Mix_FadeOutChannel_channel sdl_ticks which ms.

(** ** Groups *)

Definition Mix_GroupChannel (which tag_ : Z) : M bool :=
  n <- gets num_channels ;;
  if (which <? 0) || (n <? which) then ret false
  else upd which (set_tag tag_) ;; ret true.

(** One iteration of the scan of [Mix_GroupOldest]; the accumulator is
    [(chan, mintime)]. *)
Definition oldest_step (tag_ : Z) (i : Z) (acc : Z * Z) : M (Z * Z) :=
  c <- load i ;;
  p <- Mix_Playing i ;;
  if ((tag c =? tag_) || (tag_ =? -1)) && negb (p =? 0) && (start_time c <=? snd acc)
  then ret (i, start_time c)
  else ret acc.

Definition Mix_GroupOldest (sdl_ticks : Z) (tag_ : Z) : M Z :=
  n <- gets num_channels ;;
  r <- For 0 n (oldest_step tag_) (-1, sdl_ticks) ;;
  ret (fst r).

(** One iteration of the scan of [Mix_GroupNewer]; the accumulator is
    [(chan, maxtime)]. *)
Definition newer_step (tag_ : Z) (i : Z) (acc : Z * Z) : M (Z * Z) :=
  c <- load i ;;
  p <- Mix_Playing i ;;
  if ((tag c =? tag_) || (tag_ =? -1)) && negb (p =? 0) && (snd acc <=? start_time c)
  then ret (i, start_time c)
  else ret acc.

Definition Mix_GroupNewer (tag_ : Z) : M Z :=
  n <- gets num_channels ;;
  r <- For 0 n (newer_step tag_) (-1, 0) ;;
  ret (fst r).

(** ** The mixing callback *)

(** [(master_vol * (mix_channel[i].volume * mix_channel[i].chunk->volume))
     / (MIX_MAX_VOLUME * MIX_MAX_VOLUME)] *)
Definition mixed_volume (master_vol i : Z) : M Z :=
  c <- load i ;;
  ch <- deref (chunk c) ;;
  ret (Z.quot (master_vol * (volume c * cvolume ch)) (MIX_MAX_VOLUME * MIX_MAX_VOLUME)).

(** The first [while] of the render step: the rest of the current traversal.
    The result is [(index, volume)].  [malloc_ok i index] is the result of the
    allocation in the [Mix_DoEffects] call for channel [i] at the output
    offset [index]. *)
Fixpoint play_loop (malloc_ok : Z -> Z -> bool) (fuel : nat)
    (i len master_vol index vol : Z) : M (Z * Z) :=
  match fuel with
  | O => crash Hang
  | S fuel' =>
      c <- load i ;;
      if (0 <? playing c) && (index <? len) then
        let remaining := len - index in
        let mixable := if remaining <? playing c then remaining else playing c in
        Mix_DoEffects (malloc_ok i index) i mixable ;;
        emit (MixAudio i index (chunk c) (samples c) mixable vol) ;;
        upd i (set_samples (samples c + mixable)) ;;
        upd i (set_playing (playing c - mixable)) ;;
        c' <- load i ;;
        vol' <- (if (playing c' =? 0) && (looping c' =? 0) then
                   upd i (set_fading MIX_NO_FADING) ;;
                   upd i (set_expire 0) ;;
                   _Mix_channel_done_playing i ;;
                   mixed_volume master_vol i
                 else ret vol) ;;
        play_loop malloc_ok fuel' i len master_vol (index + mixable) vol'
      else ret (index, vol)
  end.

(** The second [while]: further traversals inside the same output buffer.
    The result is [index]. *)
Fixpoint wrap_loop (malloc_ok : Z -> Z -> bool) (fuel : nat)
    (i len index vol : Z) : M Z :=
  match fuel with
  | O => crash Hang
  | S fuel' =>
      c <- load i ;;
      if negb (looping c =? 0) && (index <? len) then
        ch <- deref (chunk c) ;;
        let alen_ := to_int (alen ch) in
        let remaining := len - index in
        let remaining := if alen_ <? remaining then alen_ else remaining in
        Mix_DoEffects (malloc_ok i index) i remaining ;;
        emit (MixAudio i index (chunk c) 0 remaining vol) ;;
        when (0 <? looping c) (upd i (set_looping (looping c - 1))) ;;
        upd i (set_samples remaining) ;;
        upd i (set_playing (to_int (u32 (alen ch - remaining)))) ;;
        wrap_loop malloc_ok fuel' i len (index + remaining) vol
      else ret index
  end.

(** The render step of channel [i], entered when [playing > 0]. *)
Definition render (malloc_ok : Z -> Z -> bool) (i len master_vol : Z) : M unit :=
  vol <- mixed_volume master_vol i ;;
  r <- play_loop malloc_ok (S (Z.to_nat len)) i len master_vol 0 vol ;;
  _ <- wrap_loop malloc_ok (S (Z.to_nat len)) i len (fst r) (snd r) ;;
  c <- load i ;;
  when ((playing c =? 0) && negb (looping c =? 0))
       (when (0 <? looping c) (upd i (set_looping (looping c - 1))) ;;
        ch <- deref (chunk c) ;;
        upd i (set_samples 0) ;;
        upd i (set_playing (to_int (alen ch)))).

(** The body of the loop over the channels. *)
Definition mix_channel_tick (malloc_ok : Z -> Z -> bool)
    (sdl_ticks len master_vol i : Z) : M unit :=
  c <- load i ;;
  when (paused c =? 0)
    ((if (0 <? expire c) && (expire c <? sdl_ticks) then
        upd i (set_playing 0) ;;
        upd i (set_looping 0) ;;
        upd i (set_fading MIX_NO_FADING) ;;
        upd i (set_expire 0) ;;
        _Mix_channel_done_playing i
      else if negb (fading_eqb (fading c) MIX_NO_FADING) then
        let ticks := u64 (sdl_ticks - ticks_fade c) in
        if fade_length c <=? ticks then
          _ <- Mix_Volume i (fade_volume_reset c) ;;
          when (fading_eqb (fading c) MIX_FADING_OUT)
               (upd i (set_playing 0) ;;
                upd i (set_looping 0) ;;
                upd i (set_expire 0) ;;
                _Mix_channel_done_playing i) ;;
          upd i (set_fading MIX_NO_FADING)
        else if fading_eqb (fading c) MIX_FADING_OUT then
          _ <- Mix_Volume i (to_int (u64 (u64 (fade_volume c) * (fade_length c - ticks))
                                     / fade_length c)) ;;
          ret tt
        else
          _ <- Mix_Volume i (to_int (u64 (u64 (fade_volume c) * ticks) / fade_length c)) ;;
          ret tt
      else ret tt) ;;
     c' <- load i ;;
     when (0 <? playing c') (render malloc_ok i len master_vol)).

(** [mix_channels] with the clock read as [sdl_ticks].  The scratch buffer
    is [audio_mixbuflen] bytes long when the callback is entered; when that
    is less than [len] a new one is allocated, and when that allocation fails
    ([alloc_ok = false]) the callback returns at once.  Otherwise come the
    loop over the channels and the post-mix effects, which work in place
    and allocate nothing.  The contents of the scratch buffer, the music
    source, the post-mix hook and the hand-over to the audio stream neither
    read nor write the channel registry and are left out. *)
Definition mix_channels (audio_mixbuflen : Z) (alloc_ok : bool)
    (malloc_ok : Z -> Z -> bool) (sdl_ticks len : Z) : M unit :=
  if (audio_mixbuflen <? len) && negb alloc_ok then ret tt
  else
    master_vol <- gets master_volume ;;
    n <- gets num_channels ;;
    For_ 0 n (mix_channel_tick malloc_ok sdl_ticks len master_vol) ;;
    Mix_DoEffects true MIX_CHANNEL_POST len.

(** ** Running operations *)

Definition idle_channel : Mix_Channel :=
  init_channel (mkChannel 0 0 0 0 0 0 0 0 0 MIX_NO_FADING 0 0 0 0 []).

(** The mixer as [Mix_OpenAudio] leaves it: [n] inert channels of a device
    with the given sample format and channel count. *)
Definition opened_mixer (fmt nch : Z) (n : nat) : Mixer :=
  mkMixer 1 fmt nch (repeat idle_channel n) [] (Z.of_nat n) 0 NULL
          MIX_MAX_VOLUME ∅ None [].

Definition new_chunk (p : Z) (ch : Mix_Chunk) (m : Mixer) : Mixer :=
  set_heap (<[p := ch]> (heap m)) m.

Definition exec {A} (c : M A) (m : Mixer) : option Mixer :=
  match c m with Ok (_, m') => Some m' | Crash _ => None end.

Definition value {A} (c : M A) (m : Mixer) : option A :=
  match c m with Ok (a, _) => Some a | Crash _ => None end.

(** * Properties *)

(** ** Running the primitives *)

(** The channel array has [num_channels] slots: what [Mix_OpenAudio] and
    [Mix_AllocateChannels] establish. *)
Definition wf_registry (m : Mixer) : Prop :=
  num_channels m = Z.of_nat (length (mix_channel m)).

Lemma to_int_small x : 0 <= x < 2 ^ 31 -> to_int x = x.
Proof. intros H. unfold to_int. rewrite Z.mod_small; lia. Qed.

Lemma u64_small x : 0 <= x < 2 ^ 64 -> u64 x = x.
Proof. intros H. unfold u64. apply Z.mod_small. lia. Qed.

Lemma bind_run {A B} (c : M A) (k : A -> M B) m :
  bind c k m = match c m with Ok (a, m') => k a m' | Crash f => Crash f end.
Proof. reflexivity. Qed.

Lemma bind_ok {A B} (c : M A) (k : A -> M B) m a m' :
  c m = Ok (a, m') -> bind c k m = k a m'.
Proof. intros H. unfold bind. now rewrite H. Qed.

Lemma load_ok m i c :
  0 <= i -> mix_channel m !! Z.to_nat i = Some c -> load i m = Ok (c, m).
Proof.
  intros Hi Hc. unfold load.
  destruct (0 <=? i) eqn:E; [ now rewrite Hc | lia ].
Qed.

Lemma load_oob m i :
  i < 0 \/ Z.of_nat (length (mix_channel m)) <= i -> load i m = Crash (OutOfBounds i).
Proof.
  intros Hi. unfold load.
  destruct (0 <=? i) eqn:E; [ | reflexivity ].
  rewrite (proj2 (lookup_ge_None (mix_channel m) (Z.to_nat i))); [ reflexivity | lia ].
Qed.

Lemma upd_ok m i c f :
  0 <= i -> mix_channel m !! Z.to_nat i = Some c ->
  upd i f m = Ok (tt, set_mix_channel (<[Z.to_nat i := f c]> (mix_channel m)) m).
Proof.
  intros Hi Hc. unfold upd. now rewrite (bind_ok _ _ _ _ _ (load_ok m i c Hi Hc)).
Qed.

(** The mixer [m0] with channel [i] replaced by [c] and with log [l]: the
    shape of every state an operation on channel [i] goes through. *)
Definition st (m0 : Mixer) (i : Z) (c : Mix_Channel) (l : list event) : Mixer :=
  set_log l (set_mix_channel (<[Z.to_nat i := c]> (mix_channel m0)) m0).

Definition valid_index (m : Mixer) (i : Z) : Prop :=
  0 <= i < Z.of_nat (length (mix_channel m)).

Lemma st_start m i c :
  mix_channel m !! Z.to_nat i = Some c -> st m i c (log m) = m.
Proof.
  intros H. unfold st. destruct m; simpl in *.
  unfold set_log, set_mix_channel; simpl. now rewrite list_insert_id.
Qed.

Lemma st_lookup m0 i c l :
  valid_index m0 i -> mix_channel (st m0 i c l) !! Z.to_nat i = Some c.
Proof. intros [H0 H1]. simpl. apply list_lookup_insert_eq. lia. Qed.

Lemma st_lookup_ne m0 i c l j :
  0 <= i -> 0 <= j -> i <> j ->
  mix_channel (st m0 i c l) !! Z.to_nat j = mix_channel m0 !! Z.to_nat j.
Proof. intros. simpl. apply list_lookup_insert_ne. lia. Qed.


Lemma st_st m0 i c l c' l' : st (st m0 i c l) i c' l' = st m0 i c' l'.
Proof. unfold st, set_log, set_mix_channel; simpl. now rewrite list_insert_insert_eq. Qed.

Lemma load_st m0 i c l :
  valid_index m0 i -> load i (st m0 i c l) = Ok (c, st m0 i c l).
Proof. intros H. apply load_ok; [ apply H | now apply st_lookup ]. Qed.

Lemma upd_st m0 i c l f :
  valid_index m0 i -> upd i f (st m0 i c l) = Ok (tt, st m0 i (f c) l).
Proof.
  intros H. rewrite (upd_ok _ _ c); [ | apply H | now apply st_lookup ].
  unfold st, set_log, set_mix_channel; simpl. now rewrite list_insert_insert_eq.
Qed.

Lemma emit_st m0 i c l e : emit e (st m0 i c l) = Ok (tt, st m0 i c (l ++ [e])).
Proof. reflexivity. Qed.

Lemma deref_st m0 i c l p ch :
  heap m0 !! p = Some ch -> deref p (st m0 i c l) = Ok (ch, st m0 i c l).
Proof. intros H. unfold deref. simpl. now rewrite H. Qed.

(** Symbolic execution of straight-line code on a state in [st] form. *)
Ltac mrun :=
  repeat first
    [ rewrite bind_run
    | rewrite upd_st by assumption
    | rewrite load_st by assumption
    | rewrite emit_st
    | progress cbn [ret when negb andb orb fst snd] ].

(** ** Volume *)

Definition stored_volume (vol : Z) (c : Mix_Channel) : Mix_Channel :=
  if 0 <=? vol
  then set_volume (if MIX_MAX_VOLUME <? vol then MIX_MAX_VOLUME else vol) c
  else c.

Lemma Mix_Volume_channel_st m0 i c l vol :
  valid_index m0 i -> i < num_channels m0 ->
  Mix_Volume_channel i vol (st m0 i c l) = Ok (volume c, st m0 i (stored_volume vol c) l).
Proof.
  intros Hv Hn. unfold Mix_Volume_channel, gets. rewrite bind_run. cbn [num_channels st set_log set_mix_channel].
  destruct (i <? num_channels m0) eqn:E; [ | lia ].
  rewrite bind_run, load_st by assumption.
  unfold stored_volume, when. destruct (0 <=? vol).
  - now rewrite bind_run, upd_st.
  - reflexivity.
Qed.

Lemma Mix_Volume_st m0 i c l vol :
  valid_index m0 i -> i < num_channels m0 ->
  Mix_Volume i vol (st m0 i c l) = Ok (volume c, st m0 i (stored_volume vol c) l).
Proof.
  intros Hv Hn. unfold Mix_Volume.
  destruct (i =? -1) eqn:E; [ destruct Hv; lia | ].
  now apply Mix_Volume_channel_st.
Qed.

Lemma wf_valid_index m i :
  wf_registry m -> 0 <= i < num_channels m -> valid_index m i.
Proof. unfold wf_registry, valid_index. lia. Qed.

Lemma valid_index_lookup m i :
  valid_index m i -> exists c, mix_channel m !! Z.to_nat i = Some c.
Proof.
  intros [H0 H1]. destruct (mix_channel m !! Z.to_nat i) eqn:E; [ eauto | ].
  apply lookup_ge_None in E. lia.
Qed.

Definition channel_volume (m : Mixer) (c : Z) : option Z :=
  volume <$> mix_channel m !! Z.to_nat c.

(** C7. On a valid channel, setting a volume in [0, MIX_MAX_VOLUME] and then
    querying with -1 returns that volume; setting a volume above
    MIX_MAX_VOLUME stores MIX_MAX_VOLUME, which the query then returns; and a
    query (volume -1) returns the stored volume and leaves the whole mixer as
    it was. *)
Theorem Mix_Volume_set_then_query (m : Mixer) (c v : Z) :
  wf_registry m -> 0 <= c < num_channels m ->
  exists prev m',
    Mix_Volume c v m = Ok (prev, m') /\
    channel_volume m c = Some prev /\
    (0 <= v <= MIX_MAX_VOLUME -> Mix_Volume c (-1) m' = Ok (v, m')) /\
    (MIX_MAX_VOLUME < v ->
     channel_volume m' c = Some MIX_MAX_VOLUME /\
     Mix_Volume c (-1) m' = Ok (MIX_MAX_VOLUME, m')) /\
    (v = -1 -> m' = m).
Proof.
  intros Hwf Hc.
  pose proof (wf_valid_index m c Hwf Hc) as Hv.
  destruct (valid_index_lookup m c Hv) as [cur Hcur].
  exists (volume cur), (st m c (stored_volume v cur) (log m)).
  assert (Hrun : forall x l vol, Mix_Volume c vol (st m c x l)
                                 = Ok (volume x, st m c (stored_volume vol x) l)).
  { intros. apply Mix_Volume_st; [ assumption | lia ]. }
  repeat split.
  - rewrite <- (st_start m c cur Hcur) at 1. apply Hrun.
  - unfold channel_volume. now rewrite Hcur.
  - intros Hr. rewrite Hrun. unfold stored_volume, MIX_MAX_VOLUME in *.
    destruct (0 <=? v) eqn:E0; [ | lia ].
    destruct (128 <? v) eqn:E1; [ lia | ]. reflexivity.
  - unfold channel_volume. rewrite st_lookup by assumption.
    unfold stored_volume, MIX_MAX_VOLUME in *.
    destruct (0 <=? v) eqn:E0; [ | lia ].
    destruct (128 <? v) eqn:E1; [ reflexivity | lia ].
  - rewrite Hrun. unfold stored_volume, MIX_MAX_VOLUME in *.
    destruct (0 <=? v) eqn:E0; [ | lia ].
    destruct (128 <? v) eqn:E1; [ reflexivity | lia ].
  - intros ->. simpl. now apply st_start.
Qed.

Lemma Mix_Volume_set_then_query_witness :
  exists prev m',
    Mix_Volume 3 200 (opened_mixer 32784 2 8) = Ok (prev, m') /\
    channel_volume (opened_mixer 32784 2 8) 3 = Some prev /\
    (0 <= 200 <= MIX_MAX_VOLUME -> Mix_Volume 3 (-1) m' = Ok (200, m')) /\
    (MIX_MAX_VOLUME < 200 ->
     channel_volume m' 3 = Some MIX_MAX_VOLUME /\
     Mix_Volume 3 (-1) m' = Ok (MIX_MAX_VOLUME, m')) /\
    (200 = -1 -> m' = opened_mixer 32784 2 8).
Proof.
  apply (Mix_Volume_set_then_query (opened_mixer 32784 2 8) 3 200).
  - reflexivity.
  - simpl. lia.
Defined.

(** ** Group tags *)

Lemma Mix_GroupChannel_rejects (m : Mixer) (which tag_ : Z) :
  which < 0 \/ num_channels m < which ->
  Mix_GroupChannel which tag_ m = Ok (false, m).
Proof.
  intros H. unfold Mix_GroupChannel, gets. rewrite bind_run.
  destruct ((which <? 0) || (num_channels m <? which)) eqn:E; [ reflexivity | ].
  apply orb_false_iff in E. lia.
Qed.

Lemma Mix_GroupChannel_stores (m : Mixer) (which tag_ : Z) (c : Mix_Channel) :
  wf_registry m -> 0 <= which < num_channels m ->
  mix_channel m !! Z.to_nat which = Some c ->
  Mix_GroupChannel which tag_ m = Ok (true, st m which (set_tag tag_ c) (log m)).
Proof.
  intros Hwf Hi Hc. unfold Mix_GroupChannel, gets. rewrite bind_run.
  destruct ((which <? 0) || (num_channels m <? which)) eqn:E.
  { apply orb_true_iff in E. lia. }
  rewrite bind_run, (upd_ok m which c) by (assumption || lia).
  destruct m; reflexivity.
Qed.

(** C10. The guard of Mix_GroupChannel is [which > num_channels]: the index
    [num_channels], one past the last slot, passes it, and the store of the
    tag goes to [mix_channel[num_channels]], outside the allocated array,
    instead of the call returning failure. *)
Theorem Mix_GroupChannel_one_past_the_end (m : Mixer) (tag_ : Z) :
  wf_registry m ->
  Mix_GroupChannel (num_channels m) tag_ m = Crash (OutOfBounds (num_channels m)).
Proof.
  intros Hwf. unfold Mix_GroupChannel, gets. rewrite bind_run.
  assert (0 <= num_channels m) by (rewrite Hwf; lia).
  destruct ((num_channels m <? 0) || (num_channels m <? num_channels m)) eqn:E.
  { apply orb_true_iff in E. lia. }
  rewrite bind_run. unfold upd. rewrite bind_run, load_oob; [ reflexivity | ].
  right. rewrite Hwf. lia.
Qed.

Lemma Mix_GroupChannel_one_past_the_end_witness :
  Mix_GroupChannel 8 5 (opened_mixer 32784 2 8) = Crash (OutOfBounds 8).
Proof.
  apply (Mix_GroupChannel_one_past_the_end (opened_mixer 32784 2 8) 5).
  reflexivity.
Defined.

(** ** Effect chains *)

(** The chain of a channel, or the post-mix chain. *)
Definition effects_of (m : Mixer) (channel : Z) : option (list effect_info) :=
  if channel =? MIX_CHANNEL_POST then Some (posteffects m)
  else if 0 <=? channel then effects <$> mix_channel m !! Z.to_nat channel
  else None.

(** The release callbacks a teardown of chain [l] calls, in order. *)
Definition release_events (channel : Z) (l : list effect_info) : list event :=
  map (fun x => EffectDone (done_callback x) channel (udata x))
      (filter (fun x => done_callback x <> NULL) l).

Lemma append_effect_app l e : append_effect l e = l ++ [e].
Proof. induction l as [|x l IH]; simpl; [ reflexivity | now rewrite IH ]. Qed.

Lemma release_events_app channel l1 l2 :
  release_events channel (l1 ++ l2) = release_events channel l1 ++ release_events channel l2.
Proof. unfold release_events. now rewrite filter_app, map_app. Qed.

Lemma release_all_run channel l m :
  release_all channel l m = Ok (tt, set_log (log m ++ release_events channel l) m).
Proof.
  revert m. induction l as [|x l IH]; intros m.
  - simpl. unfold ret, release_events. simpl. rewrite app_nil_r. now destruct m.
  - cbn [release_all]. rewrite bind_run. unfold when.
    unfold release_events. rewrite filter_cons.
    destruct (decide (done_callback x <> NULL)) as [Hd|Hd].
    + destruct (done_callback x =? NULL) eqn:E; [ lia | ]. cbn [negb].
      unfold emit, modify. rewrite IH. cbn. now rewrite <- app_assoc.
    + destruct (done_callback x =? NULL) eqn:E; [ | lia ]. cbn [negb].
      unfold ret. now rewrite IH.
Qed.

Lemma release_all_st channel es m0 i c l :
  release_all channel es (st m0 i c l) = Ok (tt, st m0 i c (l ++ release_events channel es)).
Proof. now rewrite release_all_run. Qed.

Lemma remove_all_effects_st m0 i c l :
  valid_index m0 i ->
  _Mix_remove_all_effects i (Some (ChanChain i)) (st m0 i c l)
  = Ok (true, st m0 i (set_effects [] c) (l ++ release_events i (effects c))).
Proof.
  intros Hv. unfold _Mix_remove_all_effects, read_chain, write_chain.
  rewrite !bind_run, load_st by assumption. cbn [ret].
  now rewrite bind_run, release_all_st, bind_run, upd_st.
Qed.

Lemma chain_of_channel m i :
  0 <= i < num_channels m -> chain_of i m = Ok (Some (ChanChain i), m).
Proof.
  intros Hi. unfold chain_of, MIX_CHANNEL_POST.
  destruct (i =? -2) eqn:E; [ lia | ].
  unfold gets. rewrite bind_run.
  destruct ((i <? 0) || (num_channels m <=? i)) eqn:E'; [ | reflexivity ].
  apply orb_true_iff in E'. lia.
Qed.

Lemma chain_of_invalid m i :
  i <> MIX_CHANNEL_POST -> i < 0 \/ num_channels m <= i ->
  chain_of i m = Ok (None, set_error (Some "Invalid channel number"%string) m).
Proof.
  intros Hp Hi. unfold chain_of, MIX_CHANNEL_POST in *.
  destruct (i =? -2) eqn:E; [ lia | ].
  unfold gets. rewrite bind_run.
  destruct ((i <? 0) || (num_channels m <=? i)) eqn:E'; [ reflexivity | ].
  apply orb_false_iff in E'. lia.
Qed.

Lemma UnregisterAllEffects_st m0 i c l :
  valid_index m0 i -> i < num_channels m0 ->
  Mix_UnregisterAllEffects i (st m0 i c l)
  = Ok (true, st m0 i (set_effects [] c) (l ++ release_events i (effects c))).
Proof.
  intros Hv Hn. unfold Mix_UnregisterAllEffects, _Mix_UnregisterAllEffects_locked.
  rewrite bind_run, chain_of_channel by (destruct Hv; simpl; lia).
  now apply remove_all_effects_st.
Qed.

Lemma RegisterEffect_st m0 i c l f d arg :
  valid_index m0 i -> i < num_channels m0 -> f <> NULL ->
  Mix_RegisterEffect true i f d arg (st m0 i c l)
  = Ok (true, st m0 i (set_effects (effects c ++ [mkEffect f d arg]) c) l).
Proof.
  intros Hv Hn Hf. unfold Mix_RegisterEffect, _Mix_RegisterEffect_locked.
  rewrite bind_run, chain_of_channel by (destruct Hv; simpl; lia).
  unfold _Mix_register_effect, read_chain, write_chain.
  destruct (f =? NULL) eqn:E; [ apply Z.eqb_eq in E; contradiction | ].
  cbn [negb]. rewrite !bind_run, load_st by assumption. cbn [ret].
  now rewrite bind_run, upd_st, append_effect_app.
Qed.

Lemma UnregisterAllEffects_post m :
  Mix_UnregisterAllEffects MIX_CHANNEL_POST m
  = Ok (true, set_posteffects []
                (set_log (log m ++ release_events MIX_CHANNEL_POST (posteffects m)) m)).
Proof.
  unfold Mix_UnregisterAllEffects, _Mix_UnregisterAllEffects_locked, chain_of.
  cbn [Z.eqb MIX_CHANNEL_POST Pos.eqb]. rewrite bind_run. cbn [ret].
  unfold _Mix_remove_all_effects, read_chain, write_chain, gets.
  rewrite !bind_run, release_all_run. reflexivity.
Qed.

Lemma RegisterEffect_post m f d arg :
  f <> NULL ->
  Mix_RegisterEffect true MIX_CHANNEL_POST f d arg m
  = Ok (true, set_posteffects (posteffects m ++ [mkEffect f d arg]) m).
Proof.
  intros Hf. unfold Mix_RegisterEffect, _Mix_RegisterEffect_locked, chain_of.
  cbn [Z.eqb MIX_CHANNEL_POST Pos.eqb]. rewrite bind_run. cbn [ret].
  unfold _Mix_register_effect, read_chain, write_chain, gets.
  destruct (f =? NULL) eqn:E; [ apply Z.eqb_eq in E; contradiction | ].
  cbn [negb]. rewrite !bind_run. now rewrite append_effect_app.
Qed.

(** C9. On a channel or on the post stage, after e1 and then e2 (each a
    transform with a release callback) are registered, their nodes being
    allocated, unregister_all calls the release callbacks of the chain in
    registration order, e1's and then e2's once each (after those of effects
    that were registered before them), leaves the chain empty and returns
    success; a second unregister_all on the empty chain succeeds, calls
    nothing and changes nothing. *)
Theorem unregister_all_after_two_registers
    (m : Mixer) (channel : Z) (es : list effect_info) (f1 d1 a1 f2 d2 a2 : Z) :
  wf_registry m ->
  channel = MIX_CHANNEL_POST \/ 0 <= channel < num_channels m ->
  effects_of m channel = Some es ->
  f1 <> NULL -> f2 <> NULL -> d1 <> NULL -> d2 <> NULL ->
  exists m2 m3,
    (_ <- Mix_RegisterEffect true channel f1 d1 a1 ;;
     Mix_RegisterEffect true channel f2 d2 a2) m = Ok (true, m2) /\
    effects_of m2 channel = Some (es ++ [mkEffect f1 d1 a1; mkEffect f2 d2 a2]) /\
    log m2 = log m /\
    Mix_UnregisterAllEffects channel m2 = Ok (true, m3) /\
    log m3 = log m ++ release_events channel es
                   ++ [EffectDone d1 channel a1; EffectDone d2 channel a2] /\
    effects_of m3 channel = Some [] /\
    Mix_UnregisterAllEffects channel m3 = Ok (true, m3).
Proof.
  intros Hwf Hch Hes Hf1 Hf2 Hd1 Hd2.
  assert (Hrel : release_events channel [mkEffect f1 d1 a1; mkEffect f2 d2 a2]
                 = [EffectDone d1 channel a1; EffectDone d2 channel a2]).
  { unfold release_events. rewrite !filter_cons, filter_nil. cbn [done_callback].
    destruct (decide (d1 <> NULL)); [ | contradiction ].
    destruct (decide (d2 <> NULL)); [ | contradiction ]. reflexivity. }
  destruct Hch as [-> | Hch].
  - cbn in Hes. injection Hes as <-.
    eexists _, _. rewrite bind_run, RegisterEffect_post by assumption.
    rewrite RegisterEffect_post by assumption.
    split; [ reflexivity | ].
    split; [ cbn; now rewrite <- app_assoc | ].
    split; [ reflexivity | ].
    rewrite UnregisterAllEffects_post. split; [ reflexivity | ].
    split; [ cbn -[release_events]; rewrite <- app_assoc; cbn [app];
             now rewrite release_events_app, Hrel | ].
    split; [ reflexivity | ].
    rewrite UnregisterAllEffects_post. cbn. rewrite app_nil_r. reflexivity.
  - pose proof (wf_valid_index m channel Hwf Hch) as Hv.
    destruct (valid_index_lookup m channel Hv) as [c Hc].
    assert (Hn : channel < num_channels m) by lia.
    unfold effects_of, MIX_CHANNEL_POST in Hes.
    destruct (channel =? -2) eqn:E; [ lia | ].
    destruct (0 <=? channel) eqn:E0; [ | lia ].
    rewrite Hc in Hes. cbn in Hes. injection Hes as <-.
    assert (Heff : forall x l, effects_of (st m channel x l) channel = Some (effects x)).
    { intros. unfold effects_of, MIX_CHANNEL_POST. rewrite E, E0.
      now rewrite st_lookup. }
    eexists _, _. rewrite <- (st_start m channel c Hc) at 1.
    rewrite bind_run, RegisterEffect_st by assumption.
    rewrite RegisterEffect_st by assumption.
    split; [ reflexivity | ].
    split; [ rewrite Heff; cbn; now rewrite <- app_assoc | ].
    split; [ reflexivity | ].
    rewrite UnregisterAllEffects_st by assumption. split; [ reflexivity | ].
    split; [ cbn -[release_events]; rewrite <- app_assoc; cbn [app];
             now rewrite release_events_app, Hrel | ].
    split; [ now rewrite Heff | ].
    rewrite UnregisterAllEffects_st by assumption. cbn. rewrite app_nil_r.
    unfold st. cbn. reflexivity.
Qed.

Lemma unregister_all_after_two_registers_witness :
  exists m2 m3,
    (_ <- Mix_RegisterEffect true 3 11 12 13 ;;
     Mix_RegisterEffect true 3 21 22 23) (opened_mixer 32784 2 8) = Ok (true, m2) /\
    effects_of m2 3 = Some ([] ++ [mkEffect 11 12 13; mkEffect 21 22 23]) /\
    log m2 = log (opened_mixer 32784 2 8) /\
    Mix_UnregisterAllEffects 3 m2 = Ok (true, m3) /\
    log m3 = log (opened_mixer 32784 2 8) ++ release_events 3 []
                   ++ [EffectDone 12 3 13; EffectDone 22 3 23] /\
    effects_of m3 3 = Some [] /\
    Mix_UnregisterAllEffects 3 m3 = Ok (true, m3).
Proof.
  apply (unregister_all_after_two_registers (opened_mixer 32784 2 8) 3 [] 11 12 13 21 22 23).
  - reflexivity.
  - right. simpl. lia.
  - reflexivity.
  - unfold NULL. lia.
  - unfold NULL. lia.
  - unfold NULL. lia.
  - unfold NULL. lia.
Defined.

(** ** Fading out *)

Lemma Mix_Playing_st m0 i c l :
  valid_index m0 i -> i < num_channels m0 ->
  Mix_Playing i (st m0 i c l) = Ok (if is_playing c then 1 else 0, st m0 i c l).
Proof.
  intros Hv Hn. unfold Mix_Playing, gets. rewrite bind_run.
  cbn [num_channels st set_log set_mix_channel].
  destruct (i =? -1) eqn:E; [ destruct Hv; lia | ].
  destruct (i <? num_channels m0) eqn:E'; [ | lia ].
  now rewrite bind_run, load_st.
Qed.

(** The channel after an accepted fade-out request at tick [sdl_ticks]. *)
Definition fade_out_started (sdl_ticks ms : Z) (c : Mix_Channel) : Mix_Channel :=
  set_fading MIX_FADING_OUT
    ((if fading_eqb (fading c) MIX_NO_FADING
      then set_fade_volume_reset (volume c) else fun x => x)
       (set_ticks_fade sdl_ticks (set_fade_length (u64 ms) (set_fade_volume (volume c) c)))).

Definition fade_out_accepted (c : Mix_Channel) : bool :=
  is_playing c && (0 <? volume c) && negb (fading_eqb (fading c) MIX_FADING_OUT).

Lemma Mix_FadeOutChannel_channel_st m0 i c l sdl_ticks ms :
  valid_index m0 i -> i < num_channels m0 -> audio_opened m0 <> 0 ->
  Mix_FadeOutChannel_channel sdl_ticks i ms (st m0 i c l)
  = if fade_out_accepted c
    then Ok (1, st m0 i (fade_out_started sdl_ticks ms c) l)
    else Ok (0, st m0 i c l).
Proof.
  intros Hv Hn Hop. unfold Mix_FadeOutChannel_channel, gets. rewrite !bind_run.
  cbn [audio_opened num_channels st set_log set_mix_channel].
  destruct (audio_opened m0 =? 0) eqn:E; [ lia | ].
  destruct (i <? num_channels m0) eqn:E'; [ | lia ].
  cbn [negb andb].
  change (set_log l (set_mix_channel (<[Z.to_nat i:=c]> (mix_channel m0)) m0))
    with (st m0 i c l).
  rewrite bind_run, Mix_Playing_st, bind_run, load_st by assumption.
  unfold fade_out_accepted.
  destruct (is_playing c); cbn [Z.eqb negb andb]; [ | reflexivity ].
  destruct (0 <? volume c); cbn [andb]; [ | reflexivity ].
  destruct (fading c) eqn:Ef; cbn [fading_eqb negb]; try reflexivity;
    mrun; unfold fade_out_started; rewrite Ef; reflexivity.
Qed.

Lemma Mix_FadeOutChannel_run m which c sdl_ticks ms :
  wf_registry m -> audio_opened m <> 0 -> 0 <= which < num_channels m ->
  mix_channel m !! Z.to_nat which = Some c ->
  Mix_FadeOutChannel sdl_ticks which ms m
  = if fade_out_accepted c
    then Ok (1, st m which (fade_out_started sdl_ticks ms c) (log m))
    else Ok (0, m).
Proof.
  intros Hwf Hop Hi Hc. unfold Mix_FadeOutChannel, gets. rewrite bind_run.
  destruct (which =? -1) eqn:E; [ lia | ]. rewrite andb_false_r.
  rewrite <- (st_start m which c Hc) at 1.
  rewrite Mix_FadeOutChannel_channel_st by (auto using wf_valid_index; lia).
  destruct (fade_out_accepted c); [ reflexivity | now rewrite st_start ].
Qed.

(** C4 as the specification states it: a fade-out request on a playing
    channel of positive volume that is fading, in either direction, is
    accepted and restarts the ramp. *)
Definition fade_out_restarts_any_fade : Prop :=
  forall (m : Mixer) (which ms sdl_ticks : Z) (c : Mix_Channel),
    wf_registry m -> audio_opened m <> 0 -> 0 <= which < num_channels m ->
    mix_channel m !! Z.to_nat which = Some c ->
    is_playing c = true -> 0 < volume c -> fading c <> MIX_NO_FADING ->
    exists m' c',
      Mix_FadeOutChannel sdl_ticks which ms m = Ok (1, m') /\
      mix_channel m' !! Z.to_nat which = Some c' /\
      fading c' = MIX_FADING_OUT /\
      fade_volume c' = volume c /\
      ticks_fade c' = sdl_ticks.

(** A mixer with one chunk of 8 bytes playing on channel 0, whose fade-out
    over 100 ms was requested at tick 10. *)
Definition fading_out_mixer : Mixer :=
  default (opened_mixer 32784 2 8)
    (exec (_ <- Mix_PlayChannelTimed 5 0 1000 0 (-1) ;; Mix_FadeOutChannel 10 0 100)
          (new_chunk 1000 (mkChunk 0 5000 8 MIX_MAX_VOLUME) (opened_mixer 32784 2 8))).

Definition fading_out_channel : Mix_Channel :=
  mkChannel 1000 8 0 0 128 0 (-1) 0 5 MIX_FADING_OUT 128 128 100 10 [].

(** Closed side conditions on concrete mixers. *)
Ltac closed := vm_compute; first [ reflexivity | lia | intuition congruence ].

(** C4, counterexample: channel 0 of [fading_out_mixer] is playing at volume
    128 and fading out; a second fade-out request at tick 20 is not counted
    and leaves the ramp where it was. *)
Lemma fade_out_on_fading_out_refused : ~ fade_out_restarts_any_fade.
Proof.
  intros H.
  destruct (H fading_out_mixer 0 100 20 fading_out_channel)
    as (m' & c' & Hrun & _).
  - closed.
  - closed.
  - closed.
  - closed.
  - closed.
  - closed.
  - closed.
  - vm_compute in Hrun. discriminate Hrun.
Qed.

(** C4, amended.  A fade-out request on a channel that is playing with
    positive volume and is fading in (or not fading) is accepted: it is
    counted, the fade state becomes fading-out and the ramp starts from the
    current volume at the current tick (the volume to restore is only
    recorded when no fade was in progress).  On a channel that is already
    fading out, and on a channel that is not playing, the request is counted
    as zero and changes nothing. *)
Theorem fade_out_request (m : Mixer) (which ms sdl_ticks : Z) (c : Mix_Channel) :
  wf_registry m -> audio_opened m <> 0 -> 0 <= which < num_channels m ->
  mix_channel m !! Z.to_nat which = Some c ->
  (is_playing c = true -> 0 < volume c -> fading c <> MIX_FADING_OUT ->
   exists c',
     Mix_FadeOutChannel sdl_ticks which ms m = Ok (1, st m which c' (log m)) /\
     fading c' = MIX_FADING_OUT /\
     fade_volume c' = volume c /\
     fade_length c' = u64 ms /\
     ticks_fade c' = sdl_ticks /\
     fade_volume_reset c' = (if fading_eqb (fading c) MIX_NO_FADING
                             then volume c else fade_volume_reset c) /\
     volume c' = volume c /\ playing c' = playing c /\ looping c' = looping c) /\
  (fading c = MIX_FADING_OUT -> Mix_FadeOutChannel sdl_ticks which ms m = Ok (0, m)) /\
  (is_playing c = false -> Mix_FadeOutChannel sdl_ticks which ms m = Ok (0, m)).
Proof.
  intros Hwf Hop Hi Hc.
  rewrite (Mix_FadeOutChannel_run m which c) by assumption.
  unfold fade_out_accepted. repeat split.
  - intros Hp Hvol Hf. exists (fade_out_started sdl_ticks ms c).
    rewrite Hp. destruct (0 <? volume c) eqn:E; [ | lia ].
    destruct (fading c) eqn:Ef; try contradiction; cbn [fading_eqb negb andb];
      unfold fade_out_started; rewrite Ef; cbn; repeat split; reflexivity.
  - intros ->. cbn [fading_eqb negb]. now rewrite andb_false_r.
  - intros ->. reflexivity.
Qed.

(** Channel 0 right after [Mix_PlayChannelTimed] at tick 5. *)
Definition playing_mixer : Mixer :=
  default (opened_mixer 32784 2 8)
    (exec (Mix_PlayChannelTimed 5 0 1000 0 (-1))
          (new_chunk 1000 (mkChunk 0 5000 8 MIX_MAX_VOLUME) (opened_mixer 32784 2 8))).

Definition playing_channel : Mix_Channel :=
  mkChannel 1000 8 0 0 128 0 (-1) 0 5 MIX_NO_FADING 128 128 0 0 [].

Lemma fade_out_request_witness :
  (is_playing playing_channel = true -> 0 < volume playing_channel ->
   fading playing_channel <> MIX_FADING_OUT ->
   exists c',
     Mix_FadeOutChannel 20 0 100 playing_mixer
     = Ok (1, st playing_mixer 0 c' (log playing_mixer)) /\
     fading c' = MIX_FADING_OUT /\
     fade_volume c' = volume playing_channel /\
     fade_length c' = u64 100 /\
     ticks_fade c' = 20 /\
     fade_volume_reset c' = (if fading_eqb (fading playing_channel) MIX_NO_FADING
                             then volume playing_channel
                             else fade_volume_reset playing_channel) /\
     volume c' = volume playing_channel /\ playing c' = playing playing_channel /\
     looping c' = looping playing_channel) /\
  (fading playing_channel = MIX_FADING_OUT ->
   Mix_FadeOutChannel 20 0 100 playing_mixer = Ok (0, playing_mixer)) /\
  (is_playing playing_channel = false ->
   Mix_FadeOutChannel 20 0 100 playing_mixer = Ok (0, playing_mixer)).
Proof.
  apply (fade_out_request playing_mixer 0 100 20 playing_channel).
  - closed.
  - closed.
  - closed.
  - closed.
Defined.

(** ** Oldest and newest channel of a group *)

(** A loop that only reads the mixer: invariant rule. *)
Lemma for_loop_readonly {A} (m : Mixer) (body : Z -> A -> M A) (I : Z -> A -> Prop) :
  forall (n : nat) (i : Z) (acc : A),
    I i acc ->
    (forall k a, i <= k < i + Z.of_nat n -> I k a ->
                 exists a', body k a m = Ok (a', m) /\ I (k + 1) a') ->
    exists a', for_loop n i body acc m = Ok (a', m) /\ I (i + Z.of_nat n) a'.
Proof.
  induction n as [|n IH]; intros i acc Hacc Hbody.
  - exists acc. split; [ reflexivity | ]. now replace (i + Z.of_nat 0) with i by lia.
  - destruct (Hbody i acc) as (a1 & Hrun & Ha1); [ lia | assumption | ].
    destruct (IH (i + 1) a1 Ha1) as (a' & Hloop & Ha').
    { intros k a Hk. apply Hbody. lia. }
    exists a'. split.
    + cbn [for_loop]. now rewrite (bind_ok _ _ _ _ _ Hrun).
    + now replace (i + Z.of_nat (S n)) with (i + 1 + Z.of_nat n) by lia.
Qed.

(** Channel [c] is playing and belongs to group [tag_] (every channel
    belongs to group -1). *)
Definition active_in_group (tag_ : Z) (c : Mix_Channel) : bool :=
  ((tag c =? tag_) || (tag_ =? -1)) && is_playing c.

Lemma Mix_Playing_channel m i c :
  wf_registry m -> 0 <= i < num_channels m ->
  mix_channel m !! Z.to_nat i = Some c ->
  Mix_Playing i m = Ok (if is_playing c then 1 else 0, m).
Proof.
  intros Hwf Hi Hc. rewrite <- (st_start m i c Hc) at 1.
  rewrite Mix_Playing_st by (auto using wf_valid_index; lia).
  now rewrite st_start.
Qed.

Lemma oldest_step_run m tag_ k acc c :
  wf_registry m -> 0 <= k < num_channels m ->
  mix_channel m !! Z.to_nat k = Some c ->
  oldest_step tag_ k acc m
  = Ok (if active_in_group tag_ c && (start_time c <=? snd acc)
        then (k, start_time c) else acc, m).
Proof.
  intros Hwf Hk Hc. unfold oldest_step.
  rewrite bind_run, (load_ok m k c) by (assumption || lia).
  rewrite bind_run, (Mix_Playing_channel m k c) by assumption.
  unfold active_in_group.
  destruct (is_playing c); cbn [Z.eqb negb].
  - now destruct (_ && _ && _).
  - now rewrite !andb_false_r.
Qed.

Lemma newer_step_run m tag_ k acc c :
  wf_registry m -> 0 <= k < num_channels m ->
  mix_channel m !! Z.to_nat k = Some c ->
  newer_step tag_ k acc m
  = Ok (if active_in_group tag_ c && (snd acc <=? start_time c)
        then (k, start_time c) else acc, m).
Proof.
  intros Hwf Hk Hc. unfold newer_step.
  rewrite bind_run, (load_ok m k c) by (assumption || lia).
  rewrite bind_run, (Mix_Playing_channel m k c) by assumption.
  unfold active_in_group.
  destruct (is_playing c); cbn [Z.eqb negb].
  - now destruct (_ && _ && _).
  - now rewrite !andb_false_r.
Qed.

(** What the scans return, over the first [k] channels.  [before] orders the
    start times: [Z.le] for the oldest channel, [Z.ge] for the newest.  The
    channel found is extremal among the active channels of the group, and
    every active channel of the group after it is strictly on the other side:
    among channels with the extremal start time it is the last one. *)
Definition scan_result (m : Mixer) (tag_ : Z) (before : Z -> Z -> Prop)
    (k : Z) (r : Z) : Prop :=
  (r = -1 /\
   forall j c, Z.of_nat j < k -> mix_channel m !! j = Some c ->
               active_in_group tag_ c = false) \/
  (exists c,
     0 <= r < k /\ mix_channel m !! Z.to_nat r = Some c /\
     active_in_group tag_ c = true /\
     forall j c', Z.of_nat j < k -> mix_channel m !! j = Some c' ->
                  active_in_group tag_ c' = true ->
                  before (start_time c) (start_time c') /\
                  (r < Z.of_nat j -> start_time c <> start_time c')).

Section Scan.
Variable m : Mixer.
Variable tag_ : Z.
Variable t0 : Z.
(** [cmp a b]: a channel started at [a] replaces a candidate started at [b]. *)
Variable cmp : Z -> Z -> bool.
Hypothesis cmp_trans : forall a b c, cmp a b = true -> cmp b c = true -> cmp a c = true.
Hypothesis cmp_total : forall a b, cmp a b = false -> cmp b a = true /\ b <> a.
Hypothesis cmp_refl : forall a, cmp a a = true.
Hypothesis cmp_t0 :
  forall j c, mix_channel m !! j = Some c -> active_in_group tag_ c = true ->
              cmp (start_time c) t0 = true.

Definition scan_step (k : Z) (acc : Z * Z) (c : Mix_Channel) : Z * Z :=
  if active_in_group tag_ c && cmp (start_time c) (snd acc)
  then (k, start_time c) else acc.

Definition scan_inv (k : Z) (acc : Z * Z) : Prop :=
  scan_result m tag_ (fun a b => cmp a b = true) k (fst acc) /\
  (fst acc = -1 -> snd acc = t0) /\
  (forall c, 0 <= fst acc -> mix_channel m !! Z.to_nat (fst acc) = Some c ->
             snd acc = start_time c).

Lemma scan_inv_start : scan_inv 0 (-1, t0).
Proof.
  split; [ | split ].
  - left. split; [ reflexivity | ]. intros j c Hj. lia.
  - reflexivity.
  - cbn. intros. lia.
Qed.

Lemma scan_inv_step k acc ck :
  0 <= k -> mix_channel m !! Z.to_nat k = Some ck ->
  scan_inv k acc -> scan_inv (k + 1) (scan_step k acc ck).
Proof.
  intros Hk Hck (Hres & Hnone & Hsome). unfold scan_step.
  assert (Hlast : forall j c', Z.of_nat j < k + 1 -> ~ Z.of_nat j < k ->
                               mix_channel m !! j = Some c' -> c' = ck).
  { intros j c' H1 H2 Hj. replace j with (Z.to_nat k) in Hj by lia. congruence. }
  destruct (active_in_group tag_ ck) eqn:Hact; cbn [andb].
  - destruct (cmp (start_time ck) (snd acc)) eqn:Hcmp.
    + (* channel k replaces the candidate *)
      split; [ | split ]; cbn [fst snd].
      * right. exists ck.
        split; [ lia | ]. split; [ assumption | ]. split; [ assumption | ].
        intros j c' Hj Hc' Hact'. split; [ | lia ].
        destruct (Z_lt_dec (Z.of_nat j) k) as [Hlt|Hge].
        -- destruct Hres as [[Hm1 Hnoact] | (c & Hr & Hc & Hcact & Hall)].
           ++ rewrite (Hnoact j c' Hlt Hc') in Hact'. discriminate.
           ++ apply cmp_trans with (start_time c).
              ** rewrite <- (Hsome c) by (assumption || lia). assumption.
              ** apply (Hall j c' Hlt Hc' Hact').
        -- rewrite (Hlast j c' Hj Hge Hc'). apply cmp_refl.
      * lia.
      * intros c _ Hc. congruence.
    + (* channel k is active but does not replace the candidate *)
      destruct Hres as [[Hm1 Hnoact] | (c & Hr & Hc & Hcact & Hall)].
      * rewrite (Hnone Hm1), (cmp_t0 _ _ Hck Hact) in Hcmp. discriminate.
      * rewrite (Hsome c) in Hcmp by (assumption || lia).
        split; [ | split ]; try assumption.
        right. exists c.
        split; [ lia | ]. split; [ assumption | ]. split; [ assumption | ].
        intros j c' Hj Hc' Hact'.
        destruct (Z_lt_dec (Z.of_nat j) k) as [Hlt|Hge].
        -- apply (Hall j c' Hlt Hc' Hact').
        -- rewrite (Hlast j c' Hj Hge Hc').
           destruct (cmp_total _ _ Hcmp). split; [ assumption | auto ].
  - (* channel k is not an active member of the group *)
    split; [ | split ]; try assumption.
    destruct Hres as [[Hm1 Hnoact] | (c & Hr & Hc & Hcact & Hall)].
    + left. split; [ assumption | ]. intros j c' Hj Hc'.
      destruct (Z_lt_dec (Z.of_nat j) k) as [Hlt|Hge].
      * now apply (Hnoact j).
      * now rewrite (Hlast j c' Hj Hge Hc').
    + right. exists c.
      split; [ lia | ]. split; [ assumption | ]. split; [ assumption | ].
      intros j c' Hj Hc' Hact'.
      destruct (Z_lt_dec (Z.of_nat j) k) as [Hlt|Hge].
      * apply (Hall j c' Hlt Hc' Hact').
      * rewrite (Hlast j c' Hj Hge Hc') in Hact'. congruence.
Qed.

Lemma scan_loop (body : Z -> Z * Z -> M (Z * Z)) :
  wf_registry m ->
  (forall k acc c, 0 <= k < num_channels m ->
                   mix_channel m !! Z.to_nat k = Some c ->
                   body k acc m = Ok (scan_step k acc c, m)) ->
  exists r, (acc <- For 0 (num_channels m) body (-1, t0) ;; ret (fst acc)) m = Ok (r, m) /\
            scan_result m tag_ (fun a b => cmp a b = true) (num_channels m) r.
Proof.
  intros Hwf Hbody.
  destruct (for_loop_readonly m body scan_inv
              (Z.to_nat (num_channels m - 0)) 0 (-1, t0) scan_inv_start)
    as (acc & Hrun & Hinv).
  - intros k a Hk Hinv.
    assert (Hk' : 0 <= k < num_channels m) by lia.
    destruct (valid_index_lookup m k (wf_valid_index m k Hwf Hk')) as [c Hc].
    exists (scan_step k a c). split; [ now apply Hbody | ].
    apply scan_inv_step; [ lia | assumption | assumption ].
  - exists (fst acc). unfold For. rewrite (bind_ok _ _ _ _ _ Hrun).
    split; [ reflexivity | ].
    destruct Hinv as [Hres _].
    assert (0 <= num_channels m) by (rewrite Hwf; lia).
    now replace (0 + Z.of_nat (Z.to_nat (num_channels m - 0)))
      with (num_channels m) in Hres by lia.
Qed.
End Scan.

Lemma scan_result_weaken m tag_ (P Q : Z -> Z -> Prop) k r :
  (forall a b, P a b -> Q a b) -> scan_result m tag_ P k r -> scan_result m tag_ Q k r.
Proof.
  intros HPQ [H | (c & Hr & Hc & Hact & Hall)]; [ now left | right ].
  exists c. repeat (split; [ assumption | ]).
  intros j c' Hj Hc' Hact'. destruct (Hall j c' Hj Hc' Hact'). auto.
Qed.

(** C5 as the specification states its tie-break: among the active channels
    of the group that share the start time of the result of group_oldest, the
    result is the lowest index. *)
Definition group_oldest_ties_to_lowest : Prop :=
  forall (m : Mixer) (sdl_ticks tag_ r : Z) (j : nat) (cr c : Mix_Channel),
    wf_registry m ->
    Mix_GroupOldest sdl_ticks tag_ m = Ok (r, m) ->
    mix_channel m !! Z.to_nat r = Some cr ->
    mix_channel m !! j = Some c ->
    active_in_group tag_ c = true ->
    start_time c = start_time cr ->
    r <= Z.of_nat j.

(** Channels 0 and 1 both started at tick 5. *)
Definition two_started_together : Mixer :=
  default (opened_mixer 32784 2 8)
    (exec (_ <- Mix_PlayChannelTimed 5 0 1000 0 (-1) ;; Mix_PlayChannelTimed 5 1 1000 0 (-1))
          (new_chunk 1000 (mkChunk 0 5000 8 MIX_MAX_VOLUME) (opened_mixer 32784 2 8))).

(** C5, counterexample: with channels 0 and 1 started at the same tick,
    Mix_GroupOldest returns channel 1, not the lowest index 0. *)
Lemma group_oldest_tie_is_not_lowest : ~ group_oldest_ties_to_lowest.
Proof.
  intros H.
  assert (Hle : 1 <= Z.of_nat 0).
  { apply (H two_started_together 9 (-1) 1 0%nat playing_channel playing_channel).
    - closed.
    - closed.
    - closed.
    - closed.
    - closed.
    - closed. }
  lia.
Qed.

(** C5, amended.  When the start times of the active channels of the group
    are ticks of the clock not after the current one, Mix_GroupOldest
    returns an active channel of the group with the minimum start time and
    Mix_GroupNewer one with the maximum start time; when several share that
    start time, each returns the highest such channel index; when no active
    channel is in the group, both return -1.  Neither changes the mixer. *)
Theorem group_oldest_newest (m : Mixer) (sdl_ticks tag_ : Z) :
  wf_registry m ->
  (forall j c, mix_channel m !! j = Some c -> active_in_group tag_ c = true ->
               0 <= start_time c <= sdl_ticks) ->
  exists o n,
    Mix_GroupOldest sdl_ticks tag_ m = Ok (o, m) /\
    Mix_GroupNewer tag_ m = Ok (n, m) /\
    scan_result m tag_ Z.le (num_channels m) o /\
    scan_result m tag_ Z.ge (num_channels m) n.
Proof.
  intros Hwf Htimes.
  destruct (scan_loop m tag_ sdl_ticks (fun a b => a <=? b)) with (body := oldest_step tag_)
    as (o & Ho & Hores); try assumption.
  { intros a b c H1 H2. apply Z.leb_le in H1, H2. apply Z.leb_le. lia. }
  { intros a b H. apply Z.leb_gt in H. split; [ apply Z.leb_le | ]; lia. }
  { intros a. apply Z.leb_refl. }
  { intros j c Hc Hact. apply Z.leb_le. apply (Htimes j c Hc Hact). }
  { intros k acc c Hk Hc. now apply oldest_step_run. }
  destruct (scan_loop m tag_ 0 (fun a b => b <=? a)) with (body := newer_step tag_)
    as (n & Hn & Hnres); try assumption.
  { intros a b c H1 H2. apply Z.leb_le in H1, H2. apply Z.leb_le. lia. }
  { intros a b H. apply Z.leb_gt in H. split; [ apply Z.leb_le | ]; lia. }
  { intros a. apply Z.leb_refl. }
  { intros j c Hc Hact. apply Z.leb_le. apply (Htimes j c Hc Hact). }
  { intros k acc c Hk Hc. now apply newer_step_run. }
  exists o, n. split; [ | split; [ | split ] ].
  - unfold Mix_GroupOldest, gets. rewrite bind_run. exact Ho.
  - unfold Mix_GroupNewer, gets. rewrite bind_run. exact Hn.
  - apply (scan_result_weaken _ _ _ _ _ _ (fun a b => proj1 (Z.leb_le a b)) Hores).
  - refine (scan_result_weaken _ _ _ _ _ _ _ Hnres).
    intros a b H. apply Z.leb_le in H. lia.
Qed.

Lemma group_oldest_newest_witness :
  exists o n,
    Mix_GroupOldest 9 (-1) two_started_together = Ok (o, two_started_together) /\
    Mix_GroupNewer (-1) two_started_together = Ok (n, two_started_together) /\
    scan_result two_started_together (-1) Z.le (num_channels two_started_together) o /\
    scan_result two_started_together (-1) Z.ge (num_channels two_started_together) n.
Proof.
  apply (group_oldest_newest two_started_together 9 (-1)).
  - closed.
  - intros j c Hc Hact.
    do 8 (destruct j as [|j]; [ injection Hc as <-; closed | ]).
    discriminate Hc.
Defined.

(** ** Automatic channel assignment *)

(** Eight channels with the first five reserved, then shrunk to three
    channels: [Mix_AllocateChannels] leaves [reserved_channels] at 5. *)
Definition reserved_beyond_end : Mixer :=
  default (opened_mixer 32784 2 8)
    (exec (_ <- Mix_ReserveChannels 5 ;;
           Mix_AllocateChannels true (fun _ => idle_channel) 3)
          (new_chunk 1000 (mkChunk 0 5000 8 MIX_MAX_VOLUME) (opened_mixer 32784 2 8))).

(** C3. With three channels and [reserved_channels = 5] (eight channels,
    five reserved, then three allocated), no channel is free for automatic
    assignment, yet Mix_PlayChannelTimed with channel -1 returns 5, an index
    that is no channel, instead of -1, and sets no error; nothing is bound.
    The scan starts at index 5, beyond [num_channels], and the test for
    "none found" is [i == num_channels]. *)
Theorem play_auto_with_reserved_beyond_end :
  num_channels reserved_beyond_end = 3 /\
  reserved_channels reserved_beyond_end = 5 /\
  wf_registry reserved_beyond_end /\
  Mix_PlayChannelTimed 7 (-1) 1000 0 (-1) reserved_beyond_end
  = Ok (5, reserved_beyond_end).
Proof.
  split; [ reflexivity | ]. split; [ reflexivity | ]. split; [ reflexivity | ].
  vm_compute. reflexivity.
Qed.

(** The scenario of the specification: eight idle channels, two reserved. *)
Example play_auto_eight_channels_two_reserved :
  value (_ <- Mix_ReserveChannels 2 ;; Mix_PlayChannelTimed 7 (-1) 1000 0 (-1))
        (new_chunk 1000 (mkChunk 0 5000 8 MIX_MAX_VOLUME) (opened_mixer 32784 2 8))
  = Some 2.
Proof. vm_compute. reflexivity. Qed.

(** ** Frame alignment of chunks *)

(** The frame width [checkchunkintegral] computes. *)
Definition frame_width (m : Mixer) : Z :=
  (if Z.land (mixer_format m) 255 =? 16 then 2 else 1) * mixer_channels m.

(** SDL's macro [SDL_AUDIO_BITSIZE]: the low byte of a sample format is the
    size of a sample in bits (mixer.c prints [fmt->format & 0xFF] as the bit
    size of the device format). *)
Definition SDL_AUDIO_BITSIZE (fmt : Z) : Z := Z.land fmt 255.

(** The size of a frame, sample width times channel count, as
    [Mix_LoadMusic_IO] computes it:
    [(SDL_AUDIO_BITSIZE(spec->format) / 8) * spec->channels]. *)
Definition frame_size (fmt nch : Z) : Z := (SDL_AUDIO_BITSIZE fmt / 8) * nch.

Definition with_alen (v : Z) (ch : Mix_Chunk) : Mix_Chunk :=
  mkChunk (allocated ch) (abuf ch) v (cvolume ch).

Lemma mod_pred (a w : Z) : 0 < w -> a mod w <> 0 -> (a - 1) mod w = a mod w - 1.
Proof.
  intros Hw Hne. pose proof (Z.mod_pos_bound a w Hw) as Hb.
  symmetry. apply Z.mod_unique with (q := a / w); [ lia | ].
  pose proof (Z.div_mod a w). lia.
Qed.

Lemma set_heap_same m : set_heap (heap m) m = m.
Proof. now destruct m. Qed.

Lemma trim_loop_run p w :
  0 < w < 2 ^ 32 ->
  forall fuel m ch,
    heap m !! p = Some ch -> 0 <= alen ch < 2 ^ 32 ->
    (Z.to_nat (alen ch mod w) < fuel)%nat ->
    trim_loop fuel p w m
    = Ok (tt, set_heap (<[p := with_alen (alen ch - alen ch mod w) ch]> (heap m)) m).
Proof.
  intros Hw. assert (Hu : u32 w = w) by (unfold u32; apply Z.mod_small; lia).
  induction fuel as [|fuel IH]; intros m ch Hch Hlen Hfuel; [ lia | ].
  cbn [trim_loop]. unfold deref at 1. rewrite bind_run, Hch, Hu.
  destruct (w =? 0) eqn:E0; [ lia | ].
  pose proof (Z.mod_pos_bound (alen ch) w ltac:(lia)) as Hb.
  destruct (alen ch mod w =? 0) eqn:E; cbn [negb].
  - apply Z.eqb_eq in E. rewrite E, Z.sub_0_r.
    replace (with_alen (alen ch) ch) with ch by now destruct ch.
    now rewrite insert_id, set_heap_same.
  - apply Z.eqb_neq in E.
    assert (Hpos : 1 <= alen ch).
    { destruct (Z.eq_dec (alen ch) 0) as [H0|H0]; [ | lia ].
      rewrite H0, Z.mod_0_l in E by lia. contradiction. }
    unfold set_alen, deref at 1, modify. rewrite !bind_run, Hch.
    replace (u32 (alen ch - 1)) with (alen ch - 1)
      by (unfold u32; symmetry; apply Z.mod_small; lia).
    rewrite (IH _ (with_alen (alen ch - 1) ch)).
    + cbn [heap set_heap alen with_alen]. unfold set_heap; cbn.
      rewrite insert_insert_eq, mod_pred by (assumption || lia).
      do 4 f_equal. unfold with_alen; cbn. f_equal. lia.
    + cbn. apply lookup_insert_eq.
    + cbn. lia.
    + cbn [alen with_alen]. rewrite mod_pred by (assumption || lia). lia.
Qed.

(** What [checkchunkintegral] does: the length of the chunk becomes the
    largest multiple of [frame_width] not above it, and is returned. *)
Lemma checkchunkintegral_run m p ch :
  heap m !! p = Some ch -> 0 <= alen ch < 2 ^ 32 -> 0 < frame_width m < 2 ^ 32 ->
  checkchunkintegral p m
  = Ok (to_int (alen ch - alen ch mod frame_width m),
        set_heap (<[p := with_alen (alen ch - alen ch mod frame_width m) ch]> (heap m)) m).
Proof.
  intros Hch Hlen Hw. unfold checkchunkintegral, gets. rewrite !bind_run.
  unfold deref at 1. rewrite Hch.
  fold (frame_width m).
  rewrite bind_run, (trim_loop_run p (frame_width m) Hw _ m ch Hch Hlen).
  - unfold deref. cbn [heap set_heap]. rewrite bind_run. cbn.
    now rewrite lookup_insert_eq.
  - pose proof (Z.mod_pos_bound (alen ch) (frame_width m) ltac:(lia)).
    pose proof (Z.mod_le (alen ch) (frame_width m)). lia.
Qed.

(** For 8-bit and 16-bit sample formats [frame_width] is the frame size. *)
Lemma frame_width_8_16 m :
  SDL_AUDIO_BITSIZE (mixer_format m) = 8 \/ SDL_AUDIO_BITSIZE (mixer_format m) = 16 ->
  frame_width m = frame_size (mixer_format m) (mixer_channels m).
Proof.
  unfold frame_width, frame_size, SDL_AUDIO_BITSIZE. intros [-> | ->]; reflexivity.
Qed.

(** A device of 32-bit float samples ([SDL_AUDIO_F32LE], 0x8120), two
    channels, and a chunk of 10 bytes at address 1000. *)
Definition float_stereo_mixer : Mixer :=
  new_chunk 1000 (mkChunk 0 5000 10 MIX_MAX_VOLUME) (opened_mixer 33056 2 8).

(** C8. On a device of 32-bit samples with two channels a frame is 8 bytes.
    A chunk of 10 bytes is not a whole number of frames, but
    [checkchunkintegral] computes a frame width of 2 (it only knows 16-bit
    samples from the rest) and accepts the length 10 as it is, where
    truncation to whole frames gives 8; playback then reads all 10 bytes,
    two of them past the truncated length. *)
Theorem checkchunkintegral_float32_stereo :
  frame_size (mixer_format float_stereo_mixer) (mixer_channels float_stereo_mixer) = 8 /\
  10 - 10 mod 8 = 8 /\
  frame_width float_stereo_mixer = 2 /\
  checkchunkintegral 1000 float_stereo_mixer = Ok (10, float_stereo_mixer) /\
  value (Mix_PlayChannelTimed 7 0 1000 0 (-1)) float_stereo_mixer = Some 0 /\
  forall malloc_ok,
    (log <$> exec (_ <- Mix_PlayChannelTimed 7 0 1000 0 (-1) ;;
                   mix_channels 0 true malloc_ok 8 16)
                  float_stereo_mixer)
    = Some [MixAudio 0 0 1000 0 10 128].
Proof.
  repeat split; vm_compute; reflexivity.
Qed.

(** ** The end of playback on a channel *)

(** The call of the finished-callback, when one is set. *)
Definition finished_events (m : Mixer) (i : Z) : list event :=
  if channel_done_callback m =? NULL then []
  else [ChannelFinished (channel_done_callback m) i].

Lemma done_playing_st m0 i c l :
  valid_index m0 i ->
  _Mix_channel_done_playing i (st m0 i c l)
  = Ok (tt, st m0 i (set_effects [] c)
               (l ++ finished_events m0 i ++ release_events i (effects c))).
Proof.
  intros Hv. unfold _Mix_channel_done_playing, gets, finished_events.
  rewrite bind_run. cbn [channel_done_callback st set_log set_mix_channel].
  change (set_log l (set_mix_channel (<[Z.to_nat i:=c]> (mix_channel m0)) m0))
    with (st m0 i c l).
  destruct (channel_done_callback m0 =? NULL); mrun;
    rewrite remove_all_effects_st by assumption; cbn [app];
    now rewrite <- ?app_assoc.
Qed.

(** The channel after [Mix_HaltChannel_locked]. *)
Definition halted (c : Mix_Channel) : Mix_Channel :=
  let c1 := if is_playing c
            then set_effects [] (set_looping 0 (set_playing 0 c)) else c in
  let c2 := set_expire 0 c1 in
  let c3 := if fading_eqb (fading c2) MIX_NO_FADING then c2
            else set_volume (fade_volume_reset c2) c2 in
  set_fading MIX_NO_FADING c3.

Definition halt_events (m : Mixer) (i : Z) (c : Mix_Channel) : list event :=
  if is_playing c then finished_events m i ++ release_events i (effects c) else [].

Lemma HaltChannel_locked_st m0 i c l :
  valid_index m0 i -> i < num_channels m0 ->
  Mix_HaltChannel_locked i (st m0 i c l)
  = Ok (tt, st m0 i (halted c) (l ++ halt_events m0 i c)).
Proof.
  intros Hv Hn. unfold Mix_HaltChannel_locked, halted, halt_events.
  rewrite bind_run, Mix_Playing_st by assumption.
  destruct (is_playing c); cbn [Z.eqb negb]; mrun.
  - rewrite done_playing_st by assumption. mrun.
    cbn [fading set_effects set_looping set_playing set_expire effects].
    destruct (fading c); cbn [fading_eqb negb]; mrun; reflexivity.
  - rewrite app_nil_r.
    cbn [fading set_expire].
    destruct (fading c); cbn [fading_eqb negb]; mrun; reflexivity.
Qed.

Lemma HaltChannel_st m0 i c l :
  valid_index m0 i -> i < num_channels m0 ->
  Mix_HaltChannel i (st m0 i c l)
  = Ok (tt, st m0 i (halted c) (l ++ halt_events m0 i c)).
Proof.
  intros Hv Hn. unfold Mix_HaltChannel, gets. rewrite bind_run.
  cbn [num_channels st set_log set_mix_channel].
  destruct (i =? -1) eqn:E; [ destruct Hv; lia | ].
  destruct (i <? num_channels m0) eqn:E'; [ | lia ].
  now apply HaltChannel_locked_st.
Qed.

(** A loop over channel indices: invariant rule. *)
Lemma for_loop_inv {A} (body : Z -> A -> M A) (I : Z -> A -> Mixer -> Prop) :
  forall (n : nat) (i : Z) (acc : A) (m : Mixer),
    I i acc m ->
    (forall k a s, i <= k < i + Z.of_nat n -> I k a s ->
                   exists a' s', body k a s = Ok (a', s') /\ I (k + 1) a' s') ->
    exists a' m', for_loop n i body acc m = Ok (a', m') /\ I (i + Z.of_nat n) a' m'.
Proof.
  induction n as [|n IH]; intros i acc m Hacc Hbody.
  - exists acc, m. split; [ reflexivity | ]. now replace (i + Z.of_nat 0) with i by lia.
  - destruct (Hbody i acc m) as (a1 & m1 & Hrun & H1); [ lia | assumption | ].
    destruct (IH (i + 1) a1 m1 H1) as (a' & m' & Hloop & H').
    { intros k a s Hk. apply Hbody. lia. }
    exists a', m'. split.
    + cbn [for_loop]. now rewrite (bind_ok _ _ _ _ _ Hrun).
    + now replace (i + Z.of_nat (S n)) with (i + 1 + Z.of_nat n) by lia.
Qed.

(** ** A failed reallocation of the channel array *)

Definition allocation_failed : option string := Some "Channel allocation failed"%string.

(** The channel after [Mix_UnregisterAllEffects] and [Mix_HaltChannel]. *)
Definition discarded (c : Mix_Channel) : Mix_Channel := halted (set_effects [] c).

Lemma discarded_inert c :
  is_playing (discarded c) = false /\ effects (discarded c) = [] /\
  fading (discarded c) = MIX_NO_FADING /\ expire (discarded c) = 0 /\
  tag (discarded c) = tag c /\ chunk (discarded c) = chunk c.
Proof.
  unfold discarded, halted.
  cbn [is_playing set_effects playing looping].
  destruct (is_playing (set_effects [] c)) eqn:Hp;
    cbn [set_expire fading set_effects set_looping set_playing];
    destruct (fading c); cbn [fading_eqb]; cbn; repeat split; try reflexivity;
    exact Hp.
Qed.

(** The states of the loop that stops the channels [lo, hi) before a shrink:
    those below [i] are done. *)
Definition stopping (m : Mixer) (lo i : Z) (s : Mixer) : Prop :=
  exists cs l,
    s = set_log l (set_mix_channel cs m) /\
    length cs = length (mix_channel m) /\
    (forall j, Z.of_nat j < lo \/ i <= Z.of_nat j -> cs !! j = mix_channel m !! j) /\
    (forall j c, lo <= Z.of_nat j < i -> mix_channel m !! j = Some c ->
                 cs !! j = Some (discarded c)).

Lemma stop_channels m lo :
  wf_registry m -> 0 <= lo <= num_channels m ->
  exists s,
    For_ lo (num_channels m) (fun i => _ <- Mix_UnregisterAllEffects i ;; Mix_HaltChannel i) m
    = Ok (tt, s) /\
    stopping m lo (num_channels m) s.
Proof.
  intros Hwf Hlo. unfold For_, For.
  destruct (for_loop_inv
              (fun i (_ : unit) => _ <- Mix_UnregisterAllEffects i ;; Mix_HaltChannel i)
              (fun i _ s => stopping m lo i s)
              (Z.to_nat (num_channels m - lo)) lo tt m) as ([] & s & Hrun & Hs).
  - exists (mix_channel m), (log m). repeat split; try reflexivity.
    + now destruct m.
    + intros j c Hj. lia.
  - intros k [] s Hk (cs & l & -> & Hlen & Hout & Hin).
    assert (Hk' : 0 <= k < num_channels m) by lia.
    assert (Hv : valid_index (set_log l (set_mix_channel cs m)) k).
    { unfold valid_index. cbn. rewrite Hlen, <- Hwf. exact Hk'. }
    destruct (valid_index_lookup m k (wf_valid_index m k Hwf Hk')) as [c Hc].
    assert (Hcs : cs !! Z.to_nat k = Some c).
    { rewrite Hout; [ assumption | right; lia ]. }
    exists tt. eexists. split.
    + rewrite <- (st_start (set_log l (set_mix_channel cs m)) k c Hcs).
      rewrite bind_run, UnregisterAllEffects_st by (assumption || (cbn; lia)).
      rewrite HaltChannel_st by (assumption || (cbn; lia)). reflexivity.
    + eexists (<[Z.to_nat k := discarded c]> cs), _.
      split; [ reflexivity | ]. split; [ now rewrite length_insert | ]. split.
      * intros j Hj. rewrite list_lookup_insert_ne by lia. apply Hout. lia.
      * intros j cj Hj Hcj.
        destruct (decide (j = Z.to_nat k)) as [-> | Hne].
        -- rewrite list_lookup_insert_eq by (rewrite Hlen; unfold wf_registry in Hwf; lia).
           congruence.
        -- rewrite list_lookup_insert_ne by lia. apply Hin; [ lia | assumption ].
  - exists s. split; [ exact Hrun | ].
    now replace (lo + Z.of_nat (Z.to_nat (num_channels m - lo)))
      with (num_channels m) in Hs by lia.
Qed.

(** C6 as the specification states it: when the reallocation fails, the
    channel count and every channel are as before the call. *)
Definition failed_allocation_is_noop : Prop :=
  forall (m : Mixer) (junk : Z -> Mix_Channel) (numchans : Z),
    wf_registry m -> 0 < numchans -> numchans <> num_channels m ->
    exists m',
      Mix_AllocateChannels false junk numchans m = Ok (num_channels m, m') /\
      num_channels m' = num_channels m /\
      mix_channel m' = mix_channel m.

(** C6, counterexample: channels 0 and 1 are playing; a shrink to one channel
    whose reallocation fails has already halted channel 1. *)
Lemma failed_shrink_has_halted : ~ failed_allocation_is_noop.
Proof.
  intros H.
  destruct (H two_started_together (fun _ => idle_channel) 1)
    as (m' & Hrun & _ & Hsame).
  - closed.
  - closed.
  - closed.
  - vm_compute in Hrun. injection Hrun as <-.
    vm_compute in Hsame. discriminate Hsame.
Qed.

(** C6, amended.  When Mix_AllocateChannels(n) fails to reallocate the
    channel array, the error is reported, the channel count is unchanged and
    is the return value.  If the call was to grow the array, nothing else
    changes.  If it was to shrink it, the channels from n up were halted and
    their effects released before the reallocation was attempted, and stay
    so: they are not playing, have no effect, no fade and no expiry, and keep
    their tag; the channels below n are exactly as before the call. *)
Theorem failed_allocation (m : Mixer) (junk : Z -> Mix_Channel) (numchans : Z) :
  wf_registry m -> 0 < numchans -> numchans <> num_channels m ->
  exists m',
    Mix_AllocateChannels false junk numchans m = Ok (num_channels m, m') /\
    error m' = allocation_failed /\
    num_channels m' = num_channels m /\
    length (mix_channel m') = length (mix_channel m) /\
    (num_channels m < numchans -> m' = set_error allocation_failed m) /\
    (forall j, Z.of_nat j < numchans -> mix_channel m' !! j = mix_channel m !! j) /\
    (forall j c, numchans <= Z.of_nat j -> mix_channel m !! j = Some c ->
                 mix_channel m' !! j = Some (discarded c) /\
                 is_playing (discarded c) = false /\
                 effects (discarded c) = [] /\
                 fading (discarded c) = MIX_NO_FADING /\
                 expire (discarded c) = 0 /\
                 tag (discarded c) = tag c).
Proof.
  intros Hwf Hpos Hne. unfold Mix_AllocateChannels, gets. rewrite bind_run.
  destruct (numchans <? 0) eqn:E0; [ lia | ].
  destruct (numchans =? num_channels m) eqn:E1; [ lia | ]. cbn [orb].
  destruct (numchans =? 0) eqn:E2; [ lia | ]. cbn [orb].
  destruct (numchans <? num_channels m) eqn:E3; cbn [when].
  - (* shrinking *)
    destruct (stop_channels m numchans Hwf ltac:(lia))
      as (s & Hrun & cs & l & -> & Hlen & Hout & Hin).
    rewrite bind_run, Hrun. cbn.
    eexists. split; [ reflexivity | ]. cbn.
    split; [ reflexivity | ]. split; [ reflexivity | ]. split; [ assumption | ].
    split; [ intros; lia | ]. split.
    + intros j Hj. apply Hout. lia.
    + intros j c Hj Hc.
      assert (Z.of_nat j < num_channels m).
      { apply lookup_lt_Some in Hc. unfold wf_registry in Hwf. lia. }
      split; [ apply Hin; [ lia | assumption ] | ].
      pose proof (discarded_inert c). tauto.
  - (* growing *)
    cbn. eexists. split; [ reflexivity | ]. cbn.
    split; [ reflexivity | ]. split; [ reflexivity | ]. split; [ reflexivity | ].
    split; [ reflexivity | ]. split; [ reflexivity | ].
    intros j c Hj Hc. apply lookup_lt_Some in Hc. unfold wf_registry in Hwf. lia.
Qed.

Lemma failed_allocation_witness :
  exists m',
    Mix_AllocateChannels false (fun _ => idle_channel) 1 two_started_together
    = Ok (num_channels two_started_together, m') /\
    error m' = allocation_failed /\
    num_channels m' = num_channels two_started_together /\
    length (mix_channel m') = length (mix_channel two_started_together) /\
    (num_channels two_started_together < 1 ->
     m' = set_error allocation_failed two_started_together) /\
    (forall j, Z.of_nat j < 1 ->
               mix_channel m' !! j = mix_channel two_started_together !! j) /\
    (forall j c, 1 <= Z.of_nat j -> mix_channel two_started_together !! j = Some c ->
                 mix_channel m' !! j = Some (discarded c) /\
                 is_playing (discarded c) = false /\
                 effects (discarded c) = [] /\
                 fading (discarded c) = MIX_NO_FADING /\
                 expire (discarded c) = 0 /\
                 tag (discarded c) = tag c).
Proof.
  apply (failed_allocation two_started_together (fun _ => idle_channel) 1).
  - closed.
  - closed.
  - closed.
Defined.

(** ** The mixing callback on one channel *)

Definition effect_events (chan len : Z) (e : list effect_info) : list event :=
  map (fun x => EffectRun (callback x) chan len (udata x))
      (filter (fun x => callback x <> NULL) e).

Lemma run_effects_run chan len e m :
  run_effects chan len e m = Ok (tt, set_log (log m ++ effect_events chan len e) m).
Proof.
  revert m. induction e as [|x e IH]; intros m.
  - simpl. unfold ret, effect_events. simpl. rewrite app_nil_r. now destruct m.
  - cbn [run_effects]. rewrite bind_run. unfold when.
    unfold effect_events. rewrite filter_cons.
    destruct (decide (callback x <> NULL)) as [Hd|Hd].
    + destruct (callback x =? NULL) eqn:E; [ lia | ]. cbn [negb].
      unfold emit, modify. rewrite IH. cbn. now rewrite <- app_assoc.
    + destruct (callback x =? NULL) eqn:E; [ | lia ]. cbn [negb].
      unfold ret. now rewrite IH.
Qed.

(** What a [Mix_DoEffects] call for a channel calls. *)
Definition effects_run (malloc_ok : bool) (chan len : Z) (e : list effect_info) :
    list event :=
  if malloc_ok then effect_events chan len e else [].

Lemma DoEffects_st malloc_ok m0 i c l len :
  valid_index m0 i ->
  Mix_DoEffects malloc_ok i len (st m0 i c l)
  = Ok (tt, st m0 i c (l ++ effects_run malloc_ok i len (effects c))).
Proof.
  intros Hv. unfold Mix_DoEffects, MIX_CHANNEL_POST, effects_run.
  destruct (i =? -2) eqn:E; [ destruct Hv; lia | ].
  mrun. destruct (effects c) as [|x e] eqn:He.
  - unfold ret. destruct malloc_ok; cbn; now rewrite app_nil_r.
  - cbn [negb andb]. destruct malloc_ok; cbn [negb].
    + now rewrite run_effects_run.
    + unfold ret. now rewrite app_nil_r.
Qed.

Lemma mixed_volume_st m0 i c l mv ch :
  valid_index m0 i -> heap m0 !! chunk c = Some ch ->
  mixed_volume mv i (st m0 i c l)
  = Ok (Z.quot (mv * (volume c * cvolume ch)) (MIX_MAX_VOLUME * MIX_MAX_VOLUME),
        st m0 i c l).
Proof.
  intros Hv Hch. unfold mixed_volume. mrun.
  now rewrite (deref_st _ _ _ _ _ ch).
Qed.

(** The fields of a channel that rendering leaves alone. *)
Definition settings (c : Mix_Channel) :=
  (chunk c, volume c, paused c, tag c, start_time c,
   fade_volume c, fade_volume_reset c, fade_length c, ticks_fade c).

Section Channel.
(** The mixer around channel [i]: its chunks and its finished-callback. *)
Variable h : gmap Z Mix_Chunk.
Variable cb : Z.
Variable i : Z.

Definition around (m0 : Mixer) : Prop :=
  heap m0 = h /\ channel_done_callback m0 = cb /\
  valid_index m0 i /\ i < num_channels m0.

(** [runs prog c a c' evs]: wherever channel [i] is [c], [prog] returns [a],
    leaves channel [i] as [c'], appends [evs] to the log and changes
    nothing else. *)
Definition runs {A} (prog : M A) (c : Mix_Channel) (a : A)
    (c' : Mix_Channel) (evs : list event) : Prop :=
  forall m0 l, around m0 -> prog (st m0 i c l) = Ok (a, st m0 i c' (l ++ evs)).

Lemma runs_unique {A} (prog : M A) c a1 c1 e1 a2 c2 e2 m0 :
  around m0 -> runs prog c a1 c1 e1 -> runs prog c a2 c2 e2 ->
  a1 = a2 /\ c1 = c2 /\ e1 = e2.
Proof.
  intros Hm H1 H2. specialize (H1 m0 [] Hm). specialize (H2 m0 [] Hm).
  rewrite H1 in H2.
  assert (Ha : a1 = a2) by congruence.
  assert (Hs : st m0 i c1 ([] ++ e1) = st m0 i c2 ([] ++ e2)) by congruence.
  split; [ assumption | ]. destruct Hm as (_ & _ & Hv & _). split.
  - assert (Hl : mix_channel (st m0 i c1 ([] ++ e1)) !! Z.to_nat i
                 = mix_channel (st m0 i c2 ([] ++ e2)) !! Z.to_nat i) by now rewrite Hs.
    rewrite !st_lookup in Hl by assumption. congruence.
  - assert (Hl : log (st m0 i c1 ([] ++ e1)) = log (st m0 i c2 ([] ++ e2)))
      by now rewrite Hs.
    exact Hl.
Qed.
End Channel.

Definition finished (cb i : Z) : list event :=
  if cb =? NULL then [] else [ChannelFinished cb i].

(** The read cursor of a channel lies inside the chunk [ch]. *)
Definition cursor_in (ch : Mix_Chunk) (c : Mix_Channel) : Prop :=
  0 <= samples c /\ 0 <= playing c /\ samples c + playing c <= alen ch.

(** What is mixed is read from inside a chunk. *)
Definition reads_within (h : gmap Z Mix_Chunk) (e : event) : Prop :=
  match e with
  | MixAudio _ _ p off n _ =>
      exists ch, h !! p = Some ch /\ 0 <= off /\ 0 <= n /\ off + n <= alen ch
  | _ => True
  end.

Lemma reads_within_effect_events h chan len e :
  Forall (reads_within h) (effect_events chan len e).
Proof.
  apply List.Forall_forall. intros x Hx. unfold effect_events in Hx.
  apply in_map_iff in Hx. destruct Hx as (y & <- & _). exact I.
Qed.

Lemma reads_within_effects_run h ok chan len e :
  Forall (reads_within h) (effects_run ok chan len e).
Proof.
  unfold effects_run. destruct ok; [ apply reads_within_effect_events | constructor ].
Qed.

Lemma reads_within_release_events h chan e :
  Forall (reads_within h) (release_events chan e).
Proof.
  apply List.Forall_forall. intros x Hx. unfold release_events in Hx.
  apply in_map_iff in Hx. destruct Hx as (y & <- & _). exact I.
Qed.

Lemma reads_within_finished h cb i : Forall (reads_within h) (finished cb i).
Proof.
  unfold finished. destruct (cb =? NULL); repeat constructor.
Qed.

Section Render.
Variable malloc_ok : Z -> Z -> bool.
Variable h : gmap Z Mix_Chunk.
Variable cb : Z.
Variables i len mv : Z.

Local Abbreviation runs := (runs h cb i).

Ltac crun :=
  repeat first
    [ rewrite bind_run
    | rewrite upd_st by assumption
    | rewrite load_st by assumption
    | rewrite emit_st
    | rewrite DoEffects_st by assumption
    | rewrite done_playing_st by assumption
    | progress cbn [ret when negb andb orb fst snd] ].

(** Under [around], the lemmas on [st] apply. *)
Ltac around_run Hm :=
  let Hh := fresh "Hh" in let Hcb := fresh "Hcb" in
  let Hv := fresh "Hv" in let Hn := fresh "Hn" in
  destruct Hm as (Hh & Hcb & Hv & Hn).

(** The first loop of the render step completes, moves the cursor forward
    inside the chunk and reads from inside the chunk. *)
Lemma play_loop_runs :
  forall fuel index vol c ch,
    h !! chunk c = Some ch ->
    (Z.to_nat (len - index) < fuel)%nat ->
    exists r c' evs,
      runs (play_loop malloc_ok fuel i len mv index vol) c r c' evs /\
      settings c' = settings c /\ index <= fst r /\
      (cursor_in ch c -> cursor_in ch c' /\ Forall (reads_within h) evs).
Proof.
  induction fuel as [|fuel IH]; intros index vol c ch Hch Hfuel; [ lia | ].
  destruct ((0 <? playing c) && (index <? len)) eqn:Hcond.
  - apply andb_true_iff in Hcond as Hc. destruct Hc as [Hp Hi].
    apply Z.ltb_lt in Hp, Hi.
    set (mixable := if len - index <? playing c then len - index else playing c).
    assert (Hmix : 1 <= mixable <= playing c).
    { unfold mixable. destruct (len - index <? playing c) eqn:E; lia. }
    set (c1 := set_playing (playing c - mixable) (set_samples (samples c + mixable) c)).
    assert (Hread : cursor_in ch c ->
                    reads_within h (MixAudio i index (chunk c) (samples c) mixable vol)).
    { intros (H0 & H1 & H2). exists ch. repeat split; try assumption; lia. }
    destruct ((playing c1 =? 0) && (looping c1 =? 0)) eqn:Hdone.
    + set (c2 := set_effects [] (set_expire 0 (set_fading MIX_NO_FADING c1))).
      set (vol2 := Z.quot (mv * (volume c2 * cvolume ch)) (MIX_MAX_VOLUME * MIX_MAX_VOLUME)).
      destruct (IH (index + mixable) vol2 c2 ch)
        as (r & c' & evs & Hruns & Hset & Hidx & Hcur); [ exact Hch | lia | ].
      exists r, c',
        (effects_run (malloc_ok i index) i mixable (effects c)
         ++ [MixAudio i index (chunk c) (samples c) mixable vol]
         ++ finished cb i ++ release_events i (effects c) ++ evs).
      split; [ | split; [ exact Hset | split; [ lia | ] ] ].
      * intros m0 l Hm. pose proof Hm as Hm'. around_run Hm'.
        cbn [play_loop]. crun. rewrite Hcond. fold mixable. crun.
        fold c1. rewrite Hdone. crun.
        rewrite (mixed_volume_st _ _ _ _ _ ch) by (assumption || now rewrite Hh).
        crun. fold c2. fold vol2. rewrite (Hruns m0 _ Hm).
        unfold finished_events, finished. rewrite Hcb.
        do 3 f_equal. cbn [effects set_expire set_fading set_playing set_samples c1].
        now rewrite <- !app_assoc.
      * intros Hin. destruct Hcur as [Hc' Hev].
        { destruct Hin as (H0 & H1 & H2). unfold cursor_in. cbn. lia. }
        split; [ exact Hc' | ].
        apply Forall_app. split; [ apply reads_within_effects_run | ].
        constructor; [ now apply Hread | ].
        apply Forall_app. split; [ apply reads_within_finished | ].
        apply Forall_app. split; [ apply reads_within_release_events | exact Hev ].
    + destruct (IH (index + mixable) vol c1 ch)
        as (r & c' & evs & Hruns & Hset & Hidx & Hcur); [ exact Hch | lia | ].
      exists r, c',
        (effects_run (malloc_ok i index) i mixable (effects c)
         ++ [MixAudio i index (chunk c) (samples c) mixable vol] ++ evs).
      split; [ | split; [ exact Hset | split; [ lia | ] ] ].
      * intros m0 l Hm. pose proof Hm as Hm'. around_run Hm'.
        cbn [play_loop]. crun. rewrite Hcond. fold mixable. crun.
        fold c1. rewrite Hdone. crun.
        rewrite (Hruns m0 _ Hm). do 3 f_equal. now rewrite <- !app_assoc.
      * intros Hin. destruct Hcur as [Hc' Hev].
        { destruct Hin as (H0 & H1 & H2). unfold cursor_in. cbn. lia. }
        split; [ exact Hc' | ].
        apply Forall_app. split; [ apply reads_within_effects_run | ].
        constructor; [ now apply Hread | exact Hev ].
  - exists (index, vol), c, [].
    split; [ | split; [ reflexivity | split; [ cbn; lia | ] ] ].
    + intros m0 l Hm. around_run Hm.
      cbn [play_loop]. mrun. rewrite Hcond. now rewrite app_nil_r.
    + intros Hin. split; [ exact Hin | constructor ].
Qed.

(** The second loop completes when the chunk is not empty, and reads from
    inside the chunk. *)
Lemma wrap_loop_runs :
  forall fuel index vol c ch,
    h !! chunk c = Some ch -> 0 < alen ch < 2 ^ 31 ->
    (Z.to_nat (len - index) < fuel)%nat ->
    exists r c' evs,
      runs (wrap_loop malloc_ok fuel i len index vol) c r c' evs /\
      settings c' = settings c /\
      (cursor_in ch c -> cursor_in ch c') /\ Forall (reads_within h) evs.
Proof.
  induction fuel as [|fuel IH]; intros index vol c ch Hch Hlen Hfuel; [ lia | ].
  assert (Hint : to_int (alen ch) = alen ch) by (apply to_int_small; lia).
  destruct (negb (looping c =? 0) && (index <? len)) eqn:Hcond.
  - apply andb_true_iff in Hcond as Hc. destruct Hc as [_ Hi].
    apply Z.ltb_lt in Hi.
    set (remaining := if to_int (alen ch) <? len - index
                      then to_int (alen ch) else len - index).
    assert (Hrem : 1 <= remaining <= alen ch).
    { unfold remaining. rewrite Hint. destruct (alen ch <? len - index) eqn:E; lia. }
    set (c1 := if 0 <? looping c then set_looping (looping c - 1) c else c).
    set (c2 := set_playing (to_int (u32 (alen ch - remaining)))
                           (set_samples remaining c1)).
    destruct (IH (index + remaining) vol c2 ch) as (r & c' & evs & Hruns & Hset & Hcur & Hev).
    { unfold c2, c1. now destruct (0 <? looping c). }
    { exact Hlen. }
    { lia. }
    exists r, c',
      (effects_run (malloc_ok i index) i remaining (effects c)
       ++ [MixAudio i index (chunk c) 0 remaining vol] ++ evs).
    split; [ | split; [ | split ] ].
    + intros m0 l Hm. pose proof Hm as Hm'. around_run Hm'.
      cbn [wrap_loop]. crun. rewrite Hcond.
      rewrite bind_run, (deref_st _ _ _ _ _ ch) by now rewrite Hh.
      fold remaining. crun.
      replace (st m0 i c _) with (st m0 i c (l ++ effects_run (malloc_ok i index) i remaining (effects c)
                                               ++ [MixAudio i index (chunk c) 0 remaining vol]))
        by now rewrite <- !app_assoc.
      assert (Hloop : (when (0 <? looping c) (upd i (set_looping (looping c - 1))))
                        (st m0 i c (l ++ effects_run (malloc_ok i index) i remaining (effects c)
                                      ++ [MixAudio i index (chunk c) 0 remaining vol]))
                      = Ok (tt, st m0 i c1 (l ++ effects_run (malloc_ok i index) i remaining (effects c)
                                              ++ [MixAudio i index (chunk c) 0 remaining vol]))).
      { unfold c1. destruct (0 <? looping c); crun; reflexivity. }
      rewrite Hloop. crun. fold c2. rewrite (Hruns m0 _ Hm).
      do 3 f_equal. now rewrite <- !app_assoc.
    + rewrite Hset. unfold c2, c1. now destruct (0 <? looping c).
    + intros _. apply Hcur. unfold cursor_in, c2. cbn [samples playing set_playing set_samples].
      unfold u32. rewrite Z.mod_small by lia. rewrite to_int_small by lia. lia.
    + apply Forall_app. split; [ apply reads_within_effects_run | ].
      constructor; [ | exact Hev ].
      exists ch. repeat split; try assumption; lia.
  - exists index, c, []. split; [ | split; [ reflexivity | split; [ auto | constructor ] ] ].
    intros m0 l Hm. around_run Hm.
    cbn [wrap_loop]. mrun. rewrite Hcond. now rewrite app_nil_r.
Qed.
End Render.

Lemma settings_chunk c c' : settings c' = settings c -> chunk c' = chunk c.
Proof. unfold settings. intros H. now injection H. Qed.

Lemma settings_volume c c' : settings c' = settings c -> volume c' = volume c.
Proof. unfold settings. intros H. now injection H. Qed.

(** The channel after the check at the end of the render step: a traversal
    that ended exactly at the end of the output buffer is restarted when
    loops remain. *)
Definition rewound (ch : Mix_Chunk) (c : Mix_Channel) : Mix_Channel :=
  if (playing c =? 0) && negb (looping c =? 0)
  then set_playing (to_int (alen ch))
         (set_samples 0 (if 0 <? looping c then set_looping (looping c - 1) c else c))
  else c.

(** The channel after the expiry and fade checks of a tick at [sdl_ticks],
    and whether they ended its playback. *)
Definition advance (sdl_ticks : Z) (c : Mix_Channel) : Mix_Channel * bool :=
  if (0 <? expire c) && (expire c <? sdl_ticks) then
    (set_effects [] (set_expire 0 (set_fading MIX_NO_FADING
       (set_looping 0 (set_playing 0 c)))), true)
  else if negb (fading_eqb (fading c) MIX_NO_FADING) then
    let ticks := u64 (sdl_ticks - ticks_fade c) in
    if fade_length c <=? ticks then
      let c1 := stored_volume (fade_volume_reset c) c in
      if fading_eqb (fading c) MIX_FADING_OUT
      then (set_fading MIX_NO_FADING
              (set_effects [] (set_expire 0 (set_looping 0 (set_playing 0 c1)))), true)
      else (set_fading MIX_NO_FADING c1, false)
    else if fading_eqb (fading c) MIX_FADING_OUT then
      (stored_volume (to_int (u64 (u64 (fade_volume c) * (fade_length c - ticks))
                              / fade_length c)) c, false)
    else
      (stored_volume (to_int (u64 (u64 (fade_volume c) * ticks) / fade_length c)) c, false)
  else (c, false).

Section Tick.
Variable malloc_ok : Z -> Z -> bool.
Variable h : gmap Z Mix_Chunk.
Variable cb : Z.
Variables i len mv sdl_ticks : Z.

Local Abbreviation runs := (runs h cb i).

Ltac trun :=
  repeat first
    [ rewrite bind_run
    | rewrite upd_st by assumption
    | rewrite load_st by assumption
    | rewrite emit_st
    | rewrite DoEffects_st by assumption
    | rewrite done_playing_st by assumption
    | rewrite Mix_Volume_st by assumption
    | progress cbn [ret when negb andb orb fst snd] ].

Lemma render_runs c ch :
  h !! chunk c = Some ch -> 0 < alen ch < 2 ^ 31 ->
  exists c' evs,
    runs (render malloc_ok i len mv) c tt c' evs /\ settings c' = settings c /\
    (cursor_in ch c -> cursor_in ch c' /\ Forall (reads_within h) evs).
Proof.
  intros Hch Hlen.
  set (vol := Z.quot (mv * (volume c * cvolume ch)) (MIX_MAX_VOLUME * MIX_MAX_VOLUME)).
  destruct (play_loop_runs malloc_ok h cb i len mv (S (Z.to_nat len)) 0 vol c ch Hch)
    as (r & c1 & e1 & H1 & S1 & Hidx & Hcur1); [ lia | ].
  assert (Hch1 : h !! chunk c1 = Some ch) by now rewrite (settings_chunk _ _ S1).
  destruct (wrap_loop_runs malloc_ok h cb i len (S (Z.to_nat len)) (fst r) (snd r) c1 ch Hch1 Hlen)
    as (r2 & c2 & e2 & H2 & S2 & Hcur2 & Hev2); [ lia | ].
  assert (Hch2 : h !! chunk c2 = Some ch) by now rewrite (settings_chunk _ _ S2).
  exists (rewound ch c2), (e1 ++ e2). split; [ | split ].
  - intros m0 l Hm. pose proof Hm as (Hh & Hcb & Hv & Hn).
    unfold render. rewrite bind_run.
    rewrite (mixed_volume_st _ _ _ _ _ ch) by (assumption || now rewrite Hh).
    fold vol. rewrite bind_run, (H1 m0 l Hm), bind_run, (H2 m0 _ Hm).
    rewrite <- app_assoc. trun. unfold rewound.
    destruct ((playing c2 =? 0) && negb (looping c2 =? 0)); trun; [ | reflexivity ].
    destruct (0 <? looping c2); trun;
      rewrite (deref_st _ _ _ _ _ ch) by (cbn; now rewrite Hh); trun; reflexivity.
  - unfold rewound. rewrite <- S1, <- S2.
    destruct ((playing c2 =? 0) && negb (looping c2 =? 0)); [ | reflexivity ].
    now destruct (0 <? looping c2).
  - intros Hin. destruct (Hcur1 Hin) as [Hin1 Hev1]. split.
    + unfold rewound.
      destruct ((playing c2 =? 0) && negb (looping c2 =? 0)); [ | now apply Hcur2 ].
      unfold cursor_in. rewrite to_int_small by lia.
      destruct (0 <? looping c2); cbn; lia.
    + apply Forall_app. split; assumption.
Qed.

Definition advance_events (c : Mix_Channel) : list event :=
  if snd (advance sdl_ticks c)
  then finished cb i ++ release_events i (effects c) else [].

(** A tick of an unpaused channel is its expiry and fade checks, then the
    render step when bytes remain. *)
Lemma tick_phase m0 l c :
  around h cb i m0 -> paused c = 0 ->
  mix_channel_tick malloc_ok sdl_ticks len mv i (st m0 i c l)
  = (c' <- load i ;; when (0 <? playing c') (render malloc_ok i len mv))
      (st m0 i (fst (advance sdl_ticks c)) (l ++ advance_events c)).
Proof.
  intros (Hh & Hcb & Hv & Hn) Hp.
  unfold mix_channel_tick, advance_events, advance. trun. rewrite Hp.
  cbn [Z.eqb when]. rewrite bind_run.
  destruct ((0 <? expire c) && (expire c <? sdl_ticks)).
  { trun. unfold finished_events, finished. rewrite Hcb. reflexivity. }
  destruct (fading c) eqn:Hf; cbn [fading_eqb negb].
  - trun. now rewrite app_nil_r.
  - destruct (fade_length c <=? u64 (sdl_ticks - ticks_fade c)); trun.
    + unfold finished_events, finished. rewrite Hcb.
      unfold stored_volume.
      destruct (0 <=? fade_volume_reset c); reflexivity.
    + now rewrite app_nil_r.
  - destruct (fade_length c <=? u64 (sdl_ticks - ticks_fade c)); trun;
      now rewrite app_nil_r.
Qed.

(** Bytes remain to play only on a chunk that exists and is not empty. *)
Definition renderable (c : Mix_Channel) : Prop :=
  0 < playing c -> exists ch, h !! chunk c = Some ch /\ 0 < alen ch < 2 ^ 31.

(** Moreover the bytes that remain are bytes of the chunk. *)
Definition in_chunk (c : Mix_Channel) : Prop :=
  0 < playing c ->
  exists ch, h !! chunk c = Some ch /\ 0 < alen ch < 2 ^ 31 /\ cursor_in ch c.

Lemma in_chunk_renderable c : in_chunk c -> renderable c.
Proof. intros H Hp. destruct (H Hp) as (ch & Hch & Hlen & _). eauto. Qed.

Lemma advance_keeps c :
  chunk (fst (advance sdl_ticks c)) = chunk c /\
  (0 < playing (fst (advance sdl_ticks c)) ->
   playing (fst (advance sdl_ticks c)) = playing c /\
   samples (fst (advance sdl_ticks c)) = samples c).
Proof.
  unfold advance, stored_volume.
  repeat match goal with
         | |- context [if ?b then _ else _] => destruct b
         end; cbn; split; (reflexivity || lia || auto).
Qed.

Lemma reads_within_advance_events c : Forall (reads_within h) (advance_events c).
Proof.
  unfold advance_events. destruct (snd (advance sdl_ticks c)); [ | constructor ].
  apply Forall_app. split;
    [ apply reads_within_finished | apply reads_within_release_events ].
Qed.

(** The tick of a channel always completes.  The render step leaves the
    volume alone, and does not run when no bytes remain; a paused channel is
    left as it is; the cursor stays inside the chunk, and so does what is
    read. *)
Lemma tick_runs c :
  renderable c ->
  exists c' evs,
    runs (mix_channel_tick malloc_ok sdl_ticks len mv i) c tt c' evs /\
    (paused c = 0 ->
     volume c' = volume (fst (advance sdl_ticks c)) /\
     (playing (fst (advance sdl_ticks c)) <= 0 ->
      c' = fst (advance sdl_ticks c) /\ evs = advance_events c)) /\
    (paused c <> 0 -> c' = c /\ evs = []) /\
    (in_chunk c -> in_chunk c' /\ Forall (reads_within h) evs).
Proof.
  intros Hr. destruct (Z.eq_dec (paused c) 0) as [Hp | Hp].
  - destruct (advance_keeps c) as [Hchunk Hplay].
    destruct (0 <? playing (fst (advance sdl_ticks c))) eqn:E.
    + pose proof (proj1 (Z.ltb_lt _ _) E) as E'.
      destruct (Hplay E') as [Hplaying Hsamples].
      destruct (Hr ltac:(lia)) as (ch & Hch & Hlen).
      rewrite <- Hchunk in Hch.
      destruct (render_runs _ ch Hch Hlen) as (c' & evs & Hrun & Hset & Hcur).
      exists c', (advance_events c ++ evs). split; [ | split; [ | split ] ].
      * intros m0 l Hm.
        rewrite tick_phase by assumption. pose proof Hm as (Hh & Hcb & Hv & Hn).
        trun. rewrite E. cbn [when]. rewrite (Hrun m0 _ Hm). now rewrite <- app_assoc.
      * intros _. split; [ apply (settings_volume _ _ Hset) | lia ].
      * contradiction.
      * intros Hin. destruct (Hin ltac:(lia)) as (ch' & Hch' & _ & Hc).
        rewrite Hchunk in Hch. assert (ch' = ch) by congruence. subst ch'.
        destruct Hcur as [Hc' Hev].
        { unfold cursor_in in *. rewrite Hplaying, Hsamples. exact Hc. }
        split.
        -- intros _. exists ch. rewrite (settings_chunk _ _ Hset), Hchunk. auto.
        -- apply Forall_app. split; [ apply reads_within_advance_events | exact Hev ].
    + exists (fst (advance sdl_ticks c)), (advance_events c).
      split; [ | split; [ | split ] ].
      * intros m0 l Hm.
        rewrite tick_phase by assumption. pose proof Hm as (Hh & Hcb & Hv & Hn).
        trun. rewrite E. reflexivity.
      * intros _. split; [ reflexivity | ]. intros _. split; reflexivity.
      * contradiction.
      * intros _. split; [ | apply reads_within_advance_events ].
        intros Hpos. apply Z.ltb_ge in E. lia.
  - exists c, []. split; [ | split; [ contradiction | split; [ auto | ] ] ].
    + intros m0 l (Hh & Hcb & Hv & Hn).
      unfold mix_channel_tick. trun.
      destruct (paused c =? 0) eqn:E; [ apply Z.eqb_eq in E; contradiction | ].
      cbn [when ret]. now rewrite app_nil_r.
    + intros Hin. split; [ exact Hin | constructor ].
Qed.
End Tick.

(** ** The mixing callback on the whole registry *)

Lemma DoEffects_post malloc_ok m len :
  Mix_DoEffects malloc_ok MIX_CHANNEL_POST len m
  = Ok (tt, set_log (log m ++ effect_events MIX_CHANNEL_POST len (posteffects m)) m).
Proof.
  unfold Mix_DoEffects. cbn [Z.eqb MIX_CHANNEL_POST Pos.eqb].
  unfold gets. rewrite bind_run.
  destruct (posteffects m) as [|x e] eqn:He.
  - unfold ret, effect_events. cbn. rewrite app_nil_r. now destruct m.
  - cbn [negb andb]. rewrite <- He. apply run_effects_run.
Qed.

(** The callback gives up, and touches nothing, when the scratch buffer
    has to grow and cannot. *)
Lemma mix_channels_no_buffer audio_mixbuflen malloc_ok sdl_ticks len m :
  audio_mixbuflen < len ->
  mix_channels audio_mixbuflen false malloc_ok sdl_ticks len m = Ok (tt, m).
Proof.
  intros Hlt. unfold mix_channels.
  destruct (audio_mixbuflen <? len) eqn:E; [ reflexivity | lia ].
Qed.

(** Either the scratch buffer cannot be had, or it is long enough or can be
    grown. *)
Lemma mixbuf_cases (audio_mixbuflen len : Z) (alloc_ok : bool) :
  (audio_mixbuflen < len /\ alloc_ok = false) \/
  (audio_mixbuflen < len -> alloc_ok = true).
Proof.
  destruct alloc_ok; [ right; reflexivity | ].
  destruct (Z_lt_dec audio_mixbuflen len); [ left; auto | right; intros; lia ].
Qed.

Section Callback.
Variable malloc_ok : Z -> Z -> bool.
Variable m : Mixer.
Variables sdl_ticks len : Z.
Variable audio_mixbuflen : Z.
Variable alloc_ok : bool.

(** What the tick of channel [j] makes of [c], with the events it adds. *)
Definition tick_of (j : Z) (c c' : Mix_Channel) (evs : list event) : Prop :=
  runs (heap m) (channel_done_callback m) j
       (mix_channel_tick malloc_ok sdl_ticks len (master_volume m) j) c tt c' evs.

(** The states of the loop over the channels: those below [k] have had
    their tick. *)
Definition ticked (k : Z) (s : Mixer) : Prop :=
  exists cs l,
    s = set_log (log m ++ l) (set_mix_channel cs m) /\
    length cs = length (mix_channel m) /\
    (forall j, k <= Z.of_nat j -> cs !! j = mix_channel m !! j) /\
    (forall j c, Z.of_nat j < k -> mix_channel m !! j = Some c ->
                 exists c' evs pre post,
                   tick_of (Z.of_nat j) c c' evs /\ cs !! j = Some c' /\
                   l = pre ++ evs ++ post) /\
    (forall e, In e l ->
               exists j c c' evs,
                 mix_channel m !! j = Some c /\
                 tick_of (Z.of_nat j) c c' evs /\ In e evs).

Hypothesis Hwf : wf_registry m.
Hypothesis Hrender :
  forall j c, mix_channel m !! j = Some c -> renderable (heap m) c.
Hypothesis Hbuf : audio_mixbuflen < len -> alloc_ok = true.

Lemma ticked_step k s :
  0 <= k < num_channels m -> ticked k s ->
  exists s', mix_channel_tick malloc_ok sdl_ticks len (master_volume m) k s = Ok (tt, s') /\
             ticked (k + 1) s'.
Proof.
  intros Hk (cs & l & -> & Hlen & Hrest & Hdone & Hfrom).
  destruct (valid_index_lookup m k (wf_valid_index m k Hwf Hk)) as [c Hc].
  assert (Hcs : cs !! Z.to_nat k = Some c) by (rewrite Hrest; [ assumption | lia ]).
  destruct (tick_runs malloc_ok (heap m) (channel_done_callback m) k len (master_volume m)
                      sdl_ticks c (Hrender _ _ Hc)) as (c' & evs & Hrun & _).
  assert (Hm : around (heap m) (channel_done_callback m) k
                      (set_log (log m ++ l) (set_mix_channel cs m))).
  { repeat split; cbn; unfold wf_registry in Hwf; lia. }
  exists (st (set_log (log m ++ l) (set_mix_channel cs m)) k c' ((log m ++ l) ++ evs)).
  split.
  - rewrite <- (st_start (set_log (log m ++ l) (set_mix_channel cs m)) k c Hcs) at 1.
    apply (Hrun _ _ Hm).
  - exists (<[Z.to_nat k := c']> cs), (l ++ evs).
    split; [ unfold st; cbn; now rewrite <- app_assoc | ].
    split; [ now rewrite length_insert | ]. split; [ | split ].
    + intros j Hj. rewrite list_lookup_insert_ne by lia. apply Hrest. lia.
    + intros j cj Hj Hcj.
      destruct (decide (j = Z.to_nat k)) as [-> | Hne].
      * assert (cj = c) by congruence. subst cj.
        exists c', evs, l, [].
        replace (Z.of_nat (Z.to_nat k)) with k by lia.
        split; [ exact Hrun | ].
        split; [ apply list_lookup_insert_eq; unfold wf_registry in Hwf; lia | ].
        now rewrite app_nil_r.
      * destruct (Hdone j cj ltac:(lia) Hcj) as (cj' & ej & pre & post & Ht & Hl & ->).
        exists cj', ej, pre, (post ++ evs).
        split; [ exact Ht | ]. split; [ now rewrite list_lookup_insert_ne by lia | ].
        now rewrite <- !app_assoc.
    + intros e He. apply in_app_or in He. destruct He as [He | He].
      * now apply Hfrom.
      * exists (Z.to_nat k), c, c', evs.
        replace (Z.of_nat (Z.to_nat k)) with k by lia. auto.
Qed.

(** With its scratch buffer the callback completes; every channel has had
    its tick, and the log has grown by the events of the ticks, in channel
    order, and then by those of the post-mix effects. *)
Lemma mix_channels_run :
  exists cs l,
    mix_channels audio_mixbuflen alloc_ok malloc_ok sdl_ticks len m
    = Ok (tt, set_log (log m ++ l ++ effect_events MIX_CHANNEL_POST len (posteffects m))
                      (set_mix_channel cs m)) /\
    length cs = length (mix_channel m) /\
    (forall j c, mix_channel m !! j = Some c ->
                 exists c' evs pre post,
                   tick_of (Z.of_nat j) c c' evs /\ cs !! j = Some c' /\
                   l = pre ++ evs ++ post) /\
    (forall e, In e l ->
               exists j c c' evs,
                 mix_channel m !! j = Some c /\
                 tick_of (Z.of_nat j) c c' evs /\ In e evs).
Proof.
  destruct (for_loop_inv
              (fun k (_ : unit) => mix_channel_tick malloc_ok sdl_ticks len (master_volume m) k)
              (fun k _ s => ticked k s)
              (Z.to_nat (num_channels m - 0)) 0 tt m)
    as ([] & s & Hrun & cs & l & -> & Hlen & _ & Hdone & Hfrom).
  - exists (mix_channel m), []. rewrite app_nil_r.
    split; [ now destruct m | ]. split; [ reflexivity | ].
    split; [ reflexivity | ]. split; [ intros j c Hj; lia | ].
    intros e [].
  - intros k [] s Hk Hs.
    destruct (ticked_step k s ltac:(lia) Hs) as (s' & Hrun & Hs').
    exists tt, s'. split; assumption.
  - exists cs, l.
    split; [ | split; [ assumption | split; [ | assumption ] ] ].
    + unfold mix_channels.
      replace ((audio_mixbuflen <? len) && negb alloc_ok) with false.
      2:{ symmetry. destruct (audio_mixbuflen <? len) eqn:E; [ | reflexivity ].
          apply Z.ltb_lt in E. now rewrite (Hbuf E). }
      unfold gets, For_, For. rewrite !bind_run, Hrun.
      rewrite DoEffects_post. cbn. now rewrite <- app_assoc.
    + intros j c Hc.
      assert (Hj : Z.of_nat j < 0 + Z.of_nat (Z.to_nat (num_channels m - 0))).
      { apply lookup_lt_Some in Hc. unfold wf_registry in Hwf. lia. }
      apply (Hdone j c Hj Hc).
Qed.
End Callback.

(** ** Fading out, tick by tick *)

Lemma stored_volume_in_range v c :
  0 <= v <= MIX_MAX_VOLUME -> stored_volume v c = set_volume v c.
Proof.
  unfold stored_volume, MIX_MAX_VOLUME. intros H.
  destruct (0 <=? v) eqn:E; [ | lia ]. destruct (128 <? v) eqn:E'; [ lia | reflexivity ].
Qed.

(** The volume of the ramp of a fade-out is the floor of V0 * (D - t) / D. *)
Lemma fade_out_ramp (v0 d t : Z) :
  0 <= v0 <= MIX_MAX_VOLUME -> v0 * d < 2 ^ 64 -> 0 <= t < d ->
  to_int (u64 (u64 v0 * (d - t)) / d) = v0 * (d - t) / d /\
  0 <= v0 * (d - t) / d <= MIX_MAX_VOLUME.
Proof.
  unfold MIX_MAX_VOLUME. intros Hv Hd Ht.
  assert (Hp : 0 <= v0 * (d - t) <= v0 * d) by nia.
  rewrite (u64_small v0) by lia. rewrite u64_small by lia.
  assert (Hq : 0 <= v0 * (d - t) / d <= v0).
  { split; [ apply Z.div_pos; lia | ].
    apply Z.div_le_upper_bound; [ lia | nia ]. }
  split; [ apply to_int_small; lia | lia ].
Qed.

Lemma advance_fade_out_running sdl_ticks c :
  ~ (0 < expire c < sdl_ticks) -> fading c = MIX_FADING_OUT ->
  0 <= fade_volume c <= MIX_MAX_VOLUME ->
  fade_volume c * fade_length c < 2 ^ 64 ->
  u64 (sdl_ticks - ticks_fade c) < fade_length c ->
  advance sdl_ticks c
  = (set_volume (fade_volume c * (fade_length c - u64 (sdl_ticks - ticks_fade c))
                 / fade_length c) c, false).
Proof.
  intros Hexp Hf Hv Hd Ht. unfold advance.
  destruct ((0 <? expire c) && (expire c <? sdl_ticks)) eqn:E.
  { apply andb_true_iff in E. lia. }
  rewrite Hf. cbn [fading_eqb negb].
  destruct (fade_length c <=? u64 (sdl_ticks - ticks_fade c)) eqn:E'; [ lia | ].
  assert (Ht0 : 0 <= u64 (sdl_ticks - ticks_fade c))
    by (unfold u64; apply Z.mod_pos_bound; lia).
  destruct (fade_out_ramp (fade_volume c) (fade_length c)
              (u64 (sdl_ticks - ticks_fade c)) Hv Hd ltac:(lia)) as [-> Hr].
  now rewrite stored_volume_in_range.
Qed.

Lemma advance_fade_out_done sdl_ticks c :
  ~ (0 < expire c < sdl_ticks) -> fading c = MIX_FADING_OUT ->
  0 <= fade_volume_reset c <= MIX_MAX_VOLUME ->
  fade_length c <= u64 (sdl_ticks - ticks_fade c) ->
  advance sdl_ticks c
  = (set_fading MIX_NO_FADING
       (set_effects [] (set_expire 0 (set_looping 0 (set_playing 0
          (set_volume (fade_volume_reset c) c))))), true).
Proof.
  intros Hexp Hf Hv Ht. unfold advance.
  destruct ((0 <? expire c) && (expire c <? sdl_ticks)) eqn:E.
  { apply andb_true_iff in E. lia. }
  rewrite Hf. cbn [fading_eqb negb].
  destruct (fade_length c <=? u64 (sdl_ticks - ticks_fade c)) eqn:E'; [ | lia ].
  now rewrite stored_volume_in_range.
Qed.

(** ** Channels at rest *)

Definition at_rest (c : Mix_Channel) : Prop :=
  playing c <= 0 /\ expire c = 0 /\ fading c = MIX_NO_FADING.

Lemma advance_at_rest sdl_ticks c :
  expire c = 0 -> fading c = MIX_NO_FADING -> advance sdl_ticks c = (c, false).
Proof. intros He Hf. unfold advance. rewrite He, Hf. reflexivity. Qed.

(** When every channel is at rest and no post-mix effect is registered, the
    callback changes nothing and calls nothing. *)
Lemma mix_channels_at_rest (m : Mixer) (audio_mixbuflen : Z) (alloc_ok : bool)
    (malloc_ok : Z -> Z -> bool) (sdl_ticks len : Z) :
  wf_registry m -> posteffects m = [] ->
  (forall j c, mix_channel m !! j = Some c -> at_rest c) ->
  mix_channels audio_mixbuflen alloc_ok malloc_ok sdl_ticks len m = Ok (tt, m).
Proof.
  intros Hwf Hpost Hrest.
  destruct (mixbuf_cases audio_mixbuflen len alloc_ok) as [[Hlt ->] | Hbuf];
    [ now apply mix_channels_no_buffer | ].
  assert (Hrender : forall j c, mix_channel m !! j = Some c -> renderable (heap m) c).
  { intros j c Hc Hp. destruct (Hrest j c Hc). lia. }
  assert (Hsame : forall j c c' evs,
             mix_channel m !! j = Some c ->
             tick_of malloc_ok m sdl_ticks len (Z.of_nat j) c c' evs -> c' = c /\ evs = []).
  { intros j c c' evs Hc Ht.
    destruct (tick_runs malloc_ok (heap m) (channel_done_callback m) (Z.of_nat j) len
                (master_volume m) sdl_ticks c (Hrender _ _ Hc))
      as (c2 & e2 & Hrun2 & Hgo & Hpaused & _).
    assert (Hm : around (heap m) (channel_done_callback m) (Z.of_nat j) m).
    { apply lookup_lt_Some in Hc. unfold wf_registry in Hwf. repeat split; lia. }
    destruct (runs_unique _ _ _ _ _ _ _ _ _ _ _ m Hm Ht Hrun2) as (_ & -> & ->).
    destruct (Hrest j c Hc) as (Hp & He & Hf).
    destruct (Z.eq_dec (paused c) 0) as [H0 | H0]; [ | now apply Hpaused ].
    destruct (Hgo H0) as [_ Hstop].
    unfold advance_events in Hstop. rewrite advance_at_rest in Hstop by assumption.
    now apply Hstop. }
  destruct (mix_channels_run malloc_ok m sdl_ticks len audio_mixbuflen alloc_ok
              Hwf Hrender Hbuf)
    as (cs & l & Hrun & Hlen & Hall & Hfrom).
  assert (Hl : l = []).
  { destruct l as [|e l]; [ reflexivity | ].
    destruct (Hfrom e (or_introl eq_refl)) as (j & c & c' & evs & Hc & Ht & Hin).
    destruct (Hsame j c c' evs Hc Ht) as [_ ->]. destruct Hin. }
  assert (Hcs : cs = mix_channel m).
  { apply list_eq. intros j. destruct (mix_channel m !! j) as [c|] eqn:Hc.
    - destruct (Hall j c Hc) as (c' & evs & _ & _ & Ht & -> & _).
      now destruct (Hsame j c c' evs Hc Ht) as [-> _].
    - apply lookup_ge_None. apply lookup_ge_None in Hc. lia. }
  rewrite Hrun, Hl, Hcs, Hpost. cbn. rewrite app_nil_r. now destruct m.
Qed.

(** ** The last traversal of a loop ending inside the wrap-around loop *)

Section Steps.
Variable malloc_ok : Z -> Z -> bool.
Variable h : gmap Z Mix_Chunk.
Variable cb : Z.
Variables i len mv : Z.

Local Abbreviation runs := (runs h cb i).

Ltac srun :=
  repeat first
    [ rewrite bind_run
    | rewrite upd_st by assumption
    | rewrite load_st by assumption
    | rewrite emit_st
    | rewrite DoEffects_st by assumption
    | progress cbn [ret when negb andb orb fst snd] ].

Lemma play_loop_exit fuel index vol x :
  (0 <? playing x) && (index <? len) = false ->
  runs (play_loop malloc_ok (S fuel) i len mv index vol) x (index, vol) x [].
Proof.
  intros Hc m0 l (Hh & Hcb & Hv & Hn). cbn [play_loop]. srun.
  rewrite Hc. now rewrite app_nil_r.
Qed.

(** One iteration of the first loop that does not end playback. *)
Lemma play_loop_iter fuel index vol x r x' evs :
  (0 <? playing x) && (index <? len) = true ->
  let mixable := if len - index <? playing x then len - index else playing x in
  let x1 := set_playing (playing x - mixable) (set_samples (samples x + mixable) x) in
  (playing x1 =? 0) && (looping x1 =? 0) = false ->
  runs (play_loop malloc_ok fuel i len mv (index + mixable) vol) x1 r x' evs ->
  runs (play_loop malloc_ok (S fuel) i len mv index vol) x r x'
       (effects_run (malloc_ok i index) i mixable (effects x)
        ++ [MixAudio i index (chunk x) (samples x) mixable vol] ++ evs).
Proof.
  intros Hc mixable x1 Hd Hrest m0 l Hm. pose proof Hm as (Hh & Hcb & Hv & Hn).
  cbn [play_loop]. srun. rewrite Hc. fold mixable. srun. fold x1. rewrite Hd. srun.
  rewrite (Hrest m0 _ Hm). do 3 f_equal. now rewrite <- !app_assoc.
Qed.

Lemma wrap_loop_exit fuel index vol x :
  negb (looping x =? 0) && (index <? len) = false ->
  runs (wrap_loop malloc_ok (S fuel) i len index vol) x index x [].
Proof.
  intros Hc m0 l (Hh & Hcb & Hv & Hn). cbn [wrap_loop]. srun.
  rewrite Hc. now rewrite app_nil_r.
Qed.

(** One iteration of the wrap-around loop. *)
Lemma wrap_loop_iter fuel index vol x xch r x' evs :
  h !! chunk x = Some xch ->
  negb (looping x =? 0) && (index <? len) = true ->
  let remaining := if to_int (alen xch) <? len - index
                   then to_int (alen xch) else len - index in
  let x1 := if 0 <? looping x then set_looping (looping x - 1) x else x in
  let x2 := set_playing (to_int (u32 (alen xch - remaining))) (set_samples remaining x1) in
  runs (wrap_loop malloc_ok fuel i len (index + remaining) vol) x2 r x' evs ->
  runs (wrap_loop malloc_ok (S fuel) i len index vol) x r x'
       (effects_run (malloc_ok i index) i remaining (effects x)
        ++ [MixAudio i index (chunk x) 0 remaining vol] ++ evs).
Proof.
  intros Hx Hc remaining x1 x2 Hrest m0 l Hm. pose proof Hm as (Hh & Hcb & Hv & Hn).
  cbn [wrap_loop]. srun. rewrite Hc.
  rewrite bind_run, (deref_st _ _ _ _ _ xch) by now rewrite Hh.
  fold remaining. srun.
  assert (Hloop : forall l', (when (0 <? looping x) (upd i (set_looping (looping x - 1))))
                               (st m0 i x l') = Ok (tt, st m0 i x1 l')).
  { intros l'. unfold x1. destruct (0 <? looping x); srun; reflexivity. }
  rewrite Hloop. srun. fold x2. rewrite (Hrest m0 _ Hm).
  do 3 f_equal. now rewrite <- !app_assoc.
Qed.
End Steps.

Section WrapEnd.
Variable malloc_ok : Z -> Z -> bool.
Variable h : gmap Z Mix_Chunk.
Variable cb : Z.
Variables i len mv sdl_ticks : Z.
Variable c : Mix_Channel.
Variable ch : Mix_Chunk.

Hypothesis Hch : h !! chunk c = Some ch.
Hypothesis Hlen : 0 < alen ch < 2 ^ 31.
Hypothesis Hpaused : paused c = 0.
Hypothesis Hexpire : expire c = 0.
Hypothesis Hfading : fading c = MIX_NO_FADING.
Hypothesis Hsamples : samples c = 0.
Hypothesis Hplaying : playing c = alen ch.
Hypothesis Hlooping : looping c = 2.
Hypothesis Hroom : 3 * alen ch <= len.

(** The channel when the loop is over: the cursor at the end of the chunk,
    nothing left to play, no loop left; the fade state, the expiry and the
    effects are untouched. *)
Definition looped_out : Mix_Channel :=
  set_playing 0 (set_samples (alen ch) (set_looping 0 c)).

Definition three_traversals : list event :=
  let L := alen ch in
  let vol := Z.quot (mv * (volume c * cvolume ch)) (MIX_MAX_VOLUME * MIX_MAX_VOLUME) in
  let E index := effects_run (malloc_ok i index) i L (effects c) in
  E 0 ++ [MixAudio i 0 (chunk c) 0 L vol]
    ++ E L ++ [MixAudio i L (chunk c) 0 L vol]
    ++ E (L + L) ++ [MixAudio i (L + L) (chunk c) 0 L vol].

Lemma wrap_end_render :
  runs h cb i (render malloc_ok i len mv) c tt looped_out three_traversals.
Proof.
  set (vol := Z.quot (mv * (volume c * cvolume ch)) (MIX_MAX_VOLUME * MIX_MAX_VOLUME)).
  set (c1 := set_playing 0 (set_samples (alen ch) c)).
  set (c2 := set_playing 0 (set_samples (alen ch) (set_looping 1 c))).
  assert (Hint : to_int (alen ch) = alen ch) by (apply to_int_small; lia).
  assert (Hzero : to_int (u32 (alen ch - alen ch)) = 0) by now rewrite Z.sub_diag.
  (* the first traversal, in the first loop *)
  assert (H1 : forall fuel, runs h cb i (play_loop malloc_ok (S (S fuel)) i len mv 0 vol) c (alen ch, vol) c1
                 (effects_run (malloc_ok i 0) i (alen ch) (effects c)
                  ++ [MixAudio i 0 (chunk c) 0 (alen ch) vol] ++ [])).
  { intros fuel.
    pose proof (play_loop_iter malloc_ok h cb i len mv (S fuel) 0 vol c (alen ch, vol) c1 []) as Hstep.
    cbn zeta in Hstep. rewrite Hplaying, Hsamples in Hstep.
    replace (len - 0 <? alen ch) with false in Hstep by (symmetry; apply Z.ltb_ge; lia).
    cbn [looping playing set_playing set_samples] in Hstep.
    rewrite Hlooping, Z.sub_diag, !Z.add_0_l in Hstep. apply Hstep.
    - apply andb_true_iff. split; apply Z.ltb_lt; lia.
    - reflexivity.
    - apply play_loop_exit. reflexivity. }
  (* the second and third traversals, in the wrap-around loop *)
  assert (H3 : forall fuel index, runs h cb i (wrap_loop malloc_ok (S fuel) i len index vol)
                                    looped_out index looped_out []).
  { intros fuel index. apply wrap_loop_exit. reflexivity. }
  assert (H2 : forall fuel,
             runs h cb i (wrap_loop malloc_ok (S (S (S fuel))) i len (alen ch) vol) c1
                  (alen ch + alen ch + alen ch) looped_out
                  (effects_run (malloc_ok i (alen ch)) i (alen ch) (effects c)
                   ++ [MixAudio i (alen ch) (chunk c) 0 (alen ch) vol]
                   ++ effects_run (malloc_ok i (alen ch + alen ch)) i (alen ch) (effects c)
                   ++ [MixAudio i (alen ch + alen ch) (chunk c) 0 (alen ch) vol] ++ [])).
  { intros fuel.
    pose proof (wrap_loop_iter malloc_ok h cb i len (S (S fuel)) (alen ch) vol c1 ch
                  (alen ch + alen ch + alen ch) looped_out
                  (effects_run (malloc_ok i (alen ch + alen ch)) i (alen ch) (effects c)
                   ++ [MixAudio i (alen ch + alen ch) (chunk c) 0 (alen ch) vol] ++ []))
      as Hstep.
    cbn zeta in Hstep. cbn [c1 looping chunk effects set_playing set_samples] in Hstep.
    rewrite Hlooping, Hint in Hstep.
    replace (alen ch <? len - alen ch) with true in Hstep by (symmetry; apply Z.ltb_lt; lia).
    cbn [Z.ltb Z.compare] in Hstep. rewrite Hzero in Hstep.
    apply Hstep; [ exact Hch | | ].
    { apply andb_true_iff. split; [ reflexivity | apply Z.ltb_lt; lia ]. }
    clear Hstep.
    pose proof (wrap_loop_iter malloc_ok h cb i len (S fuel) (alen ch + alen ch) vol
                  (set_playing 0 (set_samples (alen ch) (set_looping (2 - 1) c1))) ch
                  (alen ch + alen ch + alen ch) looped_out []) as Hstep.
    cbn zeta in Hstep. cbn [c1 looping chunk effects set_playing set_samples set_looping] in Hstep.
    rewrite Hint in Hstep.
    assert (Hrem : (if alen ch <? len - (alen ch + alen ch)
                    then alen ch else len - (alen ch + alen ch)) = alen ch).
    { destruct (alen ch <? len - (alen ch + alen ch)) eqn:E; [ reflexivity | ].
      apply Z.ltb_ge in E. lia. }
    rewrite Hrem, Hzero in Hstep. cbn [Z.sub Z.ltb Z.compare Z.add Z.pos_sub Z.opp] in Hstep.
    apply Hstep; [ exact Hch | | ].
    { apply andb_true_iff. split; [ reflexivity | apply Z.ltb_lt; lia ]. }
    apply H3. }
  intros m0 l Hm. pose proof Hm as (Hh & Hcb & Hv & Hn).
  unfold render. rewrite bind_run.
  rewrite (mixed_volume_st _ _ _ _ _ ch) by (assumption || now rewrite Hh).
  fold vol.
  destruct (Z.to_nat len) as [|[|n]] eqn:Hnat; [ lia | lia | ].
  rewrite bind_run, (H1 _ m0 l Hm). cbn [fst snd].
  rewrite bind_run, (H2 _ m0 _ Hm).
  rewrite bind_run, load_st by assumption. cbn [looped_out playing set_playing Z.eqb andb when ret].
  unfold three_traversals. fold vol. do 3 f_equal.
  rewrite !app_nil_r, <- !app_assoc. reflexivity.
Qed.

(** A channel freshly started with [loops = 2] on a chunk of L bytes, ticked
    with room for at least 3 * L bytes: the chunk is mixed three times, back
    to back, and the channel is left not playing; the finished-callback is
    not called and the effects of the channel are not released. *)
Lemma wrap_end_tick :
  runs h cb i (mix_channel_tick malloc_ok sdl_ticks len mv i) c tt looped_out three_traversals.
Proof.
  intros m0 l Hm. rewrite (tick_phase malloc_ok h cb) by assumption.
  unfold advance_events. rewrite advance_at_rest by assumption.
  cbn [fst snd]. rewrite app_nil_r. pose proof Hm as (Hh & Hcb & Hv & Hn).
  rewrite bind_run, load_st by assumption. rewrite Hplaying.
  destruct (0 <? alen ch) eqn:E; [ | lia ]. cbn [when].
  now apply wrap_end_render.
Qed.

Lemma three_traversals_not_finished e :
  In e three_traversals -> forall f j, e <> ChannelFinished f j.
Proof.
  unfold three_traversals, effects_run, effect_events. intros He f j ->.
  repeat (apply in_app_or in He; destruct He as [He | He]);
    try (destruct (malloc_ok i _); [ | destruct He ]);
    try (apply in_map_iff in He; destruct He as (x & Hx & _); discriminate Hx);
    try (destruct He as [He | []]; discriminate He).
Qed.

Lemma looped_out_not_playing : is_playing looped_out = false.
Proof. reflexivity. Qed.

(** Later ticks leave that channel alone and call nothing. *)
Lemma looped_out_stays sdl_ticks' len' mv' :
  runs h cb i (mix_channel_tick malloc_ok sdl_ticks' len' mv' i) looped_out tt looped_out [].
Proof.
  destruct (tick_runs malloc_ok h cb i len' mv' sdl_ticks' looped_out)
    as (c' & evs & Hrun & Hgo & _).
  { intros Hp. cbn in Hp. lia. }
  destruct (Hgo Hpaused) as [_ Hstop].
  unfold advance_events in Hstop.
  rewrite advance_at_rest in Hstop by assumption.
  destruct Hstop as [-> ->]; [ cbn; lia | ]. exact Hrun.
Qed.
End WrapEnd.

(** ** A loop of a one-frame chunk *)

(** A chunk of one 4-byte frame played on channel 0 with [loops = 2], with a
    finished-callback set. *)
Definition looping_mixer : Mixer :=
  default (opened_mixer 32784 2 8)
    (exec (_ <- Mix_ChannelFinished 77 ;; Mix_PlayChannelTimed 5 0 1000 2 (-1))
          (new_chunk 1000 (mkChunk 0 5000 4 MIX_MAX_VOLUME) (opened_mixer 32784 2 8))).

Definition after_first_callback : Mixer :=
  default looping_mixer
    (exec (mix_channels 0 true (fun _ _ => true) 10 12) looping_mixer).

(** C2.  The chunk has L = 4 bytes and the callback asks for 12 = 3 * L
    bytes.  The callback mixes the chunk three times, back to back at output
    offsets 0, 4 and 8, and leaves the channel not playing; but the
    finished-callback is not called, in this callback or in any later one:
    the third traversal ends inside the wrap-around loop, which decrements
    [looping] to 0 and sets [playing] to 0 without the end-of-playback
    notification that the first loop gives. *)
Theorem loop_ended_by_wraparound_never_finishes :
  (forall audio_mixbuflen malloc_ok,
     mix_channels audio_mixbuflen true malloc_ok 10 12 looping_mixer
     = Ok (tt, after_first_callback)) /\
  log after_first_callback
  = [MixAudio 0 0 1000 0 4 128; MixAudio 0 4 1000 0 4 128; MixAudio 0 8 1000 0 4 128] /\
  Mix_Playing 0 after_first_callback = Ok (0, after_first_callback) /\
  forall audio_mixbuflen alloc_ok malloc_ok sdl_ticks len,
    mix_channels audio_mixbuflen alloc_ok malloc_ok sdl_ticks len after_first_callback
    = Ok (tt, after_first_callback).
Proof.
  split.
  { intros audio_mixbuflen malloc_ok. unfold mix_channels.
    rewrite andb_false_r. vm_compute. reflexivity. }
  split; [ vm_compute; reflexivity | ].
  split; [ vm_compute; reflexivity | ].
  intros audio_mixbuflen alloc_ok malloc_ok sdl_ticks len. apply mix_channels_at_rest.
  - closed.
  - closed.
  - intros j c Hj.
    do 8 (destruct j as [|j]; [ injection Hj as <-; repeat split; closed | ]).
    discriminate Hj.
Qed.

(** The same with an output buffer of 6 bytes: the third traversal starts
    and ends inside the second callback, and nothing is notified. *)
Example loop_ended_in_second_callback (malloc_ok : Z -> Z -> bool) :
  (log <$> exec (_ <- mix_channels 0 true malloc_ok 10 6 ;;
                 _ <- mix_channels 6 true malloc_ok 11 6 ;;
                 mix_channels 6 true malloc_ok 12 6)
                looping_mixer)
  = Some [MixAudio 0 0 1000 0 4 128; MixAudio 0 4 1000 0 2 128;
          MixAudio 0 0 1000 2 2 128; MixAudio 0 2 1000 0 4 128].
Proof. vm_compute. reflexivity. Qed.

(** With an output buffer of one chunk length each traversal ends a
    callback, the last one in the first loop, and the finished-callback is
    called once, after the third traversal. *)
Example loop_ended_by_first_loop (malloc_ok : Z -> Z -> bool) :
  (log <$> exec (_ <- mix_channels 0 true malloc_ok 10 4 ;;
                 _ <- mix_channels 4 true malloc_ok 11 4 ;;
                 _ <- mix_channels 4 true malloc_ok 12 4 ;;
                 mix_channels 4 true malloc_ok 13 4)
                looping_mixer)
  = Some [MixAudio 0 0 1000 0 4 128; MixAudio 0 0 1000 0 4 128;
          MixAudio 0 0 1000 0 4 128; ChannelFinished 77 0].
Proof. vm_compute. reflexivity. Qed.

(** ** Automatic assignment when the reserved channels are within the array *)

(** The channels with index in [lo, hi) are all playing. *)
Definition all_playing (m : Mixer) (lo hi : Z) : Prop :=
  forall j c, lo <= Z.of_nat j < hi -> mix_channel m !! j = Some c -> is_playing c = true.

Lemma first_free_run (m : Mixer) (n : Z) :
  wf_registry m -> n = num_channels m ->
  forall fuel i,
    0 <= i -> fuel = Z.to_nat (n - i) ->
    exists r,
      first_free fuel i n m = Ok (r, m) /\
      i <= r /\ all_playing m i r /\
      (r < n /\ (exists c, mix_channel m !! Z.to_nat r = Some c /\ is_playing c = false)
       \/ r = n \/ (n < i /\ r = i)).
Proof.
  intros Hwf ->. induction fuel as [|fuel IH]; intros i Hi Hfuel.
  - exists i. split; [ reflexivity | ]. split; [ lia | ].
    split; [ intros j c Hj; lia | ]. lia.
  - cbn [first_free]. destruct (i <? num_channels m) eqn:E; [ | lia ].
    assert (Hi' : 0 <= i < num_channels m) by lia.
    destruct (valid_index_lookup m i (wf_valid_index m i Hwf Hi')) as [c Hc].
    rewrite bind_run, (Mix_Playing_channel m i c Hwf Hi' Hc).
    destruct (is_playing c) eqn:Hp; cbn [Z.eqb].
    + destruct (IH (i + 1) ltac:(lia) ltac:(lia)) as (r & Hrun & Hle & Hall & Hr).
      exists r. split; [ exact Hrun | ]. split; [ lia | ]. split.
      * intros j cj Hj Hcj. destruct (Z.eq_dec (Z.of_nat j) i) as [He | He].
        -- replace j with (Z.to_nat i) in Hcj by lia. congruence.
        -- apply (Hall j cj); [ lia | assumption ].
      * destruct Hr as [Hr | [Hr | Hr]]; [ now left | now (right; left) | lia ].
    + exists i. split; [ reflexivity | ]. split; [ lia | ].
      split; [ intros j cj Hj; lia | ]. left. split; [ lia | eauto ].
Qed.

(** The assignments that bind a chunk of [len] bytes to a channel. *)
Definition bound (sdl_ticks chunk_ len loops ticks : Z) (c : Mix_Channel) : Mix_Channel :=
  set_expire (if 0 <? ticks then u64 (sdl_ticks + ticks) else 0)
    (set_start_time sdl_ticks (set_fading MIX_NO_FADING (set_paused 0
       (set_chunk chunk_ (set_looping loops (set_playing len (set_samples 0 c))))))).

Definition no_free_channels : option string := Some "No free channels available"%string.

(** Automatic assignment, when [reserved_channels] is within the channel
    array and the chunk keeps at least one frame: the chunk is bound to the
    first channel from [reserved_channels] on that is not playing, whose
    index is returned; when there is none, the result is -1, the error is
    set and no channel changes. *)
Lemma play_auto_run (m : Mixer) (sdl_ticks p loops ticks : Z) (ch : Mix_Chunk) :
  wf_registry m -> 0 <= reserved_channels m <= num_channels m ->
  p <> NULL -> heap m !! p = Some ch ->
  0 < frame_width m < 2 ^ 32 -> 0 <= alen ch < 2 ^ 31 ->
  frame_width m <= alen ch ->
  let len := alen ch - alen ch mod frame_width m in
  let m1 := set_heap (<[p := with_alen len ch]> (heap m)) m in
  exists r,
    reserved_channels m <= r <= num_channels m /\
    all_playing m (reserved_channels m) r /\
    ((r < num_channels m /\
      exists c, mix_channel m !! Z.to_nat r = Some c /\ is_playing c = false /\
                Mix_PlayChannelTimed sdl_ticks (-1) p loops ticks m
                = Ok (r, st m1 r (bound sdl_ticks p len loops ticks c) (log m)))
     \/
     (r = num_channels m /\
      Mix_PlayChannelTimed sdl_ticks (-1) p loops ticks m
      = Ok (-1, set_error no_free_channels m1))).
Proof.
  intros Hwf Hres Hp Hch Hfw Hlen Hframe len m1.
  assert (Hmod : 0 <= alen ch mod frame_width m < frame_width m)
    by (apply Z.mod_pos_bound; lia).
  assert (Hlen1 : 0 < len < 2 ^ 31).
  { unfold len. pose proof (Z.mod_le (alen ch) (frame_width m)).
    pose proof (Z.div_mod (alen ch) (frame_width m)).
    assert (1 <= alen ch / frame_width m) by (apply Z.div_le_lower_bound; lia).
    nia. }
  assert (Hwf1 : wf_registry m1) by exact Hwf.
  destruct (first_free_run m1 (num_channels m) Hwf1 eq_refl
              (Z.to_nat (num_channels m - reserved_channels m))
              (reserved_channels m) ltac:(lia) eq_refl)
    as (r & Hrun & Hle & Hall & Hr).
  assert (Hcheck : checkchunkintegral p m = Ok (len, m1)).
  { rewrite (checkchunkintegral_run m p ch) by (assumption || lia).
    fold len. now rewrite to_int_small by lia. }
  exists r. split; [ destruct Hr as [Hr | [Hr | Hr]]; lia | ].
  split; [ exact Hall | ].
  destruct Hr as [(Hlt & c & Hc & Hidle) | [-> | Hr]]; [ left | right | lia ].
  - split; [ exact Hlt | ]. exists c. split; [ exact Hc | ]. split; [ exact Hidle | ].
    unfold Mix_PlayChannelTimed.
    destruct (p =? NULL) eqn:E; [ apply Z.eqb_eq in E; contradiction | ].
    rewrite bind_run, Hcheck.
    destruct (len =? 0) eqn:E0; [ lia | ].
    unfold gets. rewrite !bind_run. cbn [Z.eqb Pos.eqb].
    rewrite !bind_run.
    change (num_channels m1) with (num_channels m).
    change (reserved_channels m1) with (reserved_channels m).
    rewrite Hrun.
    destruct (r =? num_channels m) eqn:E1; [ lia | ]. cbn [ret].
    destruct (0 <=? r) eqn:E2; [ | lia ].
    destruct (r <? num_channels m) eqn:E3; [ | lia ]. cbn [andb when].
    assert (Hv : valid_index m1 r) by (apply wf_valid_index; [ exact Hwf1 | cbn; lia ]).
    rewrite <- (st_start m1 r c Hc) at 1.
    rewrite !bind_run, (deref_st _ _ _ _ _ (with_alen len ch))
      by (cbn; apply lookup_insert_eq).
    mrun. cbn [alen with_alen]. rewrite to_int_small by lia. reflexivity.
  - split; [ reflexivity | ].
    unfold Mix_PlayChannelTimed.
    destruct (p =? NULL) eqn:E; [ apply Z.eqb_eq in E; contradiction | ].
    rewrite bind_run, Hcheck.
    destruct (len =? 0) eqn:E0; [ lia | ].
    unfold gets. rewrite !bind_run. cbn [Z.eqb Pos.eqb].
    rewrite !bind_run.
    change (num_channels m1) with (num_channels m).
    change (reserved_channels m1) with (reserved_channels m).
    rewrite Hrun.
    rewrite Z.eqb_refl. unfold SDL_SetError, modify. rewrite !bind_run. cbn [ret].
    destruct ((0 <=? -1) && (-1 <? num_channels m)) eqn:E1; [ discriminate E1 | ].
    reflexivity.
Qed.

(** ** What the callback reads *)


(** A channel that has just been bound to a chunk has its cursor at the
    start of the chunk. *)
Lemma bound_in_chunk (h : gmap Z Mix_Chunk) sdl_ticks p loops ticks (ch : Mix_Chunk) c :
  h !! p = Some ch -> 0 < alen ch < 2 ^ 31 ->
  in_chunk h (bound sdl_ticks p (alen ch) loops ticks c).
Proof.
  intros Hch Hlen _. exists ch. split; [ exact Hch | ]. split; [ exact Hlen | ].
  unfold cursor_in. cbn. lia.
Qed.

Definition bad_frame : option string := Some "Tried to play a chunk with a bad frame"%string.

(** A chunk shorter than one frame (as [checkchunkintegral] measures frames)
    is truncated to length 0 and refused, on whatever channel: the result is
    -1, the error is set, no channel changes. *)
Lemma play_rejects_short_chunk (m : Mixer) (sdl_ticks which p loops ticks : Z)
    (ch : Mix_Chunk) :
  p <> NULL -> heap m !! p = Some ch ->
  0 < frame_width m < 2 ^ 32 -> 0 <= alen ch < frame_width m ->
  Mix_PlayChannelTimed sdl_ticks which p loops ticks m
  = Ok (-1, set_error bad_frame (set_heap (<[p := with_alen 0 ch]> (heap m)) m)).
Proof.
  intros Hp Hch Hfw Hlen. unfold Mix_PlayChannelTimed.
  destruct (p =? NULL) eqn:E; [ apply Z.eqb_eq in E; contradiction | ].
  rewrite bind_run, (checkchunkintegral_run m p ch) by (assumption || lia).
  rewrite Z.mod_small, Z.sub_diag by lia. reflexivity.
Qed.

(** * More of mixer.c: the rest of the channel interface *)

(** ** Expiry, fade-in, chunk and master volume *)



Definition Mix_FadeInChannelTimed (sdl_ticks which chunk_ loops ms ticks : Z) : M Z :=
  if chunk_ =? NULL then ret (-1)
  else
    ok <- checkchunkintegral chunk_ ;;
    if ok =? 0 then
      _ <- SDL_SetError "Tried to play a chunk with a bad frame" ;; ret (-1)
    else
      n <- gets num_channels ;;
      which <- (if which =? -1 then
                  r <- gets reserved_channels ;;
                  i <- first_free (Z.to_nat (n - r)) r n ;;
                  if i =? n then ret (-1) else ret i
                else
                  p <- Mix_Playing which ;;
                  when (negb (p =? 0)) (_Mix_channel_done_playing which) ;;
                  ret which) ;;
      when ((0 <=? which) && (which <? n))
           (ch <- deref chunk_ ;;
            upd which (set_samples 0) ;;
            upd which (set_playing (to_int (alen ch))) ;;
            upd which (set_looping loops) ;;
            upd which (set_chunk chunk_) ;;
            upd which (set_paused 0) ;;
            c <- load which ;;
            when (fading_eqb (fading c) MIX_NO_FADING)
                 (upd which (set_fade_volume_reset (volume c))) ;;
            upd which (set_fading MIX_FADING_IN) ;;
            upd which (set_fade_volume (volume c)) ;;
            upd which (set_volume 0) ;;
            upd which (set_fade_length (u64 ms)) ;;
            upd which (set_ticks_fade sdl_ticks) ;;
            upd which (set_start_time sdl_ticks) ;;
            upd which (set_expire (if 0 <? ticks then u64 (sdl_ticks + ticks) else 0))) ;;
      ret which.

Definition Mix_FadeInChannel (sdl_ticks channel chunk_ loops ms : Z) : M Z :=
  Mix_FadeInChannelTimed sdl_ticks channel chunk_ loops ms (-1).

Definition set_cvolume (p v : Z) : M unit :=
  ch <- deref p ;;
  modify (fun m => set_heap (<[p := mkChunk (allocated ch) (abuf ch) (alen ch) v]> (heap m)) m).

Definition Mix_VolumeChunk (chunk_ vol : Z) : M Z :=
  if chunk_ =? NULL then ret (-1)
  else
    ch <- deref chunk_ ;;
    let prev_volume := cvolume ch in
    when (0 <=? vol)
         (set_cvolume chunk_ (if MIX_MAX_VOLUME <? vol then MIX_MAX_VOLUME else vol)) ;;
    ret prev_volume.

Definition Mix_MasterVolume (vol : Z) : M Z :=
  prev_volume <- gets master_volume ;;
  if vol <? 0 then ret prev_volume
  else
    modify (set_master_volume (if MIX_MAX_VOLUME <? vol then MIX_MAX_VOLUME else vol)) ;;
    ret prev_volume.

(** ** Bounds-checked queries *)

Definition Mix_FadingChannel (which : Z) : M Mix_Fading :=
  n <- gets num_channels ;;
  if (which <? 0) || (n <=? which) then ret MIX_NO_FADING
  else c <- load which ;; ret (fading c).

Definition Mix_GetChunk (channel : Z) : M Z :=
  n <- gets num_channels ;;
  if (0 <=? channel) && (channel <? n) then c <- load channel ;; ret (chunk c)
  else ret NULL.

(** ** Pause and resume *)

(** [if (Mix_Playing(i)) mix_channel[i].paused = sdl_ticks;] *)
Definition pause_channel (sdl_ticks i : Z) : M unit :=
  p <- Mix_Playing i ;;
  when (negb (p =? 0)) (upd i (set_paused sdl_ticks)).

Definition Mix_Pause (sdl_ticks which : Z) : M unit :=
  n <- gets num_channels ;;
  if which =? -1 then For_ 0 n (pause_channel sdl_ticks)
  else when (which <? n) (pause_channel sdl_ticks which).

(** The body of both branches of [Mix_Resume]. *)
Definition resume_channel (sdl_ticks i : Z) : M unit :=
  p <- Mix_Playing i ;;
  when (negb (p =? 0))
       (c <- load i ;;
        when (0 <? expire c)
             (upd i (set_expire (u64 (expire c + u64 (sdl_ticks - paused c))))) ;;
        upd i (set_paused 0)).

Definition Mix_Resume (sdl_ticks which : Z) : M unit :=
  n <- gets num_channels ;;
  if which =? -1 then For_ 0 n (resume_channel sdl_ticks)
  else when (which <? n) (resume_channel sdl_ticks which).

Definition Mix_Paused (which : Z) : M Z :=
  n <- gets num_channels ;;
  if which <? 0 then
    For 0 n (fun i status =>
               p <- Mix_Playing i ;;
               c <- load i ;;
               ret (if negb (p =? 0) && negb (paused c =? 0) then status + 1 else status)) 0
  else if which <? n then
    p <- Mix_Playing which ;;
    c <- load which ;;
    ret (if negb (p =? 0) && negb (paused c =? 0) then 1 else 0)
  else ret 0.

(** ** Operations on groups *)

(** [for (i = 0; i < num_channels; ++i) if (mix_channel[i].tag == tag) op(i);] *)
Definition for_group (tag_ : Z) (op : Z -> M unit) : M unit :=
  n <- gets num_channels ;;
  For_ 0 n (fun i => c <- load i ;; when (tag c =? tag_) (op i)).

Definition Mix_HaltGroup (tag_ : Z) : M unit := for_group tag_ Mix_HaltChannel.

Definition Mix_PauseGroup (sdl_ticks tag_ : Z) : M unit :=
  for_group tag_ (Mix_Pause sdl_ticks).

Definition Mix_ResumeGroup (sdl_ticks tag_ : Z) : M unit :=
  for_group tag_ (Mix_Resume sdl_ticks).


(** [for (; from <= to; ++from) status &= Mix_GroupChannel(from, tag);] *)
Definition Mix_GroupChannels (from to tag_ : Z) : M bool :=
  For from (to + 1) (fun i status =>
                       ok <- Mix_GroupChannel i tag_ ;;
                       ret (status && ok)) true.

(** The scan of [Mix_GroupAvailable], which returns from inside the loop. *)
Fixpoint group_available_from (fuel : nat) (i n tag_ : Z) : M Z :=
  match fuel with
  | O => ret (-1)
  | S fuel' =>
      if i <? n then
        c <- load i ;;
        p <- Mix_Playing i ;;
        if ((tag_ =? -1) || (tag_ =? tag c)) && (p =? 0) then ret i
        else group_available_from fuel' (i + 1) n tag_
      else ret (-1)
  end.

Definition Mix_GroupAvailable (tag_ : Z) : M Z :=
  n <- gets num_channels ;;
  group_available_from (Z.to_nat n) 0 n tag_.

Definition Mix_GroupCount (tag_ : Z) : M Z :=
  n <- gets num_channels ;;
  if tag_ =? -1 then ret n
  else
    For 0 n (fun i count =>
               c <- load i ;;
               ret (if tag c =? tag_ then count + 1 else count)) 0.

(** ** Removing one effect *)

(** The walk of [_Mix_remove_effect]: the nodes before the first one whose
    callback is [f], that node, and the nodes after it. *)
Fixpoint find_effect (f : Z) (cur : list effect_info)
    : option (list effect_info * effect_info * list effect_info) :=
  match cur with
  | [] => None
  | x :: next =>
      if callback x =? f then Some ([], x, next)
      else match find_effect f next with
           | Some (prev, y, rest) => Some (x :: prev, y, rest)
           | None => None
           end
  end.

Definition _Mix_remove_effect (channel : Z) (e : option chain) (f : Z) : M bool :=
  match e with
  | None => SDL_SetError "Internal error"
  | Some e =>
      l <- read_chain e ;;
      match find_effect f l with
      | Some (prev, cur, next) =>
          when (negb (done_callback cur =? NULL))
               (emit (EffectDone (done_callback cur) channel (udata cur))) ;;
          write_chain e (prev ++ next) ;;
          ret true
      | None => SDL_SetError "No such effect registered"
      end
  end.

Definition _Mix_UnregisterEffect_locked (channel f : Z) : M bool :=
  e <- chain_of channel ;;
  match e with
  | None => ret false
  | Some e => _Mix_remove_effect channel (Some e) f
  end.

Definition Mix_UnregisterEffect := _Mix_UnregisterEffect_locked.

(** ** Freeing a chunk, closing the mixer *)

(** [SDL_free(chunk)]: the chunk object is gone.  ([chunk->abuf] is freed
    with it when [allocated]; sample memory is not part of the model.) *)
Definition free_chunk (p : Z) : M unit :=
  modify (fun m => set_heap (delete p (heap m)) m).

Definition Mix_FreeChunk (chunk_ : Z) : M unit :=
  when (negb (chunk_ =? NULL))
       (cs <- gets mix_channel ;;
        n <- gets num_channels ;;
        match cs with
        | [] => ret tt   (* mix_channel == NULL *)
        | _ => For_ 0 n (fun i => c <- load i ;;
                                  when (chunk_ =? chunk c) (Mix_HaltChannel_locked i))
        end ;;
        free_chunk chunk_).

Definition set_audio_opened v m := mkMixer v (mixer_format m) (mixer_channels m) (mix_channel m) (posteffects m) (num_channels m) (reserved_channels m) (channel_done_callback m) (master_volume m) (heap m) (error m) (log m).

(** [Mix_CloseAudio], as far as the channel registry goes: the music, the
    built-in effects' tables, the audio stream and device, the scratch buffer
    and the decoder list that the last close also releases are outside the
    model. *)
Definition Mix_CloseAudio : M unit :=
  opened <- gets audio_opened ;;
  when (negb (opened =? 0))
       (when (opened =? 1)
             (n <- gets num_channels ;;
              For_ 0 n (fun i => _ <- Mix_UnregisterAllEffects i ;; ret tt) ;;
              _ <- Mix_UnregisterAllEffects MIX_CHANNEL_POST ;;
              Mix_HaltChannel (-1) ;;
              modify (set_mix_channel [])) ;;
        opened' <- gets audio_opened ;;
        modify (set_audio_opened (opened' - 1))).

(** ** Chunks over memory the caller owns *)

(** [Mix_QuickLoad_RAW]; [ptr] is what [SDL_malloc] returns for the chunk
    object, [NULL] when it fails. *)
Definition Mix_QuickLoad_RAW (ptr : Z) (mem len : Z) : M Z :=
  opened <- gets audio_opened ;;
  if opened =? 0 then
    _ <- SDL_SetError "Audio device hasn't been opened" ;; ret NULL
  else if ptr =? NULL then ret NULL
  else
    modify (new_chunk ptr (mkChunk 0 mem len MIX_MAX_VOLUME)) ;;
    ret ptr.

(** ** The list of chunk decoders *)

(** The static array [chunk_decoders] with [num_decoders] is a list of
    names.  [SDL_strcmp(a, b) == 0] is equality of the strings. *)
Definition Mix_GetNumChunkDecoders (chunk_decoders : list string) : Z :=
  Z.of_nat (length chunk_decoders).

Definition Mix_GetChunkDecoder (chunk_decoders : list string) (index : Z) : option string :=
  if (index <? 0) || (Z.of_nat (length chunk_decoders) <=? index) then None
  else chunk_decoders !! Z.to_nat index.

(** The scan of [add_chunk_decoder] for a name already in the list. *)
Fixpoint has_decoder_exact (chunk_decoders : list string) (decoder : string) : bool :=
  match chunk_decoders with
  | [] => false
  | d :: rest => if String.eqb d decoder then true else has_decoder_exact rest decoder
  end.

(** [realloc_ok] says whether [SDL_realloc] returns a block. *)
Definition add_chunk_decoder (realloc_ok : bool) (chunk_decoders : list string)
    (decoder : string) : list string :=
  if has_decoder_exact chunk_decoders decoder then chunk_decoders
  else if realloc_ok then chunk_decoders ++ [decoder]
  else chunk_decoders.

(** ** Loops that visit every channel *)

Section Sweep.
Context {A : Type}.
Variable m : Mixer.
(** The loop body, and what it does to the channel it visits: the new
    channel, the events and the new accumulator. *)
Variable body : Z -> A -> M A.
Variable f : Z -> Mix_Channel -> Mix_Channel.
Variable ev : Z -> Mix_Channel -> list event.
Variable g : Z -> Mix_Channel -> A -> A.

Hypothesis Hwf : wf_registry m.
Hypothesis Hbody :
  forall cs l i c a,
    length cs = length (mix_channel m) -> 0 <= i < num_channels m ->
    cs !! Z.to_nat i = Some c ->
    body i a (set_log l (set_mix_channel cs m))
    = Ok (g i c a, set_log (l ++ ev i c) (set_mix_channel (<[Z.to_nat i := f i c]> cs) m)).

Fixpoint chans_from (i : Z) (rest : list Mix_Channel) : list Mix_Channel :=
  match rest with
  | [] => []
  | c :: r => f i c :: chans_from (i + 1) r
  end.

Fixpoint events_from (i : Z) (rest : list Mix_Channel) : list event :=
  match rest with
  | [] => []
  | c :: r => ev i c ++ events_from (i + 1) r
  end.

Fixpoint acc_from (i : Z) (rest : list Mix_Channel) (a : A) : A :=
  match rest with
  | [] => a
  | c :: r => acc_from (i + 1) r (g i c a)
  end.

Lemma chans_from_length i rest : length (chans_from i rest) = length rest.
Proof. revert i. induction rest as [|c r IH]; intros i; cbn; [ reflexivity | now rewrite IH ]. Qed.

Lemma chans_from_lookup i rest j :
  chans_from i rest !! j = f (i + Z.of_nat j) <$> rest !! j.
Proof.
  revert i j. induction rest as [|c r IH]; intros i j; [ reflexivity | ].
  destruct j as [|j]; cbn.
  - now rewrite Z.add_0_r.
  - rewrite IH. do 2 f_equal. lia.
Qed.

Lemma sweep_part :
  forall (n : nat) (done rest : list Mix_Channel) (l : list event) (a : A),
    length (done ++ rest) = length (mix_channel m) ->
    (n <= length rest)%nat ->
    for_loop n (Z.of_nat (length done)) body a (set_log l (set_mix_channel (done ++ rest) m))
    = Ok (acc_from (Z.of_nat (length done)) (take n rest) a,
          set_log (l ++ events_from (Z.of_nat (length done)) (take n rest))
                  (set_mix_channel
                     (done ++ chans_from (Z.of_nat (length done)) (take n rest) ++ drop n rest)
                     m)).
Proof.
  induction n as [|n IH]; intros done rest l a Hlen Hn.
  - cbn. rewrite app_nil_r, drop_0. reflexivity.
  - destruct rest as [|c r]; [ cbn in Hn; lia | ]. cbn [for_loop].
    assert (Hc : (done ++ c :: r) !! Z.to_nat (Z.of_nat (length done)) = Some c).
    { rewrite Nat2Z.id. now rewrite list_lookup_middle. }
    rewrite bind_run, (Hbody _ _ _ c) by
      (try assumption; rewrite length_app in Hlen; cbn in Hlen;
       unfold wf_registry in Hwf; lia).
    rewrite Nat2Z.id.
    replace (<[length done := f (Z.of_nat (length done)) c]> (done ++ c :: r))
      with ((done ++ [f (Z.of_nat (length done)) c]) ++ r).
    2:{ rewrite insert_app_r_alt by lia. rewrite Nat.sub_diag. cbn.
        now rewrite <- app_assoc. }
    replace (Z.of_nat (length done) + 1)
      with (Z.of_nat (length (done ++ [f (Z.of_nat (length done)) c])))
      by (rewrite length_app; cbn; lia).
    rewrite IH.
    + cbn [take drop acc_from events_from chans_from].
      replace (Z.of_nat (length (done ++ [f (Z.of_nat (length done)) c])))
        with (Z.of_nat (length done) + 1) by (rewrite length_app; cbn; lia).
      rewrite <- !app_assoc. reflexivity.
    + rewrite !length_app in *. cbn in *. lia.
    + cbn in Hn. lia.
Qed.

(** The loop over all the channels. *)
Lemma sweep_all (l : list event) (a : A) :
  For 0 (num_channels m) body a (set_log l m)
  = Ok (acc_from 0 (mix_channel m) a,
        set_log (l ++ events_from 0 (mix_channel m))
                (set_mix_channel (chans_from 0 (mix_channel m)) m)).
Proof.
  unfold For.
  pose proof (sweep_part (length (mix_channel m)) [] (mix_channel m) l a eq_refl (le_n _)) as H.
  cbn [length app] in H. change (Z.of_nat 0) with 0 in H.
  rewrite firstn_all, drop_all, app_nil_r in H.
  replace (Z.to_nat (num_channels m - 0)) with (length (mix_channel m))
    by (unfold wf_registry in Hwf; lia).
  replace (set_log l m) with (set_log l (set_mix_channel (mix_channel m) m))
    by now destruct m.
  exact H.
Qed.
End Sweep.

Lemma st_of_list m cs l i c :
  cs !! Z.to_nat i = Some c ->
  set_log l (set_mix_channel cs m) = st (set_mix_channel cs m) i c l.
Proof. intros H. unfold st. cbn. now rewrite list_insert_id. Qed.

Lemma valid_index_list m cs i :
  wf_registry m -> length cs = length (mix_channel m) -> 0 <= i < num_channels m ->
  valid_index (set_mix_channel cs m) i.
Proof. unfold wf_registry, valid_index. cbn. lia. Qed.

(** ** Concrete runs *)

(** A chunk of two frames of 16-bit stereo, and an opened 16-bit stereo mixer
    of eight channels that holds it. *)
Definition two_frames : Mix_Chunk := mkChunk 0 5000 8 MIX_MAX_VOLUME.

Definition loaded_mixer : Mixer := new_chunk 1000 two_frames (opened_mixer 32784 2 8).

(** Channel 0 playing the chunk since tick 5 and paused at tick 10. *)
Definition paused_mixer : Mixer :=
  default playing_mixer (exec (Mix_Pause 10 0) playing_mixer).

(** Channel 0 playing the chunk since tick 5 for at most 20 ticks. *)
Definition timed_mixer : Mixer :=
  default loaded_mixer (exec (Mix_PlayChannelTimed 5 0 1000 0 20) loaded_mixer).

(** Channel 0 fading in on the chunk from tick 5 over 100 ticks. *)
Definition fading_in_mixer : Mixer :=
  default loaded_mixer (exec (Mix_FadeInChannelTimed 5 0 1000 0 100 (-1)) loaded_mixer).

Definition fading_in_channel : Mix_Channel :=
  mkChannel 1000 8 0 0 0 0 (-1) 0 5 MIX_FADING_IN 128 128 100 5 [].

(** Two effects registered on channel 3. *)
Definition effects_mixer : Mixer :=
  default loaded_mixer
    (exec (_ <- Mix_RegisterEffect true 3 11 12 13 ;; Mix_RegisterEffect true 3 21 22 23)
          loaded_mixer).

(** A check, on a concrete registry, that the bytes left on every channel are
    bytes of its chunk. *)
Definition in_chunkb (h : gmap Z Mix_Chunk) (c : Mix_Channel) : bool :=
  if 0 <? playing c then
    match h !! chunk c with
    | Some ch => (0 <? alen ch) && (alen ch <? 2 ^ 31) && (0 <=? samples c)
                 && (samples c + playing c <=? alen ch)
    | None => false
    end
  else true.

Lemma in_chunk_checked (m : Mixer) :
  forallb (in_chunkb (heap m)) (mix_channel m) = true ->
  forall j c, mix_channel m !! j = Some c -> in_chunk (heap m) c.
Proof.
  intros H j c Hc Hp.
  assert (Hin : In c (mix_channel m)).
  { apply (proj1 (list_elem_of_In _ _)). eapply list_elem_of_lookup_2. exact Hc. }
  pose proof (proj1 (forallb_forall _ _) H c Hin) as Hb.
  unfold in_chunkb in Hb.
  destruct (0 <? playing c) eqn:E; [ | lia ].
  destruct (heap m !! chunk c) as [ch|]; [ | discriminate ].
  apply andb_true_iff in Hb. destruct Hb as [Hb H4].
  apply andb_true_iff in Hb. destruct Hb as [Hb H3].
  apply andb_true_iff in Hb. destruct Hb as [H1 H2].
  exists ch. split; [ reflexivity | ]. unfold cursor_in. lia.
Qed.

Lemma renderable_checked (m : Mixer) :
  forallb (in_chunkb (heap m)) (mix_channel m) = true ->
  forall j c, mix_channel m !! j = Some c -> renderable (heap m) c.
Proof.
  intros H j c Hc. apply in_chunk_renderable. now apply (in_chunk_checked m H j).
Qed.

(** Side conditions on concrete mixers. *)
Ltac side :=
  first
    [ apply renderable_checked; vm_compute; reflexivity
    | apply in_chunk_checked; vm_compute; reflexivity
    | reflexivity
    | closed
    | vm_compute; repeat split; congruence
    | vm_compute; repeat constructor; congruence ].


(** ** Halting one channel *)

Lemma halted_halted c : halted (halted c) = halted c.
Proof.
  unfold halted, is_playing.
  destruct (0 <? playing c) eqn:Ep; destruct (looping c =? 0) eqn:El; cbn;
    destruct (fading c); cbn; rewrite ?Ep, ?El; reflexivity.
Qed.

Lemma halted_not_playing c : is_playing (halted c) = false.
Proof.
  unfold halted, is_playing.
  destruct (0 <? playing c) eqn:Ep; destruct (looping c =? 0) eqn:El; cbn;
    destruct (fading c); cbn; rewrite ?Ep, ?El; reflexivity.
Qed.

(** X1: halting a channel in range stops it: afterwards it is not playing,
    has no deadline and no fade, its volume is the one from before the fade
    when it was fading and its own otherwise; the finished-callback is called
    and the effects are released exactly when it was playing.  Halting it
    again changes nothing and calls nothing. *)
Theorem halt_channel_stops (m : Mixer) (which : Z) (c : Mix_Channel) :
  wf_registry m -> 0 <= which < num_channels m ->
  mix_channel m !! Z.to_nat which = Some c ->
  exists c' m',
    Mix_HaltChannel which m = Ok (tt, m') /\
    m' = st m which c' (log m ++ if is_playing c
                                 then finished_events m which ++ release_events which (effects c)
                                 else []) /\
    is_playing c' = false /\ playing c' = (if is_playing c then 0 else playing c) /\
    expire c' = 0 /\ fading c' = MIX_NO_FADING /\
    volume c' = (if fading_eqb (fading c) MIX_NO_FADING
                 then volume c else fade_volume_reset c) /\
    effects c' = (if is_playing c then [] else effects c) /\
    chunk c' = chunk c /\ tag c' = tag c /\ paused c' = paused c /\
    Mix_Playing which m' = Ok (0, m') /\
    Mix_HaltChannel which m' = Ok (tt, m').
Proof.
  intros Hwf Hi Hc.
  assert (Hv : valid_index m which) by now apply wf_valid_index.
  exists (halted c), (st m which (halted c) (log m ++ halt_events m which c)).
  split.
  { rewrite <- (st_start m which c Hc) at 1. apply HaltChannel_st; [ exact Hv | lia ]. }
  split; [ reflexivity | ].
  split; [ apply halted_not_playing | ].
  split; [ unfold halted; destruct (is_playing c); cbn; destruct (fading c); reflexivity | ].
  split; [ unfold halted; destruct (is_playing c); cbn; destruct (fading c); reflexivity | ].
  split; [ reflexivity | ].
  split; [ unfold halted; destruct (is_playing c); cbn; destruct (fading c); reflexivity | ].
  split; [ unfold halted; destruct (is_playing c); cbn; destruct (fading c); reflexivity | ].
  split; [ unfold halted; destruct (is_playing c); cbn; destruct (fading c); reflexivity | ].
  split; [ unfold halted; destruct (is_playing c); cbn; destruct (fading c); reflexivity | ].
  split; [ unfold halted; destruct (is_playing c); cbn; destruct (fading c); reflexivity | ].
  split.
  - rewrite Mix_Playing_st by (exact Hv || lia). now rewrite halted_not_playing.
  - rewrite HaltChannel_st by (exact Hv || lia).
    rewrite halted_halted. unfold halt_events at 2. rewrite halted_not_playing.
    now rewrite app_nil_r.
Qed.

Lemma halt_channel_stops_witness :
  exists c' m',
    Mix_HaltChannel 0 playing_mixer = Ok (tt, m') /\
    m' = st playing_mixer 0 c' (log playing_mixer ++ if is_playing playing_channel
                                 then finished_events playing_mixer 0 ++ release_events 0
                                     (effects playing_channel)
                                 else []) /\
    is_playing c' = false /\
    playing c' = (if is_playing playing_channel then 0 else playing playing_channel) /\
    expire c' = 0 /\ fading c' = MIX_NO_FADING /\
    volume c' = (if fading_eqb (fading playing_channel) MIX_NO_FADING
                 then volume playing_channel else fade_volume_reset playing_channel) /\
    effects c' = (if is_playing playing_channel then [] else effects playing_channel) /\
    chunk c' = chunk playing_channel /\ tag c' = tag playing_channel /\
    paused c' = paused playing_channel /\
    Mix_Playing 0 m' = Ok (0, m') /\
    Mix_HaltChannel 0 m' = Ok (tt, m').
Proof.
  apply (halt_channel_stops playing_mixer 0 playing_channel); side.
Defined.

(** ** Pausing and resuming one channel *)

Definition paused_at (sdl_ticks : Z) (c : Mix_Channel) : Mix_Channel :=
  if is_playing c then set_paused sdl_ticks c else c.

Definition resumed_at (sdl_ticks : Z) (c : Mix_Channel) : Mix_Channel :=
  if is_playing c
  then set_paused 0 (if 0 <? expire c
                     then set_expire (u64 (expire c + u64 (sdl_ticks - paused c))) c
                     else c)
  else c.

Lemma pause_channel_st m0 i c l t :
  valid_index m0 i -> i < num_channels m0 ->
  pause_channel t i (st m0 i c l) = Ok (tt, st m0 i (paused_at t c) l).
Proof.
  intros Hv Hn. unfold pause_channel, paused_at.
  rewrite bind_run, Mix_Playing_st by assumption.
  destruct (is_playing c); cbn [Z.eqb negb]; mrun; reflexivity.
Qed.

Lemma resume_channel_st m0 i c l t :
  valid_index m0 i -> i < num_channels m0 ->
  resume_channel t i (st m0 i c l) = Ok (tt, st m0 i (resumed_at t c) l).
Proof.
  intros Hv Hn. unfold resume_channel, resumed_at.
  rewrite bind_run, Mix_Playing_st by assumption.
  destruct (is_playing c); cbn [Z.eqb negb]; mrun; [ | reflexivity ].
  destruct (0 <? expire c); mrun; reflexivity.
Qed.

Lemma Mix_Paused_st m0 i c l :
  valid_index m0 i -> i < num_channels m0 ->
  Mix_Paused i (st m0 i c l)
  = Ok (if is_playing c && negb (paused c =? 0) then 1 else 0, st m0 i c l).
Proof.
  intros Hv Hn. unfold Mix_Paused, gets. rewrite bind_run.
  cbn [num_channels st set_log set_mix_channel].
  change (set_log l (set_mix_channel (<[Z.to_nat i:=c]> (mix_channel m0)) m0))
    with (st m0 i c l).
  destruct (i <? 0) eqn:E; [ destruct Hv; lia | ].
  destruct (i <? num_channels m0) eqn:E'; [ | lia ].
  rewrite bind_run, Mix_Playing_st by assumption. mrun.
  destruct (is_playing c); reflexivity.
Qed.

Lemma Mix_Pause_st m0 i c l t :
  valid_index m0 i -> i < num_channels m0 ->
  Mix_Pause t i (st m0 i c l) = Ok (tt, st m0 i (paused_at t c) l).
Proof.
  intros Hv Hn. unfold Mix_Pause, gets. rewrite bind_run.
  cbn [num_channels st set_log set_mix_channel].
  change (set_log l (set_mix_channel (<[Z.to_nat i:=c]> (mix_channel m0)) m0))
    with (st m0 i c l).
  destruct (i =? -1) eqn:E; [ destruct Hv; lia | ].
  destruct (i <? num_channels m0) eqn:E'; [ | lia ].
  now apply pause_channel_st.
Qed.

Lemma Mix_Resume_st m0 i c l t :
  valid_index m0 i -> i < num_channels m0 ->
  Mix_Resume t i (st m0 i c l) = Ok (tt, st m0 i (resumed_at t c) l).
Proof.
  intros Hv Hn. unfold Mix_Resume, gets. rewrite bind_run.
  cbn [num_channels st set_log set_mix_channel].
  change (set_log l (set_mix_channel (<[Z.to_nat i:=c]> (mix_channel m0)) m0))
    with (st m0 i c l).
  destruct (i =? -1) eqn:E; [ destruct Hv; lia | ].
  destruct (i <? num_channels m0) eqn:E'; [ | lia ].
  now apply resume_channel_st.
Qed.

(** X2: pausing a playing channel at tick [p] and resuming it at tick [r]
    moves its deadline, when it has one, later by [r - p] and changes
    nothing else; in between [Mix_Paused] reports it as paused, afterwards
    not.  On a channel that is not playing both calls do nothing. *)
Theorem pause_then_resume (m : Mixer) (which p r : Z) (c : Mix_Channel) :
  wf_registry m -> 0 <= which < num_channels m ->
  mix_channel m !! Z.to_nat which = Some c ->
  0 < p <= r -> r < 2 ^ 63 -> 0 <= expire c < 2 ^ 63 ->
  exists m1 m2,
    Mix_Pause p which m = Ok (tt, m1) /\
    Mix_Paused which m1 = Ok (if is_playing c then 1 else 0, m1) /\
    Mix_Resume r which m1 = Ok (tt, m2) /\
    Mix_Paused which m2 = Ok (0, m2) /\
    m2 = st m which
            (if is_playing c
             then set_paused 0 (if 0 <? expire c
                                then set_expire (expire c + (r - p)) c else c)
             else c)
            (log m).
Proof.
  intros Hwf Hi Hc Hpr Hr He.
  assert (Hv : valid_index m which) by now apply wf_valid_index.
  assert (Hn : which < num_channels m) by lia.
  exists (st m which (paused_at p c) (log m)),
         (st m which (resumed_at r (paused_at p c)) (log m)).
  split; [ rewrite <- (st_start m which c Hc) at 1; now apply Mix_Pause_st | ].
  split.
  { rewrite Mix_Paused_st by assumption. unfold paused_at.
    destruct (is_playing c) eqn:Ep.
    - change (is_playing (set_paused p c)) with (is_playing c). rewrite Ep.
      cbn [paused set_paused]. destruct (p =? 0) eqn:E0; [ lia | reflexivity ].
    - rewrite Ep. reflexivity. }
  split; [ now apply Mix_Resume_st | ].
  split.
  { rewrite Mix_Paused_st by assumption. unfold resumed_at, paused_at.
    destruct (is_playing c) eqn:Ep.
    - change (is_playing (set_paused p c)) with (is_playing c). rewrite Ep.
      cbn [expire set_paused].
      destruct (0 <? expire c); cbn [paused set_paused set_expire Z.eqb negb];
        now rewrite andb_false_r.
    - rewrite !Ep. reflexivity. }
  f_equal. unfold resumed_at, paused_at.
  destruct (is_playing c) eqn:Ep; [ | now rewrite Ep ].
  change (is_playing (set_paused p c)) with (is_playing c). rewrite Ep.
  cbn [expire paused set_paused].
  destruct (0 <? expire c) eqn:Ee; [ | reflexivity ].
  rewrite (u64_small (r - p)) by lia. rewrite u64_small by lia.
  reflexivity.
Qed.

Lemma pause_then_resume_witness :
  exists m1 m2,
    Mix_Pause 10 0 playing_mixer = Ok (tt, m1) /\
    Mix_Paused 0 m1 = Ok (if is_playing playing_channel then 1 else 0, m1) /\
    Mix_Resume 30 0 m1 = Ok (tt, m2) /\
    Mix_Paused 0 m2 = Ok (0, m2) /\
    m2 = st playing_mixer 0
            (if is_playing playing_channel
             then set_paused 0 (if 0 <? expire playing_channel
                                then set_expire (expire playing_channel +
                                    (30 - 10)) playing_channel else playing_channel)
             else playing_channel)
            (log playing_mixer).
Proof.
  apply (pause_then_resume playing_mixer 0 10 30 playing_channel); side.
Defined.

(** ** What a tick leaves alone *)

(** The channel an event was issued for. *)
Definition channel_of (e : event) : Z :=
  match e with
  | ChannelFinished _ ch => ch
  | EffectDone _ ch _ => ch
  | EffectRun _ ch _ _ => ch
  | MixAudio ch _ _ _ _ _ => ch
  end.

Definition about (i : Z) (e : event) : Prop := channel_of e = i.

Lemma about_effect_events i n e : Forall (about i) (effect_events i n e).
Proof.
  apply List.Forall_forall. intros x Hx. unfold effect_events in Hx.
  apply in_map_iff in Hx. destruct Hx as (y & <- & _). reflexivity.
Qed.

Lemma about_effects_run ok i n e : Forall (about i) (effects_run ok i n e).
Proof.
  unfold effects_run. destruct ok; [ apply about_effect_events | constructor ].
Qed.

Lemma about_release_events i e : Forall (about i) (release_events i e).
Proof.
  apply List.Forall_forall. intros x Hx. unfold release_events in Hx.
  apply in_map_iff in Hx. destruct Hx as (y & <- & _). reflexivity.
Qed.

Lemma about_finished cb i : Forall (about i) (finished cb i).
Proof. unfold finished. destruct (cb =? NULL); repeat constructor. Qed.

(** Rendering keeps the settings of a channel; it can clear a fade and a
    deadline, when playback ends, but never sets one. *)
Definition kept (c c' : Mix_Channel) : Prop :=
  settings c' = settings c /\
  (fading c' = fading c \/ fading c' = MIX_NO_FADING) /\
  (expire c' = expire c \/ expire c' = 0).

Lemma kept_refl c : kept c c.
Proof. repeat split; now left. Qed.

Lemma kept_trans c1 c2 c3 : kept c1 c2 -> kept c2 c3 -> kept c1 c3.
Proof.
  intros (S1 & F1 & E1) (S2 & F2 & E2). repeat split.
  - congruence.
  - destruct F1, F2; (left; congruence) || (right; congruence).
  - destruct E1, E2; (left; congruence) || (right; congruence).
Qed.

Section Kept.
Variable malloc_ok : Z -> Z -> bool.
Variable h : gmap Z Mix_Chunk.
Variable cb : Z.
Variables i len mv : Z.

Local Abbreviation runs := (runs h cb i).

Ltac krun :=
  repeat first
    [ rewrite bind_run
    | rewrite upd_st by assumption
    | rewrite load_st by assumption
    | rewrite emit_st
    | rewrite DoEffects_st by assumption
    | rewrite done_playing_st by assumption
    | rewrite Mix_Volume_st by assumption
    | progress cbn [ret when negb andb orb fst snd] ].

(** The iteration of the first loop that ends playback. *)
Lemma play_loop_last fuel index vol x xch r x' evs :
  h !! chunk x = Some xch ->
  (0 <? playing x) && (index <? len) = true ->
  let mixable := if len - index <? playing x then len - index else playing x in
  let x1 := set_playing (playing x - mixable) (set_samples (samples x + mixable) x) in
  (playing x1 =? 0) && (looping x1 =? 0) = true ->
  let x2 := set_effects [] (set_expire 0 (set_fading MIX_NO_FADING x1)) in
  let vol2 := Z.quot (mv * (volume x2 * cvolume xch)) (MIX_MAX_VOLUME * MIX_MAX_VOLUME) in
  runs (play_loop malloc_ok fuel i len mv (index + mixable) vol2) x2 r x' evs ->
  runs (play_loop malloc_ok (S fuel) i len mv index vol) x r x'
       (effects_run (malloc_ok i index) i mixable (effects x)
        ++ [MixAudio i index (chunk x) (samples x) mixable vol]
        ++ finished cb i ++ release_events i (effects x) ++ evs).
Proof.
  intros Hx Hc mixable x1 Hd x2 vol2 Hrest m0 l Hm.
  pose proof Hm as (Hh & Hcb & Hv & Hn).
  cbn [play_loop]. krun. rewrite Hc. fold mixable. krun.
  fold x1. rewrite Hd. krun.
  rewrite (mixed_volume_st _ _ _ _ _ xch) by (assumption || now rewrite Hh).
  krun. fold x2. fold vol2. rewrite (Hrest m0 _ Hm).
  unfold finished_events, finished. rewrite Hcb.
  do 3 f_equal. cbn [effects set_expire set_fading set_playing set_samples x1].
  now rewrite <- !app_assoc.
Qed.

Lemma play_loop_kept :
  forall fuel index vol c ch,
    h !! chunk c = Some ch ->
    (Z.to_nat (len - index) < fuel)%nat ->
    exists r c' evs,
      runs (play_loop malloc_ok fuel i len mv index vol) c r c' evs /\
      kept c c' /\ Forall (about i) evs /\ index <= fst r.
Proof.
  induction fuel as [|fuel IH]; intros index vol c ch Hch Hfuel; [ lia | ].
  destruct ((0 <? playing c) && (index <? len)) eqn:Hcond.
  - apply andb_true_iff in Hcond as Hc. destruct Hc as [Hp Hi].
    apply Z.ltb_lt in Hp, Hi.
    set (mixable := if len - index <? playing c then len - index else playing c).
    assert (Hmix : 1 <= mixable <= playing c).
    { unfold mixable. destruct (len - index <? playing c) eqn:E; lia. }
    set (c1 := set_playing (playing c - mixable) (set_samples (samples c + mixable) c)).
    destruct ((playing c1 =? 0) && (looping c1 =? 0)) eqn:Hdone.
    + set (c2 := set_effects [] (set_expire 0 (set_fading MIX_NO_FADING c1))).
      set (vol2 := Z.quot (mv * (volume c2 * cvolume ch)) (MIX_MAX_VOLUME * MIX_MAX_VOLUME)).
      destruct (IH (index + mixable) vol2 c2 ch)
        as (r & c' & evs & Hruns & Hk & Hev & Hidx); [ exact Hch | lia | ].
      eexists r, c', _. split; [ | split; [ | split; [ | lia ] ] ].
      * apply (play_loop_last fuel index vol c ch r c' evs Hch Hcond Hdone Hruns).
      * apply (kept_trans c c2 c'); [ | exact Hk ].
        repeat split; now right.
      * apply Forall_app. split; [ apply about_effects_run | ].
        constructor; [ reflexivity | ].
        apply Forall_app. split; [ apply about_finished | ].
        apply Forall_app. split; [ apply about_release_events | exact Hev ].
    + destruct (IH (index + mixable) vol c1 ch)
        as (r & c' & evs & Hruns & Hk & Hev & Hidx); [ exact Hch | lia | ].
      eexists r, c', _. split; [ | split; [ | split; [ | lia ] ] ].
      * apply (play_loop_iter malloc_ok h cb i len mv fuel index vol c r c' evs Hcond Hdone Hruns).
      * apply (kept_trans c c1 c'); [ | exact Hk ]. repeat split; now left.
      * apply Forall_app. split; [ apply about_effects_run | ].
        constructor; [ reflexivity | exact Hev ].
  - exists (index, vol), c, [].
    split; [ | split; [ apply kept_refl | split; [ constructor | cbn; lia ] ] ].
    now apply play_loop_exit.
Qed.

Lemma wrap_loop_kept :
  forall fuel index vol c ch,
    h !! chunk c = Some ch -> 0 < alen ch < 2 ^ 31 ->
    (Z.to_nat (len - index) < fuel)%nat ->
    exists r c' evs,
      runs (wrap_loop malloc_ok fuel i len index vol) c r c' evs /\
      kept c c' /\ Forall (about i) evs.
Proof.
  induction fuel as [|fuel IH]; intros index vol c ch Hch Hlen Hfuel; [ lia | ].
  assert (Hint : to_int (alen ch) = alen ch) by (apply to_int_small; lia).
  destruct (negb (looping c =? 0) && (index <? len)) eqn:Hcond.
  - apply andb_true_iff in Hcond as Hc. destruct Hc as [_ Hi].
    apply Z.ltb_lt in Hi.
    set (remaining := if to_int (alen ch) <? len - index
                      then to_int (alen ch) else len - index).
    assert (Hrem : 1 <= remaining <= alen ch).
    { unfold remaining. rewrite Hint. destruct (alen ch <? len - index) eqn:E; lia. }
    set (c1 := if 0 <? looping c then set_looping (looping c - 1) c else c).
    set (c2 := set_playing (to_int (u32 (alen ch - remaining)))
                           (set_samples remaining c1)).
    assert (Hk2 : kept c c2).
    { unfold c2, c1. destruct (0 <? looping c); repeat split; now left. }
    destruct (IH (index + remaining) vol c2 ch) as (r & c' & evs & Hruns & Hk & Hev).
    { unfold c2, c1. now destruct (0 <? looping c). }
    { exact Hlen. }
    { lia. }
    eexists r, c', _. split; [ | split ].
    + apply (wrap_loop_iter malloc_ok h cb i len fuel index vol c ch r c' evs Hch Hcond Hruns).
    + apply (kept_trans c c2 c'); assumption.
    + apply Forall_app. split; [ apply about_effects_run | ].
      constructor; [ reflexivity | exact Hev ].
  - exists index, c, []. split; [ | split; [ apply kept_refl | constructor ] ].
    now apply wrap_loop_exit.
Qed.

Lemma render_kept c ch :
  h !! chunk c = Some ch -> 0 < alen ch < 2 ^ 31 ->
  exists c' evs,
    runs (render malloc_ok i len mv) c tt c' evs /\ kept c c' /\ Forall (about i) evs.
Proof.
  intros Hch Hlen.
  set (vol := Z.quot (mv * (volume c * cvolume ch)) (MIX_MAX_VOLUME * MIX_MAX_VOLUME)).
  destruct (play_loop_kept (S (Z.to_nat len)) 0 vol c ch Hch)
    as (r & c1 & e1 & H1 & K1 & A1 & Hidx); [ lia | ].
  assert (Hch1 : h !! chunk c1 = Some ch)
    by now rewrite (settings_chunk _ _ (proj1 K1)).
  destruct (wrap_loop_kept (S (Z.to_nat len)) (fst r) (snd r) c1 ch Hch1 Hlen)
    as (r2 & c2 & e2 & H2 & K2 & A2); [ lia | ].
  assert (Hch2 : h !! chunk c2 = Some ch)
    by now rewrite (settings_chunk _ _ (proj1 K2)).
  exists (rewound ch c2), (e1 ++ e2). split; [ | split ].
  - intros m0 l Hm. pose proof Hm as (Hh & Hcb & Hv & Hn).
    unfold render. rewrite bind_run.
    rewrite (mixed_volume_st _ _ _ _ _ ch) by (assumption || now rewrite Hh).
    fold vol. rewrite bind_run, (H1 m0 l Hm), bind_run, (H2 m0 _ Hm).
    rewrite <- app_assoc. krun. unfold rewound.
    destruct ((playing c2 =? 0) && negb (looping c2 =? 0)); krun; [ | reflexivity ].
    destruct (0 <? looping c2); krun;
      rewrite (deref_st _ _ _ _ _ ch) by (cbn; now rewrite Hh); krun; reflexivity.
  - apply (kept_trans c c1); [ exact K1 | ].
    apply (kept_trans c1 c2); [ exact K2 | ].
    unfold rewound.
    destruct ((playing c2 =? 0) && negb (looping c2 =? 0)); [ | apply kept_refl ].
    destruct (0 <? looping c2); repeat split; now left.
  - apply Forall_app. split; assumption.
Qed.

Lemma about_advance_events sdl_ticks c : Forall (about i) (advance_events cb i sdl_ticks c).
Proof.
  unfold advance_events. destruct (snd (advance sdl_ticks c)); [ | constructor ].
  apply Forall_app. split; [ apply about_finished | apply about_release_events ].
Qed.

(** The tick of a channel: its events are its own, and after the expiry and
    fade checks nothing but the cursor, the loop count and, at the end of
    playback, the fade state, the deadline and the effects changes. *)
Lemma tick_kept sdl_ticks c :
  renderable h c ->
  exists c' evs,
    runs (mix_channel_tick malloc_ok sdl_ticks len mv i) c tt c' evs /\
    Forall (about i) evs /\
    (paused c = 0 -> kept (fst (advance sdl_ticks c)) c').
Proof.
  intros Hr. destruct (Z.eq_dec (paused c) 0) as [Hp | Hp].
  - destruct (advance_keeps sdl_ticks c) as [Hchunk Hplay].
    destruct (0 <? playing (fst (advance sdl_ticks c))) eqn:E.
    + pose proof (proj1 (Z.ltb_lt _ _) E) as E'.
      destruct (Hplay E') as [Hplaying Hsamples].
      destruct (Hr ltac:(lia)) as (ch & Hch & Hlen).
      rewrite <- Hchunk in Hch.
      destruct (render_kept _ ch Hch Hlen) as (c' & evs & Hrun & Hk & Hev).
      exists c', (advance_events cb i sdl_ticks c ++ evs). split; [ | split ].
      * intros m0 l Hm.
        rewrite (tick_phase malloc_ok h cb i len mv sdl_ticks) by assumption.
        pose proof Hm as (Hh & Hcb & Hv & Hn).
        krun. rewrite E. cbn [when]. rewrite (Hrun m0 _ Hm). now rewrite <- app_assoc.
      * apply Forall_app. split; [ apply about_advance_events | exact Hev ].
      * intros _. exact Hk.
    + exists (fst (advance sdl_ticks c)), (advance_events cb i sdl_ticks c).
      split; [ | split ].
      * intros m0 l Hm.
        rewrite (tick_phase malloc_ok h cb i len mv sdl_ticks) by assumption.
        pose proof Hm as (Hh & Hcb & Hv & Hn).
        krun. rewrite E. reflexivity.
      * apply about_advance_events.
      * intros _. apply kept_refl.
  - exists c, []. split; [ | split; [ constructor | contradiction ] ].
    intros m0 l (Hh & Hcb & Hv & Hn).
    unfold mix_channel_tick. krun.
    destruct (paused c =? 0) eqn:E; [ apply Z.eqb_eq in E; contradiction | ].
    cbn [when ret]. now rewrite app_nil_r.
Qed.
End Kept.

(** ** What the callback does to each channel *)

(** With its scratch buffer the callback completes.  Every channel has had
    its tick; the events about a channel are those of its tick, and what the
    tick leaves is what the expiry and fade checks make of the channel,
    moved on by the render step when bytes remain. *)
Lemma mix_channels_facts (m : Mixer) (audio_mixbuflen : Z) (alloc_ok : bool)
    (malloc_ok : Z -> Z -> bool) (sdl_ticks len : Z) :
  wf_registry m ->
  (forall j c, mix_channel m !! j = Some c -> renderable (heap m) c) ->
  (audio_mixbuflen < len -> alloc_ok = true) ->
  exists cs new,
    mix_channels audio_mixbuflen alloc_ok malloc_ok sdl_ticks len m
    = Ok (tt, set_log (log m ++ new) (set_mix_channel cs m)) /\
    length cs = length (mix_channel m) /\
    forall i c,
      0 <= i -> mix_channel m !! Z.to_nat i = Some c ->
      exists c' evs pre post,
        cs !! Z.to_nat i = Some c' /\
        new = pre ++ evs ++ post /\
        (forall e, In e new -> channel_of e = i -> In e evs) /\
        (paused c = 0 ->
         kept (fst (advance sdl_ticks c)) c' /\
         (playing (fst (advance sdl_ticks c)) <= 0 ->
          c' = fst (advance sdl_ticks c) /\
          evs = advance_events (channel_done_callback m) i sdl_ticks c)) /\
        (paused c <> 0 -> c' = c /\ evs = []).
Proof.
  intros Hwf Hrender Hbuf.
  assert (Haround : forall j c, mix_channel m !! j = Some c ->
                      around (heap m) (channel_done_callback m) (Z.of_nat j) m).
  { intros j c Hc. apply lookup_lt_Some in Hc. unfold wf_registry in Hwf.
    repeat split; lia. }
  assert (Htick : forall j c c' evs,
             mix_channel m !! j = Some c ->
             tick_of malloc_ok m sdl_ticks len (Z.of_nat j) c c' evs ->
             Forall (about (Z.of_nat j)) evs /\
             (paused c = 0 ->
              kept (fst (advance sdl_ticks c)) c' /\
              (playing (fst (advance sdl_ticks c)) <= 0 ->
               c' = fst (advance sdl_ticks c) /\
               evs = advance_events (channel_done_callback m) (Z.of_nat j) sdl_ticks c)) /\
             (paused c <> 0 -> c' = c /\ evs = [])).
  { intros j c c' evs Hc Ht.
    destruct (tick_runs malloc_ok (heap m) (channel_done_callback m) (Z.of_nat j) len
                (master_volume m) sdl_ticks c (Hrender _ _ Hc))
      as (c2 & e2 & Hrun2 & Hgo & Hpaused & _).
    destruct (tick_kept malloc_ok (heap m) (channel_done_callback m) (Z.of_nat j) len
                (master_volume m) sdl_ticks c (Hrender _ _ Hc))
      as (c3 & e3 & Hrun3 & Habout & Hkept).
    destruct (runs_unique _ _ _ _ _ _ _ _ _ _ _ m (Haround _ _ Hc) Ht Hrun2) as (_ & -> & ->).
    destruct (runs_unique _ _ _ _ _ _ _ _ _ _ _ m (Haround _ _ Hc) Hrun2 Hrun3) as (_ & -> & ->).
    split; [ exact Habout | ]. split; [ | exact Hpaused ].
    intros Hp. split; [ now apply Hkept | now apply Hgo ]. }
  destruct (mix_channels_run malloc_ok m sdl_ticks len audio_mixbuflen alloc_ok
              Hwf Hrender Hbuf)
    as (cs & l & Hrun & Hlen & Hall & Hfrom).
  exists cs, (l ++ effect_events MIX_CHANNEL_POST len (posteffects m)).
  split; [ exact Hrun | ]. split; [ exact Hlen | ].
  intros i c Hi Hc.
  destruct (Hall (Z.to_nat i) c Hc) as (c' & evs & pre & post & Ht & Hcs & Hnew).
  destruct (Htick _ _ _ _ Hc Ht) as (Habout & Hfacts).
  replace (Z.of_nat (Z.to_nat i)) with i in * by lia.
  exists c', evs, pre, (post ++ effect_events MIX_CHANNEL_POST len (posteffects m)).
  split; [ exact Hcs | ]. split; [ rewrite Hnew; now rewrite <- !app_assoc | ].
  split; [ | exact Hfacts ].
  intros e He Hch. apply in_app_or in He. destruct He as [He | He].
  - destruct (Hfrom e He) as (j & cj & cj' & ej & Hcj & Htj & Hej).
    destruct (Htick _ _ _ _ Hcj Htj) as (Haj & _).
    assert (Hje : Z.of_nat j = i).
    { rewrite <- Hch. symmetry.
      apply (proj1 (List.Forall_forall _ _) Haj e Hej). }
    assert (j = Z.to_nat i) by lia. subst j.
    assert (cj = c) by congruence. subst cj.
    rewrite Hje in Htj.
    pose proof (Haround _ _ Hc) as Hm. rewrite Hje in Hm.
    destruct (runs_unique _ _ _ _ _ _ _ _ _ _ _ m Hm Ht Htj) as (_ & _ & ->).
    exact Hej.
  - unfold effect_events in He. apply in_map_iff in He.
    destruct He as (y & <- & _). cbn in Hch. unfold MIX_CHANNEL_POST in Hch. lia.
Qed.

(** ** Paused channels and deadlines in the callback *)

(** X3: the mixing callback leaves a paused channel exactly as it is, its
    position, its deadline (even one that has passed) and its fade included,
    and issues nothing for it: nothing is mixed from it, none of its effects
    run and it is not reported finished. *)
Theorem callback_skips_paused (m : Mixer) (audio_mixbuflen : Z) (alloc_ok : bool)
    (malloc_ok : Z -> Z -> bool) (sdl_ticks len which : Z) (c : Mix_Channel) :
  wf_registry m ->
  (forall j cj, mix_channel m !! j = Some cj -> renderable (heap m) cj) ->
  0 <= which -> mix_channel m !! Z.to_nat which = Some c ->
  paused c <> 0 ->
  exists m' new,
    mix_channels audio_mixbuflen alloc_ok malloc_ok sdl_ticks len m = Ok (tt, m') /\
    log m' = log m ++ new /\
    mix_channel m' !! Z.to_nat which = Some c /\
    forall e, In e new -> channel_of e <> which.
Proof.
  intros Hwf Hrender Hi Hc Hp.
  destruct (mixbuf_cases audio_mixbuflen len alloc_ok) as [[Hlt ->] | Hbuf].
  { exists m, []. rewrite app_nil_r.
    split; [ now apply mix_channels_no_buffer | ].
    split; [ reflexivity | ]. split; [ exact Hc | ]. intros e []. }
  destruct (mix_channels_facts m audio_mixbuflen alloc_ok malloc_ok sdl_ticks len Hwf Hrender Hbuf) as (cs & new & Hrun & _ & Hall).
  destruct (Hall which c Hi Hc) as (c' & evs & pre & post & Hcs & _ & Hown & _ & Hpaused).
  destruct (Hpaused Hp) as [-> ->].
  eexists _, new. split; [ exact Hrun | ]. split; [ reflexivity | ].
  split; [ exact Hcs | ].
  intros e He Hch. apply (Hown e He Hch).
Qed.

Lemma callback_skips_paused_witness :
  exists m' new,
    mix_channels 0 true (fun _ _ => true) 35 4 paused_mixer = Ok (tt, m') /\
    log m' = log paused_mixer ++ new /\
    mix_channel m' !! Z.to_nat 0 = Some (set_paused 10 playing_channel) /\
    forall e, In e new -> channel_of e <> 0.
Proof.
  apply (callback_skips_paused paused_mixer 0 true (fun _ _ => true) 35 4 0
           (set_paused 10 playing_channel)); side.
Defined.

(** The channel after its deadline has passed. *)
Definition expired (c : Mix_Channel) : Mix_Channel :=
  set_effects [] (set_expire 0 (set_fading MIX_NO_FADING
    (set_looping 0 (set_playing 0 c)))).

(** X4: a callback that has its scratch buffer (the buffer holds [len] bytes
    already, or the allocation of a longer one succeeds) stops a channel
    that is not paused and whose deadline lies before the tick of the
    callback: playing, looping and the deadline are 0, the fade state is
    none, the effects are released and the finished-callback, when one is
    set, is called; nothing is mixed from the channel in that callback.  The
    volume is left as it is, also in the middle of a fade. *)
Theorem expired_channel_is_stopped (m : Mixer) (audio_mixbuflen : Z) (alloc_ok : bool)
    (malloc_ok : Z -> Z -> bool) (sdl_ticks len which : Z) (c : Mix_Channel) :
  wf_registry m ->
  (forall j cj, mix_channel m !! j = Some cj -> renderable (heap m) cj) ->
  (audio_mixbuflen < len -> alloc_ok = true) ->
  0 <= which -> mix_channel m !! Z.to_nat which = Some c ->
  paused c = 0 -> 0 < expire c < sdl_ticks ->
  exists m' new pre post,
    mix_channels audio_mixbuflen alloc_ok malloc_ok sdl_ticks len m = Ok (tt, m') /\
    log m' = log m ++ new /\
    mix_channel m' !! Z.to_nat which = Some (expired c) /\
    volume (expired c) = volume c /\
    is_playing (expired c) = false /\
    new = pre ++ (finished (channel_done_callback m) which
                  ++ release_events which (effects c)) ++ post /\
    forall e, In e new -> channel_of e = which ->
              In e (finished (channel_done_callback m) which
                    ++ release_events which (effects c)).
Proof.
  intros Hwf Hrender Hbuf Hi Hc Hp Hexp.
  destruct (mix_channels_facts m audio_mixbuflen alloc_ok malloc_ok sdl_ticks len
              Hwf Hrender Hbuf) as (cs & new & Hrun & _ & Hall).
  destruct (Hall which c Hi Hc) as (c' & evs & pre & post & Hcs & Hnew & Hown & Hgo & _).
  assert (Hadv : advance sdl_ticks c = (expired c, true)).
  { unfold advance. destruct ((0 <? expire c) && (expire c <? sdl_ticks)) eqn:E.
    - reflexivity.
    - apply andb_false_iff in E. destruct E as [E | E]; lia. }
  destruct (Hgo Hp) as [_ Hstop]. unfold advance_events in Hstop.
  rewrite Hadv in Hstop. cbn [fst snd] in Hstop.
  destruct (Hstop ltac:(cbn; lia)) as [-> ->].
  eexists _, new, pre, post. split; [ exact Hrun | ]. split; [ reflexivity | ].
  split; [ exact Hcs | ]. split; [ reflexivity | ]. split; [ reflexivity | ].
  split; [ exact Hnew | exact Hown ].
Qed.

Lemma expired_channel_is_stopped_witness :
  exists m' new pre post,
    mix_channels 0 true (fun _ _ => true) 30 4 timed_mixer = Ok (tt, m') /\
    log m' = log timed_mixer ++ new /\
    mix_channel m' !! Z.to_nat 0 = Some (expired (set_expire 25 playing_channel)) /\
    volume (expired (set_expire 25 playing_channel)) = volume (set_expire 25 playing_channel) /\
    is_playing (expired (set_expire 25 playing_channel)) = false /\
    new = pre ++ (finished (channel_done_callback timed_mixer) 0
                  ++ release_events 0 (effects (set_expire 25 playing_channel))) ++ post /\
    forall e, In e new -> channel_of e = 0 ->
              In e (finished (channel_done_callback timed_mixer) 0
                    ++ release_events 0 (effects (set_expire 25 playing_channel))).
Proof.
  apply (expired_channel_is_stopped timed_mixer 0 true (fun _ _ => true) 30 4 0
           (set_expire 25 playing_channel)); side.
Defined.

(** ** Fading out in the callback *)

(** C1 as the specification states it: for every channel fading out from
    volume V0 over D ticks, the callback at t = sdl_ticks - ticks_fade leaves
    the volume V0 * (D - t) / D rounded down when t < D and, when t >= D,
    leaves the volume restored and the channel stopped, with no fade.  The
    scratch buffer of the callback, volumes within [0, MIX_MAX_VOLUME] and a
    product V0 * D below 2^64 are granted. *)
Definition fade_out_ramps_every_channel : Prop :=
  forall (m : Mixer) (audio_mixbuflen : Z) (alloc_ok : bool)
         (malloc_ok : Z -> Z -> bool) (sdl_ticks len i : Z) (c : Mix_Channel),
    wf_registry m ->
    (forall j cj, mix_channel m !! j = Some cj -> renderable (heap m) cj) ->
    (audio_mixbuflen < len -> alloc_ok = true) ->
    0 <= i -> mix_channel m !! Z.to_nat i = Some c ->
    fading c = MIX_FADING_OUT ->
    0 <= fade_volume c <= MIX_MAX_VOLUME ->
    0 <= fade_volume_reset c <= MIX_MAX_VOLUME ->
    fade_volume c * fade_length c < 2 ^ 64 ->
    exists m' c',
      mix_channels audio_mixbuflen alloc_ok malloc_ok sdl_ticks len m = Ok (tt, m') /\
      mix_channel m' !! Z.to_nat i = Some c' /\
      (u64 (sdl_ticks - ticks_fade c) < fade_length c ->
       volume c' = fade_volume c * (fade_length c - u64 (sdl_ticks - ticks_fade c))
                   / fade_length c) /\
      (fade_length c <= u64 (sdl_ticks - ticks_fade c) ->
       volume c' = fade_volume_reset c /\
       playing c' = 0 /\ looping c' = 0 /\ expire c' = 0 /\
       fading c' = MIX_NO_FADING).

(** Channel 0 plays from tick 5, fades out over 100 ticks from tick 10 and
    is paused at tick 20. *)
Definition paused_fading_out_mixer : Mixer :=
  default fading_out_mixer (exec (Mix_Pause 20 0) fading_out_mixer).

(** C1, counterexample: the callback skips a paused channel.  At tick 200,
    90 ticks after the end of the fade, the paused channel of
    [paused_fading_out_mixer] is still playing and still fading out. *)
Lemma paused_fade_out_is_not_advanced : ~ fade_out_ramps_every_channel.
Proof.
  intros H.
  destruct (H paused_fading_out_mixer 0 true (fun _ _ => true) 200 4 0
              (set_paused 20 fading_out_channel))
    as (m' & c' & Hrun & Hc' & _ & Hdone); try side.
  vm_compute in Hrun. injection Hrun as <-.
  vm_compute in Hc'. injection Hc' as <-.
  destruct Hdone as (_ & Hplaying & _); [ vm_compute; discriminate | ].
  vm_compute in Hplaying. discriminate Hplaying.
Qed.

(** Channel [i] after the run of [c]. *)
Definition channel_after {A} (c : M A) (m : Mixer) (i : nat) : option Mix_Channel :=
  match exec c m with
  | Some m' => mix_channel m' !! i
  | None => None
  end.

(** The same at tick 35, in the middle of the fade: the volume of the paused
    channel is still 128, where the ramp gives 96. *)
Example paused_fade_out_keeps_volume :
  volume <$> channel_after (mix_channels 0 true (fun _ _ => true) 35 4)
                           paused_fading_out_mixer 0
  = Some 128 /\
  128 * (100 - u64 (35 - 10)) / 100 = 96.
Proof. split; vm_compute; reflexivity. Qed.

(** A fade-out cut short by the deadline of the channel.  Channel 0, at
    volume 100, plays a looping chunk from tick 5 with a deadline at tick
    55, and fades out over 100 ticks from tick 10.  The callback at tick 35
    ramps the volume down to 75.  The callback at tick 120, after the
    deadline and after the end of the fade, stops the channel in its expiry
    branch, which does not restore the volume: it stays 75, not 100. *)
Definition expiring_fade_out_mixer : Mixer :=
  default loaded_mixer
    (exec (_ <- Mix_Volume 0 100 ;;
           _ <- Mix_PlayChannelTimed 5 0 1000 (-1) 50 ;;
           _ <- Mix_FadeOutChannel 10 0 100 ;;
           mix_channels 0 true (fun _ _ => true) 35 4)
          loaded_mixer).

Example fade_out_past_deadline_keeps_ramp_volume :
  let after := channel_after (mix_channels 4 true (fun _ _ => true) 120 4)
                             expiring_fade_out_mixer 0 in
  volume <$> mix_channel expiring_fade_out_mixer !! 0%nat = Some 75 /\
  fade_volume_reset <$> mix_channel expiring_fade_out_mixer !! 0%nat = Some 100 /\
  expire <$> mix_channel expiring_fade_out_mixer !! 0%nat = Some 55 /\
  volume <$> after = Some 75 /\ is_playing <$> after = Some false /\
  fading <$> after = Some MIX_NO_FADING.
Proof. repeat split; vm_compute; reflexivity. Qed.

(** A fade-out whose duration is given as -1 millisecond: the duration is
    stored as the unsigned 2^64 - 1, the product V0 * (D - t) wraps around,
    and the callback at tick 20 sets the volume to 0, where the ramp gives
    127. *)
Example fade_out_with_negative_duration :
  let after := channel_after (_ <- Mix_FadeOutChannel 10 0 (-1) ;;
                              mix_channels 0 true (fun _ _ => true) 20 4)
                             playing_mixer 0 in
  fade_length <$> after = Some (2 ^ 64 - 1) /\ volume <$> after = Some 0 /\
  fading <$> after = Some MIX_FADING_OUT /\
  128 * (2 ^ 64 - 1 - 10) / (2 ^ 64 - 1) = 127.
Proof. repeat split; vm_compute; reflexivity. Qed.

(** C1, amended.  Channel [i] is fading out from volume V0 = fade_volume
    over D = fade_length ticks, with V0 and the volume to restore within
    [0, MIX_MAX_VOLUME], and the callback runs at the tick [sdl_ticks],
    t = sdl_ticks - ticks_fade (modulo 2^64) after the start of the fade.
    The callback completes.  When it cannot get its scratch buffer (the
    buffer is shorter than [len] and the allocation fails) it changes
    nothing.  A paused channel is left exactly as it is: its fade neither
    advances nor ends.  Otherwise, with the scratch buffer and the channel
    not paused:
    - if the deadline of the channel has passed (0 < expire < sdl_ticks),
      the channel is stopped (playing, looping and expire 0, no fade, the
      effects released, the finished-callback called when one is set) and
      its volume is left as it is, neither ramped nor restored;
    - if not, and t < D, and V0 * D is below 2^64 (as for any D given in
      milliseconds as a non-negative int), the volume after the callback is
      V0 * (D - t) / D rounded down;
    - if not, and t >= D, the volume is the one to restore
      (fade_volume_reset), playing, looping and expire are 0, the fade
      state is none, the effects are released and the finished-callback,
      when one is set, has been called for the channel. *)
Theorem fade_out_in_mixing_callback
    (m : Mixer) (audio_mixbuflen : Z) (alloc_ok : bool) (malloc_ok : Z -> Z -> bool)
    (sdl_ticks len i : Z) (c : Mix_Channel) :
  wf_registry m ->
  (forall j cj, mix_channel m !! j = Some cj -> renderable (heap m) cj) ->
  0 <= i -> mix_channel m !! Z.to_nat i = Some c ->
  fading c = MIX_FADING_OUT ->
  0 <= fade_volume c <= MIX_MAX_VOLUME ->
  0 <= fade_volume_reset c <= MIX_MAX_VOLUME ->
  exists m' new c',
    mix_channels audio_mixbuflen alloc_ok malloc_ok sdl_ticks len m = Ok (tt, m') /\
    log m' = log m ++ new /\
    mix_channel m' !! Z.to_nat i = Some c' /\
    (audio_mixbuflen < len -> alloc_ok = false -> m' = m) /\
    (paused c <> 0 -> c' = c) /\
    ((audio_mixbuflen < len -> alloc_ok = true) -> paused c = 0 ->
     (0 < expire c < sdl_ticks ->
      c' = expired c /\ volume c' = volume c /\
      exists pre post,
        new = pre ++ finished (channel_done_callback m) i
                  ++ release_events i (effects c) ++ post) /\
     (~ (0 < expire c < sdl_ticks) ->
      (u64 (sdl_ticks - ticks_fade c) < fade_length c ->
       fade_volume c * fade_length c < 2 ^ 64 ->
       volume c' = fade_volume c * (fade_length c - u64 (sdl_ticks - ticks_fade c))
                   / fade_length c) /\
      (fade_length c <= u64 (sdl_ticks - ticks_fade c) ->
       volume c' = fade_volume_reset c /\
       playing c' = 0 /\ looping c' = 0 /\ expire c' = 0 /\
       fading c' = MIX_NO_FADING /\ effects c' = [] /\
       exists pre post,
         new = pre ++ finished (channel_done_callback m) i
                   ++ release_events i (effects c) ++ post))).
Proof.
  intros Hwf Hrender Hi Hc Hf Hv Hvr.
  destruct (mixbuf_cases audio_mixbuflen len alloc_ok) as [[Hlt ->] | Hbuf].
  { exists m, [], c. rewrite app_nil_r.
    split; [ now apply mix_channels_no_buffer | ].
    split; [ reflexivity | ]. split; [ exact Hc | ].
    split; [ reflexivity | ]. split; [ reflexivity | ].
    intros Hok. specialize (Hok Hlt). discriminate Hok. }
  destruct (mix_channels_facts m audio_mixbuflen alloc_ok malloc_ok sdl_ticks len
              Hwf Hrender Hbuf) as (cs & new & Hrun & _ & Hall).
  destruct (Hall i c Hi Hc) as (c' & evs & pre & post & Hcs & Hnew & _ & Hgo & Hpaused).
  eexists _, new, c'. split; [ exact Hrun | ]. split; [ reflexivity | ].
  split; [ exact Hcs | ].
  split; [ intros Hlt Hno; rewrite (Hbuf Hlt) in Hno; discriminate Hno | ].
  split; [ intros Hp; now destruct (Hpaused Hp) | ].
  intros _ Hp. destruct (Hgo Hp) as [Hk Hstop]. unfold advance_events in Hstop.
  split; [ | intros Hexp; split ].
  - intros Hexp.
    assert (Hadv : advance sdl_ticks c = (expired c, true)).
    { unfold advance. destruct ((0 <? expire c) && (expire c <? sdl_ticks)) eqn:E.
      - reflexivity.
      - apply andb_false_iff in E. destruct E as [E | E]; lia. }
    rewrite Hadv in Hstop. cbn [fst snd] in Hstop.
    destruct (Hstop ltac:(cbn; lia)) as [-> ->].
    split; [ reflexivity | ]. split; [ reflexivity | ].
    exists pre, post. rewrite Hnew. now rewrite <- !app_assoc.
  - intros Hlt Hd. rewrite advance_fade_out_running in Hk by assumption.
    cbn [fst] in Hk. apply (settings_volume _ _ (proj1 Hk)).
  - intros Hge. rewrite advance_fade_out_done in Hstop by assumption.
    cbn [fst snd] in Hstop.
    destruct (Hstop ltac:(cbn; lia)) as [-> ->].
    cbn. repeat (split; [ reflexivity | ]).
    exists pre, post. rewrite Hnew. now rewrite <- !app_assoc.
Qed.

Lemma fade_out_in_mixing_callback_witness :
  exists m' new c',
    mix_channels 0 true (fun _ _ => true) 35 4 fading_out_mixer = Ok (tt, m') /\
    log m' = log fading_out_mixer ++ new /\
    mix_channel m' !! Z.to_nat 0 = Some c' /\
    (0 < 4 -> true = false -> m' = fading_out_mixer) /\
    (paused fading_out_channel <> 0 -> c' = fading_out_channel) /\
    ((0 < 4 -> true = true) -> paused fading_out_channel = 0 ->
     (0 < expire fading_out_channel < 35 ->
      c' = expired fading_out_channel /\ volume c' = volume fading_out_channel /\
      exists pre post,
        new = pre ++ finished (channel_done_callback fading_out_mixer) 0
                  ++ release_events 0 (effects fading_out_channel) ++ post) /\
     (~ (0 < expire fading_out_channel < 35) ->
      (u64 (35 - ticks_fade fading_out_channel) < fade_length fading_out_channel ->
       fade_volume fading_out_channel * fade_length fading_out_channel < 2 ^ 64 ->
       volume c' = fade_volume fading_out_channel
                   * (fade_length fading_out_channel
                      - u64 (35 - ticks_fade fading_out_channel))
                   / fade_length fading_out_channel) /\
      (fade_length fading_out_channel <= u64 (35 - ticks_fade fading_out_channel) ->
       volume c' = fade_volume_reset fading_out_channel /\
       playing c' = 0 /\ looping c' = 0 /\ expire c' = 0 /\
       fading c' = MIX_NO_FADING /\ effects c' = [] /\
       exists pre post,
         new = pre ++ finished (channel_done_callback fading_out_mixer) 0
                   ++ release_events 0 (effects fading_out_channel) ++ post))).
Proof.
  apply (fade_out_in_mixing_callback fading_out_mixer 0 true (fun _ _ => true) 35 4 0
           fading_out_channel); side.
Defined.

(** ** Fading in in the callback *)

(** The volume of the ramp of a fade-in is the floor of V0 * t / D. *)
Lemma fade_in_ramp (v0 d t : Z) :
  0 <= v0 <= MIX_MAX_VOLUME -> v0 * d < 2 ^ 64 -> 0 <= t < d ->
  to_int (u64 (u64 v0 * t) / d) = v0 * t / d /\
  0 <= v0 * t / d <= v0.
Proof.
  unfold MIX_MAX_VOLUME. intros Hv Hd Ht.
  assert (Hp : 0 <= v0 * t <= v0 * d) by nia.
  rewrite (u64_small v0) by lia. rewrite u64_small by lia.
  assert (Hq : 0 <= v0 * t / d <= v0).
  { split; [ apply Z.div_pos; lia | ].
    apply Z.div_le_upper_bound; [ lia | nia ]. }
  split; [ apply to_int_small; lia | lia ].
Qed.

Lemma u64_range x : 0 <= u64 x < 2 ^ 64.
Proof. unfold u64. apply Z.mod_pos_bound. lia. Qed.

Lemma advance_fade_in_running sdl_ticks c :
  ~ (0 < expire c < sdl_ticks) -> fading c = MIX_FADING_IN ->
  0 <= fade_volume c <= MIX_MAX_VOLUME ->
  fade_volume c * fade_length c < 2 ^ 64 ->
  u64 (sdl_ticks - ticks_fade c) < fade_length c ->
  advance sdl_ticks c
  = (set_volume (fade_volume c * u64 (sdl_ticks - ticks_fade c) / fade_length c) c, false).
Proof.
  intros Hexp Hf Hv Hd Ht. unfold advance.
  destruct ((0 <? expire c) && (expire c <? sdl_ticks)) eqn:E.
  { apply andb_true_iff in E. lia. }
  rewrite Hf. cbn [fading_eqb negb].
  destruct (fade_length c <=? u64 (sdl_ticks - ticks_fade c)) eqn:E'; [ lia | ].
  pose proof (u64_range (sdl_ticks - ticks_fade c)) as Ht0.
  destruct (fade_in_ramp (fade_volume c) (fade_length c)
              (u64 (sdl_ticks - ticks_fade c)) Hv Hd ltac:(lia)) as [-> Hr].
  rewrite stored_volume_in_range by (unfold MIX_MAX_VOLUME in *; lia). reflexivity.
Qed.

Lemma advance_fade_in_done sdl_ticks c :
  ~ (0 < expire c < sdl_ticks) -> fading c = MIX_FADING_IN ->
  0 <= fade_volume_reset c <= MIX_MAX_VOLUME ->
  fade_length c <= u64 (sdl_ticks - ticks_fade c) ->
  advance sdl_ticks c
  = (set_fading MIX_NO_FADING (set_volume (fade_volume_reset c) c), false).
Proof.
  intros Hexp Hf Hv Ht. unfold advance.
  destruct ((0 <? expire c) && (expire c <? sdl_ticks)) eqn:E.
  { apply andb_true_iff in E. lia. }
  rewrite Hf. cbn [fading_eqb negb].
  destruct (fade_length c <=? u64 (sdl_ticks - ticks_fade c)) eqn:E'; [ | lia ].
  now rewrite stored_volume_in_range.
Qed.

(** X5: fading in, in a callback that has its scratch buffer (the buffer
    holds [len] bytes already, or the allocation of a longer one succeeds).
    Channel [which] is not paused, not past its deadline and fading in to
    volume V0 = fade_volume over D = fade_length ticks (volumes within
    [0, MIX_MAX_VOLUME], V0 * D below 2^64); the callback runs t ticks after
    the start of the fade.  If t < D the volume after the callback is
    V0 * t / D rounded down, which is at most V0.  If t >= D the volume is
    the one to restore and the fade is over.  In both cases nothing else of
    the channel changes but what the render step changes: the cursor, the
    loop count and, when playback ends, the fade state, the deadline and the
    effects. *)
Theorem fade_in_in_mixing_callback
    (m : Mixer) (audio_mixbuflen : Z) (alloc_ok : bool) (malloc_ok : Z -> Z -> bool)
    (sdl_ticks len which : Z) (c : Mix_Channel) :
  wf_registry m ->
  (forall j cj, mix_channel m !! j = Some cj -> renderable (heap m) cj) ->
  (audio_mixbuflen < len -> alloc_ok = true) ->
  0 <= which -> mix_channel m !! Z.to_nat which = Some c ->
  paused c = 0 -> ~ (0 < expire c < sdl_ticks) -> fading c = MIX_FADING_IN ->
  0 <= fade_volume c <= MIX_MAX_VOLUME ->
  0 <= fade_volume_reset c <= MIX_MAX_VOLUME ->
  fade_volume c * fade_length c < 2 ^ 64 ->
  exists m' c',
    mix_channels audio_mixbuflen alloc_ok malloc_ok sdl_ticks len m = Ok (tt, m') /\
    mix_channel m' !! Z.to_nat which = Some c' /\
    (u64 (sdl_ticks - ticks_fade c) < fade_length c ->
     volume c' = fade_volume c * u64 (sdl_ticks - ticks_fade c) / fade_length c /\
     0 <= volume c' <= fade_volume c /\
     kept (set_volume (volume c') c) c') /\
    (fade_length c <= u64 (sdl_ticks - ticks_fade c) ->
     volume c' = fade_volume_reset c /\ fading c' = MIX_NO_FADING /\
     kept (set_fading MIX_NO_FADING (set_volume (fade_volume_reset c) c)) c').
Proof.
  intros Hwf Hrender Hbuf Hi Hc Hp Hexp Hf Hv Hvr Hd.
  destruct (mix_channels_facts m audio_mixbuflen alloc_ok malloc_ok sdl_ticks len
              Hwf Hrender Hbuf) as (cs & new & Hrun & _ & Hall).
  destruct (Hall which c Hi Hc) as (c' & evs & pre & post & Hcs & _ & _ & Hgo & _).
  destruct (Hgo Hp) as [Hk _].
  eexists _, c'. split; [ exact Hrun | ]. split; [ exact Hcs | ]. split.
  - intros Hlt. rewrite advance_fade_in_running in Hk by assumption. cbn [fst] in Hk.
    pose proof (settings_volume _ _ (proj1 Hk)) as Hvol. cbn [volume set_volume] in Hvol.
    pose proof (u64_range (sdl_ticks - ticks_fade c)) as Ht0.
    destruct (fade_in_ramp (fade_volume c) (fade_length c)
                (u64 (sdl_ticks - ticks_fade c)) Hv Hd ltac:(lia)) as [_ Hr].
    split; [ exact Hvol | ]. split; [ rewrite Hvol; exact Hr | ].
    rewrite Hvol. exact Hk.
  - intros Hge. rewrite advance_fade_in_done in Hk by assumption. cbn [fst] in Hk.
    split; [ apply (settings_volume _ _ (proj1 Hk)) | ]. split; [ | exact Hk ].
    destruct Hk as (_ & [Hfd | Hfd] & _); exact Hfd.
Qed.

Lemma fade_in_in_mixing_callback_witness :
  exists m' c',
    mix_channels 0 true (fun _ _ => true) 35 4 fading_in_mixer = Ok (tt, m') /\
    mix_channel m' !! Z.to_nat 0 = Some c' /\
    (u64 (35 - ticks_fade fading_in_channel) < fade_length fading_in_channel ->
     volume c' = fade_volume fading_in_channel * u64
         (35 - ticks_fade fading_in_channel) / fade_length fading_in_channel /\
     0 <= volume c' <= fade_volume fading_in_channel /\
     kept (set_volume (volume c') fading_in_channel) c') /\
    (fade_length fading_in_channel <= u64 (35 - ticks_fade fading_in_channel) ->
     volume c' = fade_volume_reset fading_in_channel /\ fading c' = MIX_NO_FADING /\
     kept (set_fading MIX_NO_FADING (set_volume
         (fade_volume_reset fading_in_channel) fading_in_channel)) c').
Proof.
  apply (fade_in_in_mixing_callback fading_in_mixer 0 true (fun _ _ => true) 35 4 0
           fading_in_channel); side.
Defined.

(** ** Playing and fading in on a given channel *)

(** The mixer after [checkchunkintegral] on chunk [p]. *)
Definition trimmed (m : Mixer) (p : Z) (ch : Mix_Chunk) : Mixer :=
  set_heap (<[p := with_alen (alen ch - alen ch mod frame_width m) ch]> (heap m)) m.

Lemma whole_frames (a w : Z) :
  0 < w -> w <= a -> 0 < a - a mod w <= a.
Proof.
  intros Hw Ha. pose proof (Z.mod_pos_bound a w Hw).
  pose proof (Z.div_mod a w ltac:(lia)).
  assert (1 <= a / w) by (apply Z.div_le_lower_bound; lia). nia.
Qed.

(** The channel a new chunk replaces: its playback is over. *)
Definition replaced (c : Mix_Channel) : Mix_Channel :=
  if is_playing c then set_effects [] c else c.

Lemma Mix_GetChunk_st m0 i c l :
  valid_index m0 i -> i < num_channels m0 ->
  Mix_GetChunk i (st m0 i c l) = Ok (chunk c, st m0 i c l).
Proof.
  intros Hv Hn. unfold Mix_GetChunk, gets. rewrite bind_run.
  cbn [num_channels st set_log set_mix_channel].
  change (set_log l (set_mix_channel (<[Z.to_nat i:=c]> (mix_channel m0)) m0))
    with (st m0 i c l).
  destruct (0 <=? i) eqn:E; [ | destruct Hv; lia ].
  destruct (i <? num_channels m0) eqn:E'; [ | lia ].
  cbn [andb]. now rewrite bind_run, load_st.
Qed.

Lemma Mix_FadingChannel_st m0 i c l :
  valid_index m0 i -> i < num_channels m0 ->
  Mix_FadingChannel i (st m0 i c l) = Ok (fading c, st m0 i c l).
Proof.
  intros Hv Hn. unfold Mix_FadingChannel, gets. rewrite bind_run.
  cbn [num_channels st set_log set_mix_channel].
  change (set_log l (set_mix_channel (<[Z.to_nat i:=c]> (mix_channel m0)) m0))
    with (st m0 i c l).
  destruct (i <? 0) eqn:E; [ destruct Hv; lia | ].
  destruct (num_channels m0 <=? i) eqn:E'; [ lia | ].
  cbn [orb]. now rewrite bind_run, load_st.
Qed.

Lemma Mix_PlayChannelTimed_run (m : Mixer) (sdl_ticks which p loops ticks : Z)
    (ch : Mix_Chunk) (c : Mix_Channel) :
  wf_registry m -> 0 <= which < num_channels m ->
  mix_channel m !! Z.to_nat which = Some c ->
  p <> NULL -> heap m !! p = Some ch ->
  0 < frame_width m < 2 ^ 32 -> 0 <= alen ch < 2 ^ 31 ->
  frame_width m <= alen ch ->
  Mix_PlayChannelTimed sdl_ticks which p loops ticks m
  = Ok (which,
        st (trimmed m p ch) which
           (bound sdl_ticks p (alen ch - alen ch mod frame_width m) loops ticks (replaced c))
           (log m ++ halt_events m which c)).
Proof.
  intros Hwf Hi Hc Hp Hch Hfw Hlen Hframe.
  pose proof (whole_frames (alen ch) (frame_width m) ltac:(lia) Hframe) as Hlen1.
  set (len := alen ch - alen ch mod frame_width m) in *.
  assert (Hv : valid_index (trimmed m p ch) which) by now apply wf_valid_index.
  assert (Hn : which < num_channels (trimmed m p ch)) by (cbn; lia).
  unfold Mix_PlayChannelTimed.
  destruct (p =? NULL) eqn:E; [ apply Z.eqb_eq in E; contradiction | ].
  rewrite bind_run, (checkchunkintegral_run m p ch) by (assumption || lia).
  fold len. rewrite to_int_small by lia.
  change (set_heap (<[p:=with_alen len ch]> (heap m)) m) with (trimmed m p ch).
  destruct (len =? 0) eqn:E0; [ lia | ].
  unfold gets. rewrite !bind_run.
  destruct (which =? -1) eqn:E1; [ lia | ].
  change (num_channels (trimmed m p ch)) with (num_channels m).
  match goal with |- _ = ?r => set (rhs := r) end.
  rewrite <- (st_start (trimmed m p ch) which c Hc).
  change (log (trimmed m p ch)) with (log m).
  rewrite !bind_run, Mix_Playing_st by assumption.
  subst rhs.
  destruct (0 <=? which) eqn:E2; [ | lia ].
  destruct (which <? num_channels m) eqn:E3; [ | lia ].
  unfold replaced, halt_events.
  destruct (is_playing c); cbn [Z.eqb negb when].
  - rewrite bind_run, done_playing_st by assumption. mrun. rewrite E2, E3. mrun.
    rewrite (deref_st _ _ _ _ _ (with_alen len ch)) by (cbn; apply lookup_insert_eq).
    mrun. cbn [alen with_alen]. rewrite to_int_small by lia. reflexivity.
  - mrun. rewrite E2, E3. mrun.
    rewrite (deref_st _ _ _ _ _ (with_alen len ch)) by (cbn; apply lookup_insert_eq).
    mrun. cbn [alen with_alen]. rewrite to_int_small by lia.
    now rewrite app_nil_r.
Qed.

(** X6: playing a chunk that keeps at least one frame on a channel in range
    returns the channel.  If the channel was playing, its old playback is
    ended first: the finished-callback is called and its effects are
    released.  The chunk, cut to whole frames, is then bound to the channel
    from its start, unpaused, with no fade, and with a deadline only for a
    positive [ticks]; the volume and the group tag of the channel stay.
    Afterwards [Mix_GetChunk] returns the chunk, [Mix_Playing] 1,
    [Mix_Paused] 0 and [Mix_FadingChannel] no fade. *)
Theorem play_on_channel (m : Mixer) (sdl_ticks which p loops ticks : Z)
    (ch : Mix_Chunk) (c : Mix_Channel) :
  wf_registry m -> 0 <= which < num_channels m ->
  mix_channel m !! Z.to_nat which = Some c ->
  p <> NULL -> heap m !! p = Some ch ->
  0 < frame_width m < 2 ^ 32 -> 0 <= alen ch < 2 ^ 31 ->
  frame_width m <= alen ch ->
  exists m' c',
    Mix_PlayChannelTimed sdl_ticks which p loops ticks m = Ok (which, m') /\
    m' = st (trimmed m p ch) which c'
            (log m ++ if is_playing c
                      then finished_events m which ++ release_events which (effects c)
                      else []) /\
    c' = bound sdl_ticks p (alen ch - alen ch mod frame_width m) loops ticks
               (if is_playing c then set_effects [] c else c) /\
    volume c' = volume c /\ tag c' = tag c /\
    expire c' = (if 0 <? ticks then u64 (sdl_ticks + ticks) else 0) /\
    Mix_GetChunk which m' = Ok (p, m') /\
    Mix_Playing which m' = Ok (1, m') /\
    Mix_Paused which m' = Ok (0, m') /\
    Mix_FadingChannel which m' = Ok (MIX_NO_FADING, m').
Proof.
  intros Hwf Hi Hc Hp Hch Hfw Hlen Hframe.
  pose proof (whole_frames (alen ch) (frame_width m) ltac:(lia) Hframe) as Hlen1.
  assert (Hv : valid_index (trimmed m p ch) which) by now apply wf_valid_index.
  assert (Hn : which < num_channels (trimmed m p ch)) by (cbn; lia).
  eexists _, _. split; [ now apply (Mix_PlayChannelTimed_run m _ _ _ _ _ ch c) | ].
  split; [ reflexivity | ]. split; [ reflexivity | ].
  split; [ unfold replaced; now destruct (is_playing c) | ].
  split; [ unfold replaced; now destruct (is_playing c) | ].
  split; [ reflexivity | ].
  split; [ now rewrite Mix_GetChunk_st | ].
  split.
  { rewrite Mix_Playing_st by assumption. unfold is_playing. cbn [playing bound set_expire
      set_start_time set_fading set_paused set_chunk set_looping set_playing].
    destruct (0 <? alen ch - alen ch mod frame_width m) eqn:E; [ reflexivity | lia ]. }
  split; [ rewrite Mix_Paused_st by assumption; cbn; now rewrite andb_false_r | ].
  now rewrite Mix_FadingChannel_st.
Qed.

Lemma play_on_channel_witness :
  exists m' c',
    Mix_PlayChannelTimed 7 0 1000 1 (-1) playing_mixer = Ok (0, m') /\
    m' = st (trimmed playing_mixer 1000 two_frames) 0 c'
            (log playing_mixer ++ if is_playing playing_channel
                      then finished_events playing_mixer 0 ++ release_events 0
                          (effects playing_channel)
                      else []) /\
    c' = bound 7 1000 (alen two_frames - alen two_frames mod frame_width playing_mixer) 1 (-1)
               (if is_playing playing_channel
                then set_effects [] playing_channel else playing_channel) /\
    volume c' = volume playing_channel /\ tag c' = tag playing_channel /\
    expire c' = (if 0 <? (-1) then u64 (7 + (-1)) else 0) /\
    Mix_GetChunk 0 m' = Ok (1000, m') /\
    Mix_Playing 0 m' = Ok (1, m') /\
    Mix_Paused 0 m' = Ok (0, m') /\
    Mix_FadingChannel 0 m' = Ok (MIX_NO_FADING, m').
Proof.
  apply (play_on_channel playing_mixer 7 0 1000 1 (-1) two_frames playing_channel); side.
Defined.

(** X7: playing on an index at or past the end of the channel array binds
    nothing, but is not reported: the index is returned as if the chunk
    were playing on it, and no error is set.  Only the chunk is cut to whole
    frames. *)
Theorem play_past_the_end (m : Mixer) (sdl_ticks which p loops ticks : Z)
    (ch : Mix_Chunk) :
  0 <= num_channels m <= which ->
  p <> NULL -> heap m !! p = Some ch ->
  0 < frame_width m < 2 ^ 32 -> 0 <= alen ch < 2 ^ 31 ->
  frame_width m <= alen ch ->
  Mix_PlayChannelTimed sdl_ticks which p loops ticks m = Ok (which, trimmed m p ch) /\
  mix_channel (trimmed m p ch) = mix_channel m /\
  error (trimmed m p ch) = error m /\
  log (trimmed m p ch) = log m /\
  Mix_Playing which (trimmed m p ch) = Ok (0, trimmed m p ch) /\
  Mix_GetChunk which (trimmed m p ch) = Ok (NULL, trimmed m p ch).
Proof.
  intros Hi Hp Hch Hfw Hlen Hframe.
  pose proof (whole_frames (alen ch) (frame_width m) ltac:(lia) Hframe) as Hlen1.
  set (len := alen ch - alen ch mod frame_width m) in *.
  assert (Hplay : Mix_Playing which (trimmed m p ch) = Ok (0, trimmed m p ch)).
  { unfold Mix_Playing, gets. rewrite bind_run.
    destruct (which =? -1) eqn:E1; [ lia | ].
    change (num_channels (trimmed m p ch)) with (num_channels m).
    destruct (which <? num_channels m) eqn:E3; [ lia | ]. reflexivity. }
  split; [ | split; [ reflexivity | split; [ reflexivity | split; [ reflexivity | split ] ] ] ].
  - unfold Mix_PlayChannelTimed.
    destruct (p =? NULL) eqn:E; [ apply Z.eqb_eq in E; contradiction | ].
    rewrite bind_run, (checkchunkintegral_run m p ch) by (assumption || lia).
    fold len. rewrite to_int_small by lia.
    change (set_heap (<[p:=with_alen len ch]> (heap m)) m) with (trimmed m p ch).
    destruct (len =? 0) eqn:E0; [ lia | ].
    unfold gets. rewrite !bind_run.
    destruct (which =? -1) eqn:E1; [ lia | ].
    rewrite !bind_run, Hplay. cbn [Z.eqb negb when ret].
    change (num_channels (trimmed m p ch)) with (num_channels m).
    rewrite bind_run. cbn [ret].
    destruct (which <? num_channels m) eqn:E3; [ lia | ].
    now rewrite andb_false_r.
  - exact Hplay.
  - unfold Mix_GetChunk, gets. rewrite bind_run.
    change (num_channels (trimmed m p ch)) with (num_channels m).
    destruct (which <? num_channels m) eqn:E3; [ lia | ].
    now rewrite andb_false_r.
Qed.

Lemma play_past_the_end_witness :
  Mix_PlayChannelTimed 5 8 1000 0 (-1) loaded_mixer
    = Ok (8, trimmed loaded_mixer 1000 two_frames) /\
  mix_channel (trimmed loaded_mixer 1000 two_frames) = mix_channel loaded_mixer /\
  error (trimmed loaded_mixer 1000 two_frames) = error loaded_mixer /\
  log (trimmed loaded_mixer 1000 two_frames) = log loaded_mixer /\
  Mix_Playing 8 (trimmed loaded_mixer 1000 two_frames)
    = Ok (0, trimmed loaded_mixer 1000 two_frames) /\
  Mix_GetChunk 8 (trimmed loaded_mixer 1000 two_frames)
    = Ok (NULL, trimmed loaded_mixer 1000 two_frames).
Proof.
  apply (play_past_the_end loaded_mixer 5 8 1000 0 (-1) two_frames); side.
Defined.







(** ** Fading out to completion; what the callback never changes *)




Lemma stored_volume_range (x : Z) (c : Mix_Channel) :
  0 <= volume c <= MIX_MAX_VOLUME -> 0 <= volume (stored_volume x c) <= MIX_MAX_VOLUME.
Proof.
  unfold stored_volume, MIX_MAX_VOLUME. intros H.
  destruct (0 <=? x) eqn:E; [ | exact H ].
  destruct (128 <? x) eqn:E'; destruct c; cbn in *; lia.
Qed.

(** The fields of a channel that no tick changes. *)
Definition binding (c : Mix_Channel) :=
  (chunk c, paused c, tag c, start_time c,
   fade_volume c, fade_volume_reset c, fade_length c, ticks_fade c).

Lemma stored_volume_binding x c : binding (stored_volume x c) = binding c.
Proof. unfold stored_volume. destruct (0 <=? x); [ | reflexivity ]. now destruct c. Qed.

Lemma advance_binding (sdl_ticks : Z) (c : Mix_Channel) :
  binding (fst (advance sdl_ticks c)) = binding c /\
  (0 <= volume c <= MIX_MAX_VOLUME ->
   0 <= volume (fst (advance sdl_ticks c)) <= MIX_MAX_VOLUME).
Proof.
  unfold advance.
  destruct ((0 <? expire c) && (expire c <? sdl_ticks)).
  { split; [ now destruct c | now destruct c ]. }
  destruct (negb (fading_eqb (fading c) MIX_NO_FADING)); [ | split; auto ].
  destruct (fade_length c <=? u64 (sdl_ticks - ticks_fade c)).
  - pose proof (stored_volume_binding (fade_volume_reset c) c) as Hb.
    pose proof (stored_volume_range (fade_volume_reset c) c) as Hr.
    destruct (fading_eqb (fading c) MIX_FADING_OUT); cbn [fst];
      (split; [ rewrite <- Hb | intros Hv; specialize (Hr Hv) ]);
      destruct (stored_volume (fade_volume_reset c) c); cbn in *; auto.
  - destruct (fading_eqb (fading c) MIX_FADING_OUT); cbn [fst];
      (split; [ apply stored_volume_binding | apply stored_volume_range ]).
Qed.

Lemma kept_binding c c' : kept c c' -> binding c' = binding c /\ volume c' = volume c.
Proof.
  intros (Hs & _). unfold settings in Hs. unfold binding.
  injection Hs as -> -> -> -> -> -> -> -> ->. auto.
Qed.

(** X10: the mixing callback never changes the chunk a channel is bound to,
    its group tag, its pause state, its start time or the parameters of its
    fade, and it keeps every channel volume within [0, MIX_MAX_VOLUME]: no
    fade ramp overshoots. *)
Theorem callback_keeps_bindings_and_volume_range (m : Mixer) (audio_mixbuflen : Z)
    (alloc_ok : bool) (malloc_ok : Z -> Z -> bool) (sdl_ticks len : Z) :
  wf_registry m ->
  (forall j c, mix_channel m !! j = Some c -> renderable (heap m) c) ->
  exists m',
    mix_channels audio_mixbuflen alloc_ok malloc_ok sdl_ticks len m = Ok (tt, m') /\
    num_channels m' = num_channels m /\
    length (mix_channel m') = length (mix_channel m) /\
    heap m' = heap m /\ master_volume m' = master_volume m /\
    forall j c,
      mix_channel m !! j = Some c ->
      exists c',
        mix_channel m' !! j = Some c' /\
        chunk c' = chunk c /\ tag c' = tag c /\ paused c' = paused c /\
        start_time c' = start_time c /\
        fade_volume c' = fade_volume c /\ fade_volume_reset c' = fade_volume_reset c /\
        fade_length c' = fade_length c /\ ticks_fade c' = ticks_fade c /\
        (0 <= volume c <= MIX_MAX_VOLUME -> 0 <= volume c' <= MIX_MAX_VOLUME).
Proof.
  intros Hwf Hrender.
  destruct (mixbuf_cases audio_mixbuflen len alloc_ok) as [[Hlt ->] | Hbuf].
  { exists m. split; [ now apply mix_channels_no_buffer | ].
    repeat (split; [ reflexivity | ]).
    intros j c Hc. exists c. split; [ exact Hc | ].
    repeat (split; [ reflexivity | ]). auto. }
  destruct (mix_channels_facts m audio_mixbuflen alloc_ok malloc_ok sdl_ticks len
              Hwf Hrender Hbuf) as (cs & new & Hrun & Hlen & Hall).
  eexists. split; [ exact Hrun | ]. split; [ reflexivity | ].
  split; [ exact Hlen | ]. split; [ reflexivity | ]. split; [ reflexivity | ].
  intros j c Hc.
  destruct (Hall (Z.of_nat j) c ltac:(lia) ltac:(now rewrite Nat2Z.id))
    as (c' & evs & pre & post & Hcs & _ & _ & Hgo & Hpaused).
  rewrite Nat2Z.id in Hcs.
  exists c'. split; [ exact Hcs | ].
  assert (Hb : binding c' = binding c /\
               (0 <= volume c <= MIX_MAX_VOLUME -> 0 <= volume c' <= MIX_MAX_VOLUME)).
  { destruct (Z.eq_dec (paused c) 0) as [Hp | Hp].
    - destruct (Hgo Hp) as [Hk _]. apply kept_binding in Hk. destruct Hk as [Hk Hv].
      destruct (advance_binding sdl_ticks c) as [Ha Hr].
      split; [ congruence | ]. intros Hvol. rewrite Hv. now apply Hr.
    - destruct (Hpaused Hp) as [-> _]. auto. }
  destruct Hb as [Hb Hr]. unfold binding in Hb.
  injection Hb as -> -> -> -> -> -> -> ->.
  repeat (split; [ reflexivity | ]). exact Hr.
Qed.

Lemma callback_keeps_bindings_and_volume_range_witness :
  exists m',
    mix_channels 0 true (fun _ _ => true) 10 4 playing_mixer = Ok (tt, m') /\
    num_channels m' = num_channels playing_mixer /\
    length (mix_channel m') = length (mix_channel playing_mixer) /\
    heap m' = heap playing_mixer /\ master_volume m' = master_volume playing_mixer /\
    forall j c,
      mix_channel playing_mixer !! j = Some c ->
      exists c',
        mix_channel m' !! j = Some c' /\
        chunk c' = chunk c /\ tag c' = tag c /\ paused c' = paused c /\
        start_time c' = start_time c /\
        fade_volume c' = fade_volume c /\ fade_volume_reset c' = fade_volume_reset c /\
        fade_length c' = fade_length c /\ ticks_fade c' = ticks_fade c /\
        (0 <= volume c <= MIX_MAX_VOLUME -> 0 <= volume c' <= MIX_MAX_VOLUME).
Proof.
  apply (callback_keeps_bindings_and_volume_range playing_mixer 0 true (fun _ _ => true)
           10 4); side.
Defined.

(** ** Operations on all channels *)

(** [sweep_all] for a body given on states in [st] form. *)
Lemma sweep_st {A} (m : Mixer) (body : Z -> A -> M A)
    (f : Z -> Mix_Channel -> Mix_Channel) (ev : Z -> Mix_Channel -> list event)
    (g : Z -> Mix_Channel -> A -> A) :
  wf_registry m ->
  (forall cs i c l a,
     valid_index (set_mix_channel cs m) i -> i < num_channels m ->
     body i a (st (set_mix_channel cs m) i c l)
     = Ok (g i c a, st (set_mix_channel cs m) i (f i c) (l ++ ev i c))) ->
  forall l a,
    For 0 (num_channels m) body a (set_log l m)
    = Ok (acc_from g 0 (mix_channel m) a,
          set_log (l ++ events_from ev 0 (mix_channel m))
                  (set_mix_channel (chans_from f 0 (mix_channel m)) m)).
Proof.
  intros Hwf Hbody. apply sweep_all; [ exact Hwf | ].
  intros cs l i c a Hlen Hi Hc.
  rewrite (st_of_list m cs l i c Hc).
  rewrite Hbody by (try lia; now apply valid_index_list).
  reflexivity.
Qed.

Lemma chans_from_map (f : Mix_Channel -> Mix_Channel) i cs :
  chans_from (fun _ => f) i cs = map f cs.
Proof.
  revert i. induction cs as [|c r IH]; intros i; cbn; [ reflexivity | now rewrite IH ].
Qed.

Lemma chans_from_id i cs : chans_from (fun _ c => c) i cs = cs.
Proof.
  revert i. induction cs as [|c r IH]; intros i; cbn; [ reflexivity | now rewrite IH ].
Qed.

Lemma events_from_nil i cs : events_from (fun _ _ => []) i cs = [].
Proof.
  revert i. induction cs as [|c r IH]; intros i; cbn; [ reflexivity | now rewrite IH ].
Qed.

Lemma set_same m : set_log (log m ++ []) (set_mix_channel (mix_channel m) m) = m.
Proof. rewrite app_nil_r. now destruct m. Qed.

Lemma set_log_same m : set_log (log m) m = m.
Proof. now destruct m. Qed.

(** The number of channels of [cs] that satisfy [p]. *)
Fixpoint count_of (p : Mix_Channel -> bool) (cs : list Mix_Channel) : Z :=
  match cs with
  | [] => 0
  | c :: r => (if p c then 1 else 0) + count_of p r
  end.

Lemma count_of_range p cs : 0 <= count_of p cs <= Z.of_nat (length cs).
Proof. induction cs as [|c r IH]; cbn [count_of length]; [ lia | destruct (p c); lia ]. Qed.

Lemma acc_from_count (p : Mix_Channel -> bool) i cs a :
  acc_from (fun _ c (a : Z) => if p c then a + 1 else a) i cs a = a + count_of p cs.
Proof.
  revert i a. induction cs as [|c r IH]; intros i a; cbn [acc_from count_of]; [ lia | ].
  rewrite IH. destruct (p c); lia.
Qed.

Lemma count_of_none p cs :
  (forall c, In c cs -> p c = false) -> count_of p cs = 0.
Proof.
  induction cs as [|c r IH]; intros H; cbn [count_of]; [ reflexivity | ].
  rewrite (H c (or_introl eq_refl)), IH; [ reflexivity | ].
  intros c' Hc'. apply H. now right.
Qed.

Lemma count_of_map p f cs : count_of p (map f cs) = count_of (fun c => p (f c)) cs.
Proof. induction cs as [|c r IH]; cbn; [ reflexivity | now rewrite IH ]. Qed.

Lemma count_of_ext p q cs : (forall c, p c = q c) -> count_of p cs = count_of q cs.
Proof. intros H. induction cs as [|c r IH]; cbn; [ reflexivity | now rewrite H, IH ]. Qed.

(** A loop that only reads the channels and counts. *)
Lemma count_loop (m : Mixer) (body : Z -> Z -> M Z) (p : Mix_Channel -> bool) :
  wf_registry m ->
  (forall cs i c l a,
     valid_index (set_mix_channel cs m) i -> i < num_channels m ->
     body i a (st (set_mix_channel cs m) i c l)
     = Ok (if p c then a + 1 else a, st (set_mix_channel cs m) i c l)) ->
  For 0 (num_channels m) body 0 m = Ok (count_of p (mix_channel m), m).
Proof.
  intros Hwf Hbody.
  replace (For 0 (num_channels m) body 0 m)
    with (For 0 (num_channels m) body 0 (set_log (log m) m))
    by now rewrite set_log_same.
  rewrite (sweep_st m body (fun _ c => c) (fun _ _ => [])
             (fun _ c a => if p c then a + 1 else a) Hwf).
  - rewrite acc_from_count, chans_from_id, events_from_nil, set_same. reflexivity.
  - intros cs i c l a Hv Hn. rewrite Hbody by assumption. now rewrite app_nil_r.
Qed.

Lemma Mix_Playing_all (m : Mixer) :
  wf_registry m -> Mix_Playing (-1) m = Ok (count_of is_playing (mix_channel m), m).
Proof.
  intros Hwf. unfold Mix_Playing, gets. rewrite bind_run. cbn [Z.eqb Pos.eqb].
  apply count_loop; [ exact Hwf | ].
  intros cs i c l a Hv Hn. now rewrite bind_run, load_st.
Qed.

Definition is_paused (c : Mix_Channel) : bool := is_playing c && negb (paused c =? 0).

Lemma Mix_Paused_all (m : Mixer) (which : Z) :
  wf_registry m -> which < 0 ->
  Mix_Paused which m = Ok (count_of is_paused (mix_channel m), m).
Proof.
  intros Hwf Hw. unfold Mix_Paused, gets. rewrite bind_run.
  destruct (which <? 0) eqn:E; [ | lia ].
  apply count_loop; [ exact Hwf | ].
  intros cs i c l a Hv Hn.
  rewrite bind_run, Mix_Playing_st by (cbn; assumption).
  rewrite bind_run, load_st by assumption. unfold is_paused.
  destruct (is_playing c); reflexivity.
Qed.

(** X11: the counting queries.  [Mix_Playing(-1)] returns the number of
    channels that are playing, [Mix_Paused] at any negative index the number
    of playing channels that are paused; both lie between 0 and the number
    of channels, the second is at most the first, and neither changes the
    mixer. *)
Theorem playing_and_paused_counts (m : Mixer) (which : Z) :
  wf_registry m -> which < 0 ->
  Mix_Playing (-1) m = Ok (count_of is_playing (mix_channel m), m) /\
  Mix_Paused which m = Ok (count_of is_paused (mix_channel m), m) /\
  0 <= count_of is_paused (mix_channel m)
    <= count_of is_playing (mix_channel m) /\
  count_of is_playing (mix_channel m) <= num_channels m.
Proof.
  intros Hwf Hw.
  split; [ now apply Mix_Playing_all | ]. split; [ now apply Mix_Paused_all | ].
  split.
  - split; [ apply count_of_range | ].
    induction (mix_channel m) as [|c r IH]; cbn [count_of]; [ lia | ].
    unfold is_paused at 1. destruct (is_playing c); cbn [andb]; [ | lia ].
    destruct (negb (paused c =? 0)); lia.
  - rewrite Hwf. apply count_of_range.
Qed.

Lemma playing_and_paused_counts_witness :
  Mix_Playing (-1) playing_mixer
    = Ok (count_of is_playing (mix_channel playing_mixer), playing_mixer) /\
  Mix_Paused (-1) playing_mixer
    = Ok (count_of is_paused (mix_channel playing_mixer), playing_mixer) /\
  0 <= count_of is_paused (mix_channel playing_mixer)
    <= count_of is_playing (mix_channel playing_mixer) /\
  count_of is_playing (mix_channel playing_mixer) <= num_channels playing_mixer.
Proof.
  apply (playing_and_paused_counts playing_mixer (-1)); side.
Defined.

Lemma acc_from_tt i (cs : list Mix_Channel) :
  acc_from (fun _ _ (_ : unit) => tt) i cs tt = tt.
Proof. revert i. induction cs as [|c r IH]; intros i; cbn [acc_from]; auto. Qed.

Lemma HaltChannel_all (m : Mixer) :
  wf_registry m ->
  Mix_HaltChannel (-1) m
  = Ok (tt, set_log (log m ++ events_from (halt_events m) 0 (mix_channel m))
                    (set_mix_channel (map halted (mix_channel m)) m)).
Proof.
  intros Hwf. unfold Mix_HaltChannel, gets, For_. rewrite bind_run. cbn [Z.eqb Pos.eqb].
  match goal with |- For 0 _ ?b tt m = _ =>
    replace (For 0 (num_channels m) b tt m)
      with (For 0 (num_channels m) b tt (set_log (log m) m)) by now rewrite set_log_same
  end.
  rewrite (sweep_st m _ (fun _ => halted) (halt_events m) (fun _ _ _ => tt) Hwf).
  - now rewrite chans_from_map, acc_from_tt.
  - intros cs i c l a Hv Hn.
    now rewrite HaltChannel_locked_st by (cbn; assumption).
Qed.

(** X12: [Mix_HaltChannel(-1)] halts every channel: each is left as
    [Mix_HaltChannel] on it alone leaves it, the finished-callback and the
    release of the effects happen for the channels that were playing, in
    channel order, and afterwards [Mix_Playing(-1)] is 0.  With no post-mix
    effect registered, a mixing callback after it changes nothing and calls
    nothing. *)
Theorem halt_all_channels (m : Mixer) :
  wf_registry m ->
  exists m',
    Mix_HaltChannel (-1) m = Ok (tt, m') /\
    mix_channel m' = map halted (mix_channel m) /\
    log m' = log m ++ events_from (halt_events m) 0 (mix_channel m) /\
    (forall j c', mix_channel m' !! j = Some c' ->
                  is_playing c' = false /\ expire c' = 0 /\ fading c' = MIX_NO_FADING) /\
    Mix_Playing (-1) m' = Ok (0, m') /\
    (posteffects m = [] ->
     forall audio_mixbuflen alloc_ok malloc_ok sdl_ticks len,
       mix_channels audio_mixbuflen alloc_ok malloc_ok sdl_ticks len m' = Ok (tt, m')).
Proof.
  intros Hwf.
  eexists. split; [ now apply HaltChannel_all | ].
  split; [ reflexivity | ]. split; [ reflexivity | ].
  assert (Hall : forall c', In c' (map halted (mix_channel m)) -> is_playing c' = false).
  { intros c' Hc'. apply in_map_iff in Hc'. destruct Hc' as (c & <- & _).
    apply halted_not_playing. }
  assert (Hwf' : wf_registry (set_log (log m ++ events_from (halt_events m) 0 (mix_channel m))
                                (set_mix_channel (map halted (mix_channel m)) m))).
  { unfold wf_registry in *. cbn. now rewrite length_map. }
  assert (Hrest : forall j c',
             map halted (mix_channel m) !! j = Some c' ->
             is_playing c' = false /\ expire c' = 0 /\ fading c' = MIX_NO_FADING).
  { intros j c' Hc'. rewrite list_lookup_fmap in Hc'.
    destruct (mix_channel m !! j) as [c|]; [ | discriminate ].
    injection Hc' as <-. split; [ apply halted_not_playing | ].
    unfold halted. destruct (is_playing c); cbn; destruct (fading c); auto. }
  split; [ exact Hrest | ]. split.
  - rewrite Mix_Playing_all by exact Hwf'.
    cbn [mix_channel set_log set_mix_channel]. now rewrite count_of_none.
  - intros Hpost audio_mixbuflen alloc_ok malloc_ok sdl_ticks len.
    apply mix_channels_at_rest; [ exact Hwf' | exact Hpost | ].
    intros j c' Hc'. destruct (Hrest j c' Hc') as (Hp & He & Hf).
    unfold is_playing in Hp. apply orb_false_iff in Hp. destruct Hp as [Hp _].
    repeat split; [ lia | exact He | exact Hf ].
Qed.

Lemma halt_all_channels_witness :
  exists m',
    Mix_HaltChannel (-1) two_started_together = Ok (tt, m') /\
    mix_channel m' = map halted (mix_channel two_started_together) /\
    log m' = log two_started_together
             ++ events_from (halt_events two_started_together) 0
                            (mix_channel two_started_together) /\
    (forall j c', mix_channel m' !! j = Some c' ->
                  is_playing c' = false /\ expire c' = 0 /\ fading c' = MIX_NO_FADING) /\
    Mix_Playing (-1) m' = Ok (0, m') /\
    (posteffects two_started_together = [] ->
     forall audio_mixbuflen alloc_ok malloc_ok sdl_ticks len,
       mix_channels audio_mixbuflen alloc_ok malloc_ok sdl_ticks len m' = Ok (tt, m')).
Proof.
  apply (halt_all_channels two_started_together); side.
Defined.

(** ** Volume, deadline and pause on all channels *)

Fixpoint sum_of (v : Mix_Channel -> Z) (cs : list Mix_Channel) : Z :=
  match cs with
  | [] => 0
  | c :: r => v c + sum_of v r
  end.

Lemma acc_from_sum (v : Mix_Channel -> Z) i cs a :
  acc_from (fun _ c (a : Z) => a + v c) i cs a = a + sum_of v cs.
Proof.
  revert i a. induction cs as [|c r IH]; intros i a; cbn [acc_from sum_of]; [ lia | ].
  rewrite IH. lia.
Qed.


Lemma set_mix_channel_log cs m :
  set_log (log m ++ []) (set_mix_channel cs m) = set_mix_channel cs m.
Proof. rewrite app_nil_r. now destruct m. Qed.

(** X13: [Mix_Volume(-1, vol)] gives every channel the volume [vol], cut
    to [MIX_MAX_VOLUME], or only reads the volumes when [vol] is negative,
    and returns the sum of the previous volumes divided by the number of
    channels, rounded towards zero.  With no channels allocated it divides
    by zero. *)
Theorem volume_of_all_channels (m : Mixer) (vol : Z) :
  wf_registry m ->
  (0 < num_channels m ->
   Mix_Volume (-1) vol m
   = Ok (Z.quot (sum_of volume (mix_channel m)) (num_channels m),
         set_mix_channel (map (stored_volume vol) (mix_channel m)) m) /\
   (vol < 0 -> map (stored_volume vol) (mix_channel m) = mix_channel m) /\
   (0 <= vol ->
    forall j c', map (stored_volume vol) (mix_channel m) !! j = Some c' ->
                 volume c' = Z.min vol MIX_MAX_VOLUME)) /\
  (num_channels m = 0 -> Mix_Volume (-1) vol m = Crash DivByZero).
Proof.
  intros Hwf.
  assert (Hloop : For 0 (num_channels m)
                      (fun i prev_volume => v <- Mix_Volume_channel i vol ;;
                                            ret (prev_volume + v)) 0 m
                  = Ok (sum_of volume (mix_channel m),
                        set_mix_channel (map (stored_volume vol) (mix_channel m)) m)).
  { replace (For 0 (num_channels m)
               (fun i prev_volume => v <- Mix_Volume_channel i vol ;; ret (prev_volume + v)) 0 m)
      with (For 0 (num_channels m)
              (fun i prev_volume => v <- Mix_Volume_channel i vol ;; ret (prev_volume + v)) 0
              (set_log (log m) m))
      by now rewrite set_log_same.
    rewrite (sweep_st m _ (fun _ => stored_volume vol) (fun _ _ => [])
               (fun _ c a => a + volume c) Hwf).
    - now rewrite acc_from_sum, chans_from_map, events_from_nil, set_mix_channel_log.
    - intros cs i c l a Hv Hn.
      rewrite bind_run, Mix_Volume_channel_st by (cbn; assumption).
      cbn [ret]. now rewrite app_nil_r. }
  split.
  - intros Hn. split; [ | split ].
    + unfold Mix_Volume. cbn [Z.eqb Pos.eqb]. unfold gets. rewrite !bind_run, Hloop.
      cbn [num_channels set_mix_channel].
      destruct (num_channels m =? 0) eqn:E; [ lia | reflexivity ].
    + intros Hneg. unfold stored_volume.
      destruct (0 <=? vol) eqn:E; [ lia | ]. apply map_id.
    + intros Hpos j c' Hc'. rewrite list_lookup_fmap in Hc'.
      destruct (mix_channel m !! j) as [c|]; [ | discriminate ].
      injection Hc' as <-. unfold stored_volume, MIX_MAX_VOLUME.
      destruct (0 <=? vol) eqn:E; [ | lia ].
      destruct (128 <? vol) eqn:E'; destruct c; cbn; lia.
  - intros Hn. unfold Mix_Volume. cbn [Z.eqb Pos.eqb]. unfold gets. rewrite !bind_run, Hloop.
    cbn [num_channels set_mix_channel]. rewrite Hn. reflexivity.
Qed.

Lemma volume_of_all_channels_witness :
  (0 < num_channels loaded_mixer ->
   Mix_Volume (-1) 64 loaded_mixer
   = Ok (Z.quot (sum_of volume (mix_channel loaded_mixer)) (num_channels loaded_mixer),
         set_mix_channel (map (stored_volume 64) (mix_channel loaded_mixer)) loaded_mixer) /\
   (64 < 0 -> map (stored_volume 64) (mix_channel loaded_mixer) = mix_channel loaded_mixer) /\
   (0 <= 64 ->
    forall j c', map (stored_volume 64) (mix_channel loaded_mixer) !! j = Some c' ->
                 volume c' = Z.min 64 MIX_MAX_VOLUME)) /\
  (num_channels loaded_mixer = 0 -> Mix_Volume (-1) 64 loaded_mixer = Crash DivByZero).
Proof.
  apply (volume_of_all_channels loaded_mixer 64); side.
Defined.





(** X15: [Mix_Pause(-1)] at a tick other than 0 pauses exactly the
    channels that are playing and leaves the others alone; afterwards
    [Mix_Paused(-1)] and [Mix_Playing(-1)] both return the number of channels
    that were playing: paused channels still count as playing. *)
Theorem pause_all_channels (m : Mixer) (sdl_ticks : Z) :
  wf_registry m -> sdl_ticks <> 0 ->
  exists m',
    Mix_Pause sdl_ticks (-1) m = Ok (tt, m') /\
    mix_channel m' = map (paused_at sdl_ticks) (mix_channel m) /\
    log m' = log m /\
    Mix_Paused (-1) m' = Ok (count_of is_playing (mix_channel m), m') /\
    Mix_Playing (-1) m' = Ok (count_of is_playing (mix_channel m), m').
Proof.
  intros Hwf Ht.
  assert (Hrun : Mix_Pause sdl_ticks (-1) m
                 = Ok (tt, set_mix_channel (map (paused_at sdl_ticks) (mix_channel m)) m)).
  { unfold Mix_Pause, gets, For_. rewrite bind_run. cbn [Z.eqb Pos.eqb].
    match goal with |- For 0 _ ?b tt m = _ =>
      replace (For 0 (num_channels m) b tt m)
        with (For 0 (num_channels m) b tt (set_log (log m) m)) by now rewrite set_log_same
    end.
    rewrite (sweep_st m _ (fun _ => paused_at sdl_ticks) (fun _ _ => [])
               (fun _ _ _ => tt) Hwf).
    - rewrite chans_from_map, events_from_nil, set_mix_channel_log. f_equal. f_equal.
      generalize (mix_channel m) 0. induction l as [|c r IH]; intros i; [ reflexivity | ].
      cbn [acc_from]. apply IH.
    - intros cs i c l a Hv Hn.
      rewrite pause_channel_st by (cbn; assumption). now rewrite app_nil_r. }
  assert (Hwf' : wf_registry (set_mix_channel (map (paused_at sdl_ticks) (mix_channel m)) m)).
  { unfold wf_registry in *. cbn. now rewrite length_map. }
  eexists. split; [ exact Hrun | ]. split; [ reflexivity | ]. split; [ reflexivity | ].
  split.
  - rewrite Mix_Paused_all by (exact Hwf' || lia).
    cbn [mix_channel set_mix_channel]. rewrite count_of_map.
    do 2 f_equal. apply count_of_ext. intros c.
    unfold is_paused, paused_at. destruct (is_playing c) eqn:E.
    + change (is_playing (set_paused sdl_ticks c)) with (is_playing c). rewrite E.
      cbn [paused set_paused andb]. destruct (sdl_ticks =? 0) eqn:E0; [ lia | reflexivity ].
    + now rewrite E.
  - rewrite Mix_Playing_all by exact Hwf'.
    cbn [mix_channel set_mix_channel]. rewrite count_of_map.
    do 2 f_equal. apply count_of_ext. intros c.
    unfold paused_at. destruct (is_playing c) eqn:E; [ | exact E ].
    change (is_playing (set_paused sdl_ticks c)) with (is_playing c). exact E.
Qed.

Lemma pause_all_channels_witness :
  exists m',
    Mix_Pause 10 (-1) two_started_together = Ok (tt, m') /\
    mix_channel m' = map (paused_at 10) (mix_channel two_started_together) /\
    log m' = log two_started_together /\
    Mix_Paused (-1) m' = Ok (count_of is_playing (mix_channel two_started_together), m') /\
    Mix_Playing (-1) m' = Ok (count_of is_playing (mix_channel two_started_together), m').
Proof.
  apply (pause_all_channels two_started_together 10); side.
Defined.

(** ** Groups *)

Lemma Mix_GroupChannel_st m0 i c l tag_ :
  valid_index m0 i -> i < num_channels m0 ->
  Mix_GroupChannel i tag_ (st m0 i c l) = Ok (true, st m0 i (set_tag tag_ c) l).
Proof.
  intros Hv Hn. unfold Mix_GroupChannel, gets. rewrite bind_run.
  cbn [num_channels st set_log set_mix_channel].
  change (set_log l (set_mix_channel (<[Z.to_nat i:=c]> (mix_channel m0)) m0))
    with (st m0 i c l).
  destruct ((i <? 0) || (num_channels m0 <? i)) eqn:E.
  { apply orb_true_iff in E. destruct Hv. lia. }
  mrun. reflexivity.
Qed.

Lemma acc_from_true i (cs : list Mix_Channel) :
  acc_from (fun _ _ (a : bool) => a && true) i cs true = true.
Proof. revert i. induction cs as [|c r IH]; intros i; cbn [acc_from andb]; auto. Qed.

(** The channels of [cs] with index in [from, to] retagged. *)
Definition tagged (from to tag_ : Z) (cs : list Mix_Channel) : list Mix_Channel :=
  imap (fun j c => if (from <=? Z.of_nat j) && (Z.of_nat j <=? to)
                   then set_tag tag_ c else c) cs.

Lemma tagged_split (from to tag_ : Z) (cs : list Mix_Channel) :
  0 <= from <= to + 1 -> to < Z.of_nat (length cs) ->
  take (Z.to_nat from) cs
  ++ map (set_tag tag_) (take (Z.to_nat (to + 1 - from)) (drop (Z.to_nat from) cs))
  ++ drop (Z.to_nat (to + 1 - from)) (drop (Z.to_nat from) cs)
  = tagged from to tag_ cs.
Proof.
  intros Hfrom Hto. apply list_eq. intros j. unfold tagged.
  rewrite list_lookup_imap.
  destruct (decide (j < Z.to_nat from)%nat) as [Hlt | Hge].
  - rewrite lookup_app_l by (rewrite length_take; lia).
    rewrite lookup_take_lt by lia.
    destruct (cs !! j) as [c|]; [ | reflexivity ]. cbn.
    destruct (from <=? Z.of_nat j) eqn:E; [ lia | reflexivity ].
  - rewrite lookup_app_r by (rewrite length_take; lia).
    rewrite length_take, Nat.min_l by lia.
    destruct (decide (j - Z.to_nat from < Z.to_nat (to + 1 - from))%nat) as [Hin | Hout].
    + rewrite lookup_app_l by (rewrite length_map, length_take, length_drop; lia).
      rewrite list_lookup_fmap, lookup_take_lt, lookup_drop by lia.
      replace (Z.to_nat from + (j - Z.to_nat from))%nat with j by lia.
      destruct (cs !! j) as [c|]; [ | reflexivity ]. cbn.
      destruct (from <=? Z.of_nat j) eqn:E; [ | lia ].
      destruct (Z.of_nat j <=? to) eqn:E'; [ reflexivity | lia ].
    + rewrite lookup_app_r by (rewrite length_map, length_take, length_drop; lia).
      rewrite length_map, length_take, length_drop.
      rewrite !lookup_drop.
      rewrite Nat.min_l by lia.
      replace (Z.to_nat from + (Z.to_nat (to + 1 - from)
                 + (j - Z.to_nat from - Z.to_nat (to + 1 - from))))%nat with j by lia.
      destruct (cs !! j) as [c|]; [ | reflexivity ]. cbn.
      destruct ((from <=? Z.of_nat j) && (Z.of_nat j <=? to)) eqn:E; [ | reflexivity ].
      apply andb_true_iff in E. lia.
Qed.

(** X16: [Mix_GroupChannels(from, to, tag)] with both ends inside the
    channel array gives the tag to the channels from [from] to [to]
    inclusive, changes no other channel and nothing else of a channel, and
    reports success; with [from > to] it changes nothing. *)
Theorem group_channels_range (m : Mixer) (from to tag_ : Z) :
  wf_registry m -> 0 <= from -> to < num_channels m ->
  Mix_GroupChannels from to tag_ m
  = Ok (true, set_mix_channel (tagged from to tag_ (mix_channel m)) m) /\
  (forall j c, mix_channel m !! j = Some c ->
               tagged from to tag_ (mix_channel m) !! j
               = Some (if (from <=? Z.of_nat j) && (Z.of_nat j <=? to)
                       then set_tag tag_ c else c)) /\
  (to < from -> tagged from to tag_ (mix_channel m) = mix_channel m).
Proof.
  intros Hwf Hfrom Hto.
  assert (Hlen : Z.of_nat (length (mix_channel m)) = num_channels m)
    by (unfold wf_registry in Hwf; lia).
  assert (Hsame : to < from -> tagged from to tag_ (mix_channel m) = mix_channel m).
  { intros Hgt. unfold tagged. apply list_eq. intros j.
    rewrite list_lookup_imap. destruct (mix_channel m !! j) as [c|]; [ | reflexivity ].
    cbn. destruct ((from <=? Z.of_nat j) && (Z.of_nat j <=? to)) eqn:E; [ | reflexivity ].
    apply andb_true_iff in E. lia. }
  split; [ | split ].
  - destruct (decide (from <= to + 1)) as [Hle | Hgt].
    + unfold Mix_GroupChannels, For.
      pose proof (sweep_part m
                    (fun i status => ok <- Mix_GroupChannel i tag_ ;; ret (status && ok))
                    (fun _ => set_tag tag_) (fun _ _ => []) (fun _ _ a => a && true) Hwf) as H.
      specialize (H ltac:(
        intros cs l i c a Hl Hi Hc; rewrite (st_of_list m cs l i c Hc);
        rewrite bind_run, Mix_GroupChannel_st by (try (cbn; lia); now apply valid_index_list);
        cbn [ret]; now rewrite app_nil_r)).
      specialize (H (Z.to_nat (to + 1 - from)) (take (Z.to_nat from) (mix_channel m))
                    (drop (Z.to_nat from) (mix_channel m)) (log m) true).
      rewrite take_drop in H. rewrite length_take, Nat.min_l in H by lia.
      rewrite Z2Nat.id in H by lia.
      replace (set_log (log m) (set_mix_channel (mix_channel m) m)) with m in H
        by now destruct m.
      rewrite H by (rewrite ?length_drop; lia).
      rewrite acc_from_true, chans_from_map, events_from_nil, set_mix_channel_log.
      now rewrite tagged_split by lia.
    + unfold Mix_GroupChannels, For.
      replace (Z.to_nat (to + 1 - from)) with 0%nat by lia.
      rewrite Hsame by lia. cbn. now destruct m.
  - intros j c Hc. unfold tagged. rewrite list_lookup_imap, Hc. reflexivity.
  - exact Hsame.
Qed.

Lemma group_channels_range_witness :
  Mix_GroupChannels 2 4 7 loaded_mixer
  = Ok (true, set_mix_channel (tagged 2 4 7 (mix_channel loaded_mixer)) loaded_mixer) /\
  (forall j c, mix_channel loaded_mixer !! j = Some c ->
               tagged 2 4 7 (mix_channel loaded_mixer) !! j
               = Some (if (2 <=? Z.of_nat j) && (Z.of_nat j <=? 4)
                       then set_tag 7 c else c)) /\
  (4 < 2 -> tagged 2 4 7 (mix_channel loaded_mixer) = mix_channel loaded_mixer).
Proof.
  apply (group_channels_range loaded_mixer 2 4 7); side.
Defined.

Definition has_tag (tag_ : Z) (c : Mix_Channel) : bool := tag c =? tag_.

(** X17: [Mix_GroupCount(tag)] returns the number of channels that carry the
    tag, and for the tag -1 the number of all channels, whatever their tags;
    it changes nothing. *)
Theorem group_count (m : Mixer) (tag_ : Z) :
  wf_registry m ->
  Mix_GroupCount tag_ m
  = Ok (if tag_ =? -1 then num_channels m else count_of (has_tag tag_) (mix_channel m), m) /\
  0 <= count_of (has_tag tag_) (mix_channel m) <= num_channels m.
Proof.
  intros Hwf. split.
  - unfold Mix_GroupCount, gets. rewrite bind_run.
    destruct (tag_ =? -1); [ reflexivity | ].
    apply count_loop; [ exact Hwf | ].
    intros cs i c l a Hv Hn. now rewrite bind_run, load_st.
  - rewrite Hwf. apply count_of_range.
Qed.

Lemma group_count_witness :
  Mix_GroupCount 7 loaded_mixer
  = Ok (if 7 =? -1 then num_channels loaded_mixer else count_of (has_tag 7)
      (mix_channel loaded_mixer), loaded_mixer) /\
  0 <= count_of (has_tag 7) (mix_channel loaded_mixer) <= num_channels loaded_mixer.
Proof.
  apply (group_count loaded_mixer 7); side.
Defined.

(** Membership in a group as [Mix_GroupAvailable] tests it: the tag -1 stands
    for every channel. *)
Definition in_group (tag_ : Z) (c : Mix_Channel) : bool :=
  (tag_ =? -1) || (tag_ =? tag c).

Lemma group_available_from_run (m : Mixer) (tag_ : Z) :
  wf_registry m ->
  forall fuel i,
    0 <= i -> fuel = Z.to_nat (num_channels m - i) ->
    exists r,
      group_available_from fuel i (num_channels m) tag_ m = Ok (r, m) /\
      ((r = -1 /\
        forall j c, i <= Z.of_nat j -> mix_channel m !! j = Some c ->
                    in_group tag_ c = true -> is_playing c = true)
       \/
       (i <= r < num_channels m /\
        (exists c, mix_channel m !! Z.to_nat r = Some c /\
                   in_group tag_ c = true /\ is_playing c = false) /\
        forall j c, i <= Z.of_nat j < r -> mix_channel m !! j = Some c ->
                    in_group tag_ c = true -> is_playing c = true)).
Proof.
  intros Hwf. induction fuel as [|fuel IH]; intros i Hi Hfuel.
  - exists (-1). split; [ reflexivity | ]. left. split; [ reflexivity | ].
    intros j c Hj Hc. apply lookup_lt_Some in Hc. unfold wf_registry in Hwf. lia.
  - cbn [group_available_from]. destruct (i <? num_channels m) eqn:E; [ | lia ].
    assert (Hi' : 0 <= i < num_channels m) by lia.
    destruct (valid_index_lookup m i (wf_valid_index m i Hwf Hi')) as [c Hc].
    rewrite bind_run, (load_ok m i c) by (assumption || lia).
    rewrite bind_run, (Mix_Playing_channel m i c Hwf Hi' Hc).
    fold (in_group tag_ c).
    destruct (in_group tag_ c && ((if is_playing c then 1 else 0) =? 0)) eqn:Hfound.
    + exists i. split; [ reflexivity | ]. right. split; [ lia | ]. split.
      * exists c. apply andb_true_iff in Hfound. destruct Hfound as [Hg Hp].
        split; [ exact Hc | ]. split; [ exact Hg | ].
        destruct (is_playing c); [ discriminate Hp | reflexivity ].
      * intros j cj Hj. lia.
    + assert (Hthis : in_group tag_ c = true -> is_playing c = true).
      { intros Hg. rewrite Hg in Hfound. cbn [andb] in Hfound.
        destruct (is_playing c); [ reflexivity | discriminate Hfound ]. }
      destruct (IH (i + 1) ltac:(lia) ltac:(lia)) as (r & Hrun & Hr).
      exists r. split; [ exact Hrun | ].
      assert (Hext : forall j cj, Z.of_nat j = i -> mix_channel m !! j = Some cj ->
                                  in_group tag_ cj = true -> is_playing cj = true).
      { intros j cj Hj Hcj. replace j with (Z.to_nat i) in Hcj by lia.
        assert (cj = c) by congruence. now subst cj. }
      destruct Hr as [(-> & Hall) | (Hrange & Hex & Hall)]; [ left | right ].
      * split; [ reflexivity | ]. intros j cj Hj Hcj.
        destruct (Z.eq_dec (Z.of_nat j) i) as [He | He];
          [ now apply (Hext j) | apply (Hall j); [ lia | assumption ] ].
      * split; [ lia | ]. split; [ exact Hex | ]. intros j cj Hj Hcj.
        destruct (Z.eq_dec (Z.of_nat j) i) as [He | He];
          [ now apply (Hext j) | apply (Hall j); [ lia | assumption ] ].
Qed.

(** X18: [Mix_GroupAvailable(tag)] returns the lowest channel of the group
    that is not playing (for the tag -1: of all channels), and -1 exactly
    when every channel of the group is playing; it changes nothing. *)
Theorem group_available (m : Mixer) (tag_ : Z) :
  wf_registry m ->
  exists r,
    Mix_GroupAvailable tag_ m = Ok (r, m) /\
    ((r = -1 /\
      forall j c, mix_channel m !! j = Some c ->
                  in_group tag_ c = true -> is_playing c = true)
     \/
     (0 <= r < num_channels m /\
      (exists c, mix_channel m !! Z.to_nat r = Some c /\
                 in_group tag_ c = true /\ is_playing c = false) /\
      forall j c, Z.of_nat j < r -> mix_channel m !! j = Some c ->
                  in_group tag_ c = true -> is_playing c = true)).
Proof.
  intros Hwf.
  destruct (group_available_from_run m tag_ Hwf (Z.to_nat (num_channels m)) 0
              ltac:(lia) ltac:(f_equal; lia)) as (r & Hrun & Hr).
  exists r. split; [ exact Hrun | ].
  destruct Hr as [(-> & Hall) | (Hrange & Hex & Hall)]; [ left | right ].
  - split; [ reflexivity | ]. intros j c Hc. apply (Hall j c); [ lia | exact Hc ].
  - split; [ exact Hrange | ]. split; [ exact Hex | ].
    intros j c Hj Hc. apply (Hall j c); [ lia | exact Hc ].
Qed.

Lemma group_available_witness :
  exists r,
    Mix_GroupAvailable (-1) playing_mixer = Ok (r, playing_mixer) /\
    ((r = -1 /\
      forall j c, mix_channel playing_mixer !! j = Some c ->
                  in_group (-1) c = true -> is_playing c = true)
     \/
     (0 <= r < num_channels playing_mixer /\
      (exists c, mix_channel playing_mixer !! Z.to_nat r = Some c /\
                 in_group (-1) c = true /\ is_playing c = false) /\
      forall j c, Z.of_nat j < r -> mix_channel playing_mixer !! j = Some c ->
                  in_group (-1) c = true -> is_playing c = true)).
Proof.
  apply (group_available playing_mixer (-1)); side.
Defined.

(** The channel after [Mix_HaltGroup(tag)]. *)
Definition halted_in (tag_ : Z) (c : Mix_Channel) : Mix_Channel :=
  if has_tag tag_ c then halted c else c.

(** X19: [Mix_HaltGroup(tag)] halts the channels that carry the tag, and
    only those (the tag -1 is not special here); the finished-callback is
    called and the effects are released for those of them that were playing;
    no tag changes, and afterwards no channel with the tag is playing. *)
Theorem halt_group (m : Mixer) (tag_ : Z) :
  wf_registry m ->
  exists m',
    Mix_HaltGroup tag_ m = Ok (tt, m') /\
    mix_channel m' = map (halted_in tag_) (mix_channel m) /\
    log m' = log m ++ events_from (fun i c => if has_tag tag_ c then halt_events m i c else [])
                                  0 (mix_channel m) /\
    (forall j c, mix_channel m !! j = Some c ->
                 exists c', mix_channel m' !! j = Some c' /\ tag c' = tag c /\
                            (tag c <> tag_ -> c' = c) /\
                            (tag c = tag_ -> is_playing c' = false)).
Proof.
  intros Hwf.
  assert (Hrun : Mix_HaltGroup tag_ m
                 = Ok (tt, set_log (log m ++ events_from
                                      (fun i c => if has_tag tag_ c then halt_events m i c else [])
                                      0 (mix_channel m))
                                   (set_mix_channel (map (halted_in tag_) (mix_channel m)) m))).
  { unfold Mix_HaltGroup, for_group, gets, For_. rewrite bind_run.
    match goal with |- For 0 _ ?b tt m = _ =>
      replace (For 0 (num_channels m) b tt m)
        with (For 0 (num_channels m) b tt (set_log (log m) m)) by now rewrite set_log_same
    end.
    rewrite (sweep_st m _ (fun _ => halted_in tag_)
               (fun i c => if has_tag tag_ c then halt_events m i c else [])
               (fun _ _ _ => tt) Hwf).
    - rewrite chans_from_map. f_equal. f_equal.
      generalize (mix_channel m) 0. induction l as [|c r IH]; intros i; [ reflexivity | ].
      cbn [acc_from]. apply IH.
    - intros cs i c l a Hv Hn.
      rewrite bind_run, load_st by assumption. unfold halted_in, has_tag.
      destruct (tag c =? tag_); cbn [when].
      + now rewrite HaltChannel_st by (cbn; assumption).
      + now rewrite app_nil_r. }
  eexists. split; [ exact Hrun | ]. split; [ reflexivity | ]. split; [ reflexivity | ].
  intros j c Hc. exists (halted_in tag_ c).
  split; [ cbn [mix_channel set_log set_mix_channel]; now rewrite list_lookup_fmap, Hc | ].
  unfold halted_in, has_tag. destruct (tag c =? tag_) eqn:E.
  - split; [ unfold halted; destruct (is_playing c); cbn; destruct (fading c); reflexivity | ].
    split; [ lia | intros _; apply halted_not_playing ].
  - split; [ reflexivity | ]. split; [ reflexivity | lia ].
Qed.

Lemma halt_group_witness :
  exists m',
    Mix_HaltGroup (-1) two_started_together = Ok (tt, m') /\
    mix_channel m' = map (halted_in (-1)) (mix_channel two_started_together) /\
    log m' = log two_started_together ++ events_from (fun i c => if has_tag
        (-1) c then halt_events two_started_together i c else [])
                                  0 (mix_channel two_started_together) /\
    (forall j c, mix_channel two_started_together !! j = Some c ->
                 exists c', mix_channel m' !! j = Some c' /\ tag c' = tag c /\
                            (tag c <> (-1) -> c' = c) /\
                            (tag c = (-1) -> is_playing c' = false)).
Proof.
  apply (halt_group two_started_together (-1)); side.
Defined.





(** ** Unregistering one effect *)

Lemma find_effect_first (f : Z) (prev next : list effect_info) (x : effect_info) :
  callback x = f -> Forall (fun y => callback y <> f) prev ->
  find_effect f (prev ++ x :: next) = Some (prev, x, next).
Proof.
  intros Hx Hprev. induction Hprev as [|y prev Hy Hprev IH]; cbn [app find_effect].
  - destruct (callback x =? f) eqn:E; [ reflexivity | lia ].
  - destruct (callback y =? f) eqn:E; [ lia | ]. now rewrite IH.
Qed.

Lemma find_effect_none (f : Z) (es : list effect_info) :
  Forall (fun y => callback y <> f) es -> find_effect f es = None.
Proof.
  intros H. induction H as [|y es Hy Hes IH]; cbn [find_effect]; [ reflexivity | ].
  destruct (callback y =? f) eqn:E; [ lia | ]. now rewrite IH.
Qed.

(** The call of the release callback of one node. *)
Definition release_event (channel : Z) (x : effect_info) : list event :=
  if done_callback x =? NULL then [] else [EffectDone (done_callback x) channel (udata x)].

Definition no_such_effect : option string := Some "No such effect registered"%string.

Lemma effects_of_st m channel x l :
  valid_index m channel ->
  effects_of (st m channel x l) channel = Some (effects x).
Proof.
  intros Hv. unfold effects_of, MIX_CHANNEL_POST.
  destruct (channel =? -2) eqn:E; [ destruct Hv; lia | ].
  destruct (0 <=? channel) eqn:E0; [ | destruct Hv; lia ].
  now rewrite st_lookup.
Qed.

Lemma effects_of_channel m channel c :
  0 <= channel -> mix_channel m !! Z.to_nat channel = Some c ->
  effects_of m channel = Some (effects c).
Proof.
  intros Hi Hc. unfold effects_of, MIX_CHANNEL_POST.
  destruct (channel =? -2) eqn:E; [ lia | ].
  destruct (0 <=? channel) eqn:E0; [ | lia ].
  now rewrite Hc.
Qed.

Lemma UnregisterEffect_st m0 i c l f :
  valid_index m0 i -> i < num_channels m0 ->
  Mix_UnregisterEffect i f (st m0 i c l)
  = match find_effect f (effects c) with
    | Some (prev, x, next) =>
        Ok (true, st m0 i (set_effects (prev ++ next) c) (l ++ release_event i x))
    | None => Ok (false, set_error no_such_effect (st m0 i c l))
    end.
Proof.
  intros Hv Hn. unfold Mix_UnregisterEffect, _Mix_UnregisterEffect_locked.
  rewrite bind_run, chain_of_channel by (destruct Hv; simpl; lia).
  unfold _Mix_remove_effect, read_chain, write_chain.
  rewrite !bind_run, load_st by assumption. cbn [ret].
  destruct (find_effect f (effects c)) as [[[prev x] next]|]; [ | reflexivity ].
  unfold release_event.
  destruct (done_callback x =? NULL); cbn [negb when]; mrun;
    [ now rewrite app_nil_r | reflexivity ].
Qed.

Lemma UnregisterEffect_post m f :
  Mix_UnregisterEffect MIX_CHANNEL_POST f m
  = match find_effect f (posteffects m) with
    | Some (prev, x, next) =>
        Ok (true, set_posteffects (prev ++ next)
                    (set_log (log m ++ release_event MIX_CHANNEL_POST x) m))
    | None => Ok (false, set_error no_such_effect m)
    end.
Proof.
  unfold Mix_UnregisterEffect, _Mix_UnregisterEffect_locked, chain_of.
  cbn [Z.eqb MIX_CHANNEL_POST Pos.eqb]. rewrite bind_run. cbn [ret].
  unfold _Mix_remove_effect, read_chain, write_chain, gets.
  rewrite !bind_run. cbn [ret].
  destruct (find_effect f (posteffects m)) as [[[prev x] next]|]; [ | reflexivity ].
  unfold release_event.
  destruct (done_callback x =? NULL); cbn [negb when].
  - rewrite !bind_run. cbn. rewrite app_nil_r. now destruct m.
  - rewrite !bind_run. reflexivity.
Qed.

(** X21: [Mix_UnregisterEffect(channel, f)] on a channel in range or on the
    post stage removes the first node of the chain whose callback is [f]:
    its release callback, when it has one, is called once, the other nodes
    stay in their order, and the call succeeds.  When no node has the
    callback [f] the call fails with the error set, calls nothing and
    leaves the chain as it is. *)
Theorem unregister_effect (m : Mixer) (channel f : Z) (es : list effect_info) :
  wf_registry m ->
  channel = MIX_CHANNEL_POST \/ 0 <= channel < num_channels m ->
  effects_of m channel = Some es ->
  (forall prev x next,
     es = prev ++ x :: next -> callback x = f ->
     Forall (fun y => callback y <> f) prev ->
     exists m',
       Mix_UnregisterEffect channel f m = Ok (true, m') /\
       effects_of m' channel = Some (prev ++ next) /\
       log m' = log m ++ release_event channel x /\
       error m' = error m) /\
  (Forall (fun y => callback y <> f) es ->
   exists m',
     Mix_UnregisterEffect channel f m = Ok (false, m') /\
     effects_of m' channel = Some es /\ log m' = log m /\
     error m' = no_such_effect).
Proof.
  intros Hwf Hch Hes. destruct Hch as [-> | Hch].
  - cbn in Hes. injection Hes as <-. split.
    + intros prev x next Heq Hx Hprev.
      rewrite UnregisterEffect_post, Heq, (find_effect_first f prev next x Hx Hprev).
      eexists. split; [ reflexivity | ]. repeat split.
    + intros Hnone. rewrite UnregisterEffect_post, (find_effect_none f _ Hnone).
      eexists. split; [ reflexivity | ]. repeat split.
  - pose proof (wf_valid_index m channel Hwf Hch) as Hv.
    destruct (valid_index_lookup m channel Hv) as [c Hc].
    assert (Hn : channel < num_channels m) by lia.
    rewrite (effects_of_channel m channel c) in Hes by (assumption || lia).
    injection Hes as <-.
    pose proof (UnregisterEffect_st m channel c (log m) f Hv Hn) as Hrun.
    rewrite st_start in Hrun by assumption.
    split.
    + intros prev x next Heq Hx Hprev.
      rewrite Heq, (find_effect_first f prev next x Hx Hprev) in Hrun.
      eexists. split; [ exact Hrun | ].
      split; [ now rewrite effects_of_st | ]. split; reflexivity.
    + intros Hnone.
      rewrite (find_effect_none f _ Hnone) in Hrun.
      eexists. split; [ exact Hrun | ].
      split; [ cbn; apply effects_of_channel; [ lia | exact Hc ] | ]. split; reflexivity.
Qed.

Lemma unregister_effect_witness :
  (forall prev x next,
     [mkEffect 11 12 13; mkEffect 21 22 23] = prev ++ x :: next -> callback x = 11 ->
     Forall (fun y => callback y <> 11) prev ->
     exists m',
       Mix_UnregisterEffect 3 11 effects_mixer = Ok (true, m') /\
       effects_of m' 3 = Some (prev ++ next) /\
       log m' = log effects_mixer ++ release_event 3 x /\
       error m' = error effects_mixer) /\
  (Forall (fun y => callback y <> 11) [mkEffect 11 12 13; mkEffect 21 22 23] ->
   exists m',
     Mix_UnregisterEffect 3 11 effects_mixer = Ok (false, m') /\
     effects_of m' 3 = Some [mkEffect 11 12 13; mkEffect 21 22 23] /\
     log m' = log effects_mixer /\
     error m' = no_such_effect).
Proof.
  apply (unregister_effect effects_mixer 3 11 [mkEffect 11 12 13; mkEffect 21 22 23]); side.
Defined.

(** X22: registering and then unregistering.  After an effect with a
    callback [f] that no node of the chain has is registered, its node being
    allocated, unregistering [f] calls its release callback, when it has
    one, and leaves the chain as it was before the registration. *)
Theorem register_then_unregister (m : Mixer) (channel f d arg : Z)
    (es : list effect_info) :
  wf_registry m ->
  channel = MIX_CHANNEL_POST \/ 0 <= channel < num_channels m ->
  effects_of m channel = Some es ->
  f <> NULL -> Forall (fun y => callback y <> f) es ->
  exists m1 m2,
    Mix_RegisterEffect true channel f d arg m = Ok (true, m1) /\
    effects_of m1 channel = Some (es ++ [mkEffect f d arg]) /\
    Mix_UnregisterEffect channel f m1 = Ok (true, m2) /\
    effects_of m2 channel = Some es /\
    log m2 = log m ++ (if d =? NULL then [] else [EffectDone d channel arg]) /\
    mix_channel m2 = mix_channel m /\ posteffects m2 = posteffects m.
Proof.
  intros Hwf Hch Hes Hf Hnone.
  pose proof (find_effect_first f es [] (mkEffect f d arg) eq_refl Hnone) as Hfind.
  destruct Hch as [-> | Hch].
  - cbn in Hes. injection Hes as <-.
    eexists _, _. rewrite RegisterEffect_post by assumption.
    split; [ reflexivity | ]. split; [ reflexivity | ].
    rewrite UnregisterEffect_post. cbn [posteffects set_posteffects]. rewrite Hfind.
    split; [ reflexivity | ].
    split; [ cbn; now rewrite app_nil_r | ].
    split; [ reflexivity | ]. split; [ reflexivity | ].
    cbn. now rewrite app_nil_r.
  - pose proof (wf_valid_index m channel Hwf Hch) as Hv.
    destruct (valid_index_lookup m channel Hv) as [c Hc].
    assert (Hn : channel < num_channels m) by lia.
    rewrite (effects_of_channel m channel c) in Hes by (assumption || lia).
    injection Hes as <-.
    eexists _, _. rewrite <- (st_start m channel c Hc) at 1.
    rewrite RegisterEffect_st by assumption.
    split; [ reflexivity | ]. split; [ now rewrite effects_of_st | ].
    rewrite UnregisterEffect_st by assumption.
    cbn [effects set_effects]. rewrite Hfind.
    split; [ reflexivity | ].
    split; [ rewrite effects_of_st by assumption; cbn; now rewrite app_nil_r | ].
    split; [ reflexivity | ]. split; [ | reflexivity ].
    cbn [mix_channel st set_log set_mix_channel set_effects]. rewrite app_nil_r.
    apply list_insert_id. rewrite Hc. f_equal. now destruct c.
Qed.

Lemma register_then_unregister_witness :
  exists m1 m2,
    Mix_RegisterEffect true 3 11 12 13 loaded_mixer = Ok (true, m1) /\
    effects_of m1 3 = Some ([] ++ [mkEffect 11 12 13]) /\
    Mix_UnregisterEffect 3 11 m1 = Ok (true, m2) /\
    effects_of m2 3 = Some [] /\
    log m2 = log loaded_mixer ++ (if 12 =? NULL then [] else [EffectDone 12 3 13]) /\
    mix_channel m2 = mix_channel loaded_mixer /\ posteffects m2 = posteffects loaded_mixer.
Proof.
  apply (register_then_unregister loaded_mixer 3 11 12 13 []); side.
Defined.

Definition invalid_channel : option string := Some "Invalid channel number"%string.
Definition null_callback : option string := Some "NULL effect callback"%string.

(** X23: registrations that fail.  A NULL callback and a channel that is
    neither in range nor the post stage are refused with the error set; when
    the node cannot be allocated the call fails without setting an error.
    In each case the result is failure, no chain changes and nothing is
    called. *)
Theorem register_effect_failures (m : Mixer) (malloc_ok : bool) (channel f d arg : Z) :
  0 <= num_channels m ->
  (channel <> MIX_CHANNEL_POST -> channel < 0 \/ num_channels m <= channel ->
   Mix_RegisterEffect malloc_ok channel f d arg m
   = Ok (false, set_error invalid_channel m)) /\
  (channel = MIX_CHANNEL_POST \/ 0 <= channel < num_channels m ->
   (f = NULL ->
    Mix_RegisterEffect malloc_ok channel f d arg m
    = Ok (false, set_error null_callback m)) /\
   (f <> NULL -> malloc_ok = false ->
    Mix_RegisterEffect malloc_ok channel f d arg m = Ok (false, m))).
Proof.
  intros Hn. split; [ | intros Hch; split ].
  - intros Hp Hi. unfold Mix_RegisterEffect, _Mix_RegisterEffect_locked.
    now rewrite bind_run, chain_of_invalid.
  - intros ->. unfold Mix_RegisterEffect, _Mix_RegisterEffect_locked.
    destruct Hch as [-> | Hi].
    + unfold chain_of. cbn [Z.eqb MIX_CHANNEL_POST Pos.eqb]. rewrite bind_run. reflexivity.
    + rewrite bind_run, chain_of_channel by assumption. reflexivity.
  - intros Hf ->. unfold Mix_RegisterEffect, _Mix_RegisterEffect_locked.
    destruct Hch as [-> | Hi].
    + unfold chain_of. cbn [Z.eqb MIX_CHANNEL_POST Pos.eqb]. rewrite bind_run. cbn [ret].
      unfold _Mix_register_effect.
      destruct (f =? NULL) eqn:E; [ apply Z.eqb_eq in E; contradiction | reflexivity ].
    + rewrite bind_run, chain_of_channel by assumption.
      unfold _Mix_register_effect.
      destruct (f =? NULL) eqn:E; [ apply Z.eqb_eq in E; contradiction | reflexivity ].
Qed.

Lemma register_effect_failures_witness :
  (3 <> MIX_CHANNEL_POST -> 3 < 0 \/ num_channels loaded_mixer <= 3 ->
   Mix_RegisterEffect false 3 0 12 13 loaded_mixer
   = Ok (false, set_error invalid_channel loaded_mixer)) /\
  (3 = MIX_CHANNEL_POST \/ 0 <= 3 < num_channels loaded_mixer ->
   (0 = NULL ->
    Mix_RegisterEffect false 3 0 12 13 loaded_mixer
    = Ok (false, set_error null_callback loaded_mixer)) /\
   (0 <> NULL -> false = false ->
    Mix_RegisterEffect false 3 0 12 13 loaded_mixer = Ok (false, loaded_mixer))).
Proof.
  apply (register_effect_failures loaded_mixer false 3 0 12 13); side.
Defined.

(** ** Freeing a chunk *)

(** The channel after [Mix_FreeChunk(p)], and the calls made for it. *)
Definition freed (p : Z) (c : Mix_Channel) : Mix_Channel :=
  if p =? chunk c then halted c else c.

Definition freed_events (m : Mixer) (p i : Z) (c : Mix_Channel) : list event :=
  if p =? chunk c then halt_events m i c else [].


Lemma Mix_FreeChunk_run (m : Mixer) (p : Z) :
  wf_registry m -> p <> NULL ->
  Mix_FreeChunk p m
  = Ok (tt, set_heap (delete p (heap m))
              (set_log (log m ++ events_from (freed_events m p) 0 (mix_channel m))
                 (set_mix_channel (map (freed p) (mix_channel m)) m))).
Proof.
  intros Hwf Hp.
  assert (Hloop : For_ 0 (num_channels m)
                       (fun i => c <- load i ;;
                                 when (p =? chunk c) (Mix_HaltChannel_locked i)) m
                  = Ok (tt, set_log (log m ++ events_from (freed_events m p) 0 (mix_channel m))
                                    (set_mix_channel (map (freed p) (mix_channel m)) m))).
  { unfold For_.
    match goal with |- For 0 _ ?b tt m = _ =>
      replace (For 0 (num_channels m) b tt m)
        with (For 0 (num_channels m) b tt (set_log (log m) m)) by now rewrite set_log_same
    end.
    rewrite (sweep_st m _ (fun _ => freed p) (freed_events m p) (fun _ _ _ => tt) Hwf).
    - now rewrite chans_from_map, acc_from_tt.
    - intros cs i c l a Hv Hn.
      rewrite bind_run, load_st by assumption. unfold freed, freed_events.
      destruct (p =? chunk c); cbn [when].
      + now rewrite HaltChannel_locked_st by (cbn; assumption).
      + now rewrite app_nil_r. }
  unfold Mix_FreeChunk. destruct (p =? NULL) eqn:E; [ apply Z.eqb_eq in E; contradiction | ].
  cbn [negb when]. unfold gets. rewrite !bind_run.
  destruct (mix_channel m) as [|c0 cs0] eqn:Hcs.
  - cbn [ret]. unfold free_chunk, modify. cbn. rewrite app_nil_r.
    clear Hloop. destruct m; cbn in *. now subst.
  - rewrite Hloop. reflexivity.
Qed.



(** ** Chunks over memory of the caller *)

Definition not_opened : option string := Some "Audio device hasn't been opened"%string.

Lemma events_from_none ev i (cs : list Mix_Channel) :
  (forall j c, In c cs -> ev j c = []) -> events_from ev i cs = [].
Proof.
  revert i. induction cs as [|c r IH]; intros i H; cbn [events_from]; [ reflexivity | ].
  rewrite (H i c (or_introl eq_refl)), IH; [ reflexivity | ].
  intros j c' Hc'. apply H. now right.
Qed.

(** X25: [Mix_QuickLoad_RAW].  Before the device is opened it fails with
    the error set; when the chunk object cannot be allocated it fails
    without an error; otherwise it returns a new chunk over the given
    memory, of the given length and at full volume, which
    [Mix_VolumeChunk] reports.  Freeing the chunk while no channel is bound
    to it undoes the load. *)
Theorem quick_load_raw (m : Mixer) (ptr mem len : Z) :
  wf_registry m ->
  (audio_opened m = 0 ->
   Mix_QuickLoad_RAW ptr mem len m = Ok (NULL, set_error not_opened m)) /\
  (audio_opened m <> 0 ->
   Mix_QuickLoad_RAW NULL mem len m = Ok (NULL, m) /\
   (ptr <> NULL ->
    exists m',
      Mix_QuickLoad_RAW ptr mem len m = Ok (ptr, m') /\
      heap m' !! ptr = Some (mkChunk 0 mem len MIX_MAX_VOLUME) /\
      Mix_VolumeChunk ptr (-1) m' = Ok (MIX_MAX_VOLUME, m') /\
      (heap m !! ptr = None ->
       (forall j c, mix_channel m !! j = Some c -> chunk c <> ptr) ->
       Mix_FreeChunk ptr m' = Ok (tt, m)))).
Proof.
  intros Hwf. split; [ | intros Hop; split ].
  - intros H0. unfold Mix_QuickLoad_RAW, gets. rewrite bind_run, H0. reflexivity.
  - unfold Mix_QuickLoad_RAW, gets. rewrite bind_run.
    destruct (audio_opened m =? 0) eqn:E; [ lia | reflexivity ].
  - intros Hp.
    exists (new_chunk ptr (mkChunk 0 mem len MIX_MAX_VOLUME) m).
    split; [ | split; [ | split ] ].
    + unfold Mix_QuickLoad_RAW, gets. rewrite bind_run.
      destruct (audio_opened m =? 0) eqn:E; [ lia | ].
      destruct (ptr =? NULL) eqn:E'; [ apply Z.eqb_eq in E'; contradiction | ].
      reflexivity.
    + cbn. apply lookup_insert_eq.
    + unfold Mix_VolumeChunk.
      destruct (ptr =? NULL) eqn:E'; [ apply Z.eqb_eq in E'; contradiction | ].
      unfold deref. rewrite bind_run. cbn [heap new_chunk set_heap].
      rewrite lookup_insert_eq. reflexivity.
    + intros Hfresh Hfree.
      rewrite Mix_FreeChunk_run by (exact Hwf || exact Hp).
      cbn [heap mix_channel log new_chunk set_heap].
      assert (Hin : forall c, In c (mix_channel m) -> (ptr =? chunk c) = false).
      { intros c Hc. apply (proj2 (list_elem_of_In _ _)) in Hc.
        apply list_elem_of_lookup_1 in Hc. destruct Hc as [j Hj].
        pose proof (Hfree j c Hj). lia. }
      rewrite events_from_none
        by (intros j c Hc; unfold freed_events; now rewrite (Hin c Hc)).
      replace (map (freed ptr) (mix_channel m)) with (mix_channel m).
      2:{ symmetry. rewrite <- (map_id (mix_channel m)) at 2. apply map_ext_in.
          intros c Hc. unfold freed. now rewrite (Hin c Hc). }
      rewrite delete_insert_id by assumption. rewrite app_nil_r.
      now destruct m.
Qed.

Lemma quick_load_raw_witness :
  (audio_opened (opened_mixer 32784 2 8) = 0 ->
   Mix_QuickLoad_RAW 1000 5000 8 (opened_mixer 32784 2 8)
     = Ok (NULL, set_error not_opened (opened_mixer 32784 2 8))) /\
  (audio_opened (opened_mixer 32784 2 8) <> 0 ->
   Mix_QuickLoad_RAW NULL 5000 8 (opened_mixer 32784 2 8) = Ok (NULL, (opened_mixer 32784 2 8)) /\
   (1000 <> NULL ->
    exists m',
      Mix_QuickLoad_RAW 1000 5000 8 (opened_mixer 32784 2 8) = Ok (1000, m') /\
      heap m' !! 1000 = Some (mkChunk 0 5000 8 MIX_MAX_VOLUME) /\
      Mix_VolumeChunk 1000 (-1) m' = Ok (MIX_MAX_VOLUME, m') /\
      (heap (opened_mixer 32784 2 8) !! 1000 = None ->
       (forall j c, mix_channel (opened_mixer 32784 2 8) !! j = Some c -> chunk c <> 1000) ->
       Mix_FreeChunk 1000 m' = Ok (tt, (opened_mixer 32784 2 8))))).
Proof.
  apply (quick_load_raw (opened_mixer 32784 2 8) 1000 5000 8); side.
Defined.

(** ** Closing the mixer *)

Lemma UnregisterAllEffects_all (m : Mixer) :
  wf_registry m ->
  For_ 0 (num_channels m) (fun i => _ <- Mix_UnregisterAllEffects i ;; ret tt) m
  = Ok (tt, set_log (log m ++ events_from (fun i c => release_events i (effects c)) 0
                                          (mix_channel m))
                    (set_mix_channel (map (set_effects []) (mix_channel m)) m)).
Proof.
  intros Hwf. unfold For_.
  match goal with |- For 0 _ ?b tt m = _ =>
    replace (For 0 (num_channels m) b tt m)
      with (For 0 (num_channels m) b tt (set_log (log m) m)) by now rewrite set_log_same
  end.
  rewrite (sweep_st m _ (fun _ => set_effects []) (fun i c => release_events i (effects c))
             (fun _ _ _ => tt) Hwf).
  - now rewrite chans_from_map, acc_from_tt.
  - intros cs i c l a Hv Hn.
    now rewrite bind_run, UnregisterAllEffects_st by (cbn; assumption).
Qed.

Lemma halt_events_released (m2 m : Mixer) i (cs : list Mix_Channel) :
  channel_done_callback m2 = channel_done_callback m ->
  events_from (halt_events m2) i (map (set_effects []) cs)
  = events_from (fun i c => if is_playing c then finished_events m i else []) i cs.
Proof.
  intros Hcb. revert i. induction cs as [|c r IH]; intros i; [ reflexivity | ].
  cbn [map events_from]. rewrite IH. f_equal.
  unfold halt_events, finished_events. rewrite Hcb.
  change (is_playing (set_effects [] c)) with (is_playing c).
  destruct (is_playing c); [ | reflexivity ].
  cbn [effects set_effects]. unfold release_events. cbn. now rewrite app_nil_r.
Qed.

(** The calls made when the last reference closes the mixer: the release
    callbacks of every channel's effects, those of the post stage, and the
    finished-callback for the channels that were playing. *)
Definition closing_events (m : Mixer) : list event :=
  events_from (fun i c => release_events i (effects c)) 0 (mix_channel m)
  ++ release_events MIX_CHANNEL_POST (posteffects m)
  ++ events_from (fun i c => if is_playing c then finished_events m i else [])
                 0 (mix_channel m).

(** X26: [Mix_CloseAudio] counts references.  When the mixer is not open it
    does nothing; when it was opened more than once it only drops one
    reference and every channel goes on as it is.  The last close releases
    all effects, of the channels and of the post stage, halts every channel,
    calling the finished-callback for those that were playing, and frees the
    channel array; the channel count keeps its value. *)
Theorem close_audio (m : Mixer) :
  wf_registry m ->
  (audio_opened m = 0 -> Mix_CloseAudio m = Ok (tt, m)) /\
  (audio_opened m <> 0 -> audio_opened m <> 1 ->
   Mix_CloseAudio m = Ok (tt, set_audio_opened (audio_opened m - 1) m)) /\
  (audio_opened m = 1 ->
   exists m',
     Mix_CloseAudio m = Ok (tt, m') /\
     audio_opened m' = 0 /\ mix_channel m' = [] /\ posteffects m' = [] /\
     num_channels m' = num_channels m /\
     log m' = log m ++ closing_events m /\ heap m' = heap m).
Proof.
  intros Hwf. split; [ | split ].
  - intros H0. unfold Mix_CloseAudio, gets. rewrite bind_run, H0. reflexivity.
  - intros H0 H1. unfold Mix_CloseAudio, gets. rewrite bind_run.
    destruct (audio_opened m =? 0) eqn:E0; [ lia | ].
    destruct (audio_opened m =? 1) eqn:E1; [ lia | ].
    reflexivity.
  - intros H1. unfold Mix_CloseAudio, gets. rewrite bind_run, H1.
    cbn [Z.eqb Pos.eqb negb when]. rewrite !bind_run.
    rewrite UnregisterAllEffects_all by exact Hwf.
    rewrite !bind_run, UnregisterAllEffects_post. rewrite !bind_run.
    match goal with |- context [Mix_HaltChannel (-1) ?s] => set (m2 := s) end.
    assert (Hwf2 : wf_registry m2).
    { unfold wf_registry, m2 in *. cbn. now rewrite length_map. }
    rewrite (HaltChannel_all m2 Hwf2).
    eexists. split; [ reflexivity | ].
    cbn -[events_from release_events halt_events closing_events].
    split; [ now rewrite H1 | ]. split; [ reflexivity | ]. split; [ reflexivity | ].
    split; [ reflexivity | ]. split; [ | reflexivity ].
    unfold closing_events. rewrite <- !app_assoc. do 3 f_equal.
    apply halt_events_released. reflexivity.
Qed.

Lemma close_audio_witness :
  (audio_opened playing_mixer = 0 -> Mix_CloseAudio playing_mixer = Ok (tt, playing_mixer)) /\
  (audio_opened playing_mixer <> 0 -> audio_opened playing_mixer <> 1 ->
   Mix_CloseAudio playing_mixer
     = Ok (tt, set_audio_opened (audio_opened playing_mixer - 1) playing_mixer)) /\
  (audio_opened playing_mixer = 1 ->
   exists m',
     Mix_CloseAudio playing_mixer = Ok (tt, m') /\
     audio_opened m' = 0 /\ mix_channel m' = [] /\ posteffects m' = [] /\
     num_channels m' = num_channels playing_mixer /\
     log m' = log playing_mixer ++ closing_events playing_mixer /\ heap m' = heap playing_mixer).
Proof.
  apply (close_audio playing_mixer); side.
Defined.

(** ** Reserved channels and automatic assignment *)

Lemma Mix_ReserveChannels_run (m : Mixer) (num : Z) :
  0 <= num_channels m ->
  Mix_ReserveChannels num m
  = Ok (Z.max 0 (Z.min num (num_channels m)),
        set_reserved_channels (Z.max 0 (Z.min num (num_channels m))) m).
Proof.
  intros Hn. unfold Mix_ReserveChannels, gets, modify. rewrite !bind_run. cbn [ret].
  replace (if num_channels m <? (if num <? 0 then 0 else num)
           then num_channels m else if num <? 0 then 0 else num)
    with (Z.max 0 (Z.min num (num_channels m))); [ reflexivity | ].
  destruct (num <? 0) eqn:E.
  - destruct (num_channels m <? 0) eqn:E'; lia.
  - destruct (num_channels m <? num) eqn:E'; lia.
Qed.

(** X27: reserving and then playing on the first free channel.
    [Mix_ReserveChannels(num)] reserves [num] channels, at least 0 and at
    most all of them, and returns that count.  Automatic assignment of a
    chunk that keeps at least one frame then takes the lowest channel that
    is not reserved and not playing, and never a reserved one; when every
    channel that is not reserved is playing it fails with -1, sets the
    error and changes no channel. *)
Theorem reserve_then_play_auto (m : Mixer) (num sdl_ticks p loops ticks : Z)
    (ch : Mix_Chunk) :
  wf_registry m ->
  p <> NULL -> heap m !! p = Some ch ->
  0 < frame_width m < 2 ^ 32 -> 0 <= alen ch < 2 ^ 31 ->
  frame_width m <= alen ch ->
  exists res r m1 m',
    Mix_ReserveChannels num m = Ok (res, m1) /\
    res = Z.max 0 (Z.min num (num_channels m)) /\
    reserved_channels m1 = res /\ mix_channel m1 = mix_channel m /\
    Mix_PlayChannelTimed sdl_ticks (-1) p loops ticks m1 = Ok (r, m') /\
    all_playing m res (if r =? -1 then num_channels m else r) /\
    ((r = -1 /\ error m' = no_free_channels /\ mix_channel m' = mix_channel m)
     \/
     (res <= r < num_channels m /\
      exists c, mix_channel m !! Z.to_nat r = Some c /\ is_playing c = false /\
                mix_channel m'
                = <[Z.to_nat r := bound sdl_ticks p (alen ch - alen ch mod frame_width m)
                                        loops ticks c]> (mix_channel m))).
Proof.
  intros Hwf Hp Hch Hfw Hlen Hframe.
  assert (Hn : 0 <= num_channels m) by (unfold wf_registry in Hwf; lia).
  set (res := Z.max 0 (Z.min num (num_channels m))).
  set (m1 := set_reserved_channels res m).
  destruct (play_auto_run m1 sdl_ticks p loops ticks ch) as (r & Hr & Hall & Hcase);
    try assumption.
  { cbn. lia. }
  destruct Hcase as [(Hlt & c & Hc & Hidle & Hrun) | (-> & Hrun)].
  - exists res, r, m1. eexists.
    split; [ now apply Mix_ReserveChannels_run | ]. split; [ reflexivity | ].
    split; [ reflexivity | ]. split; [ reflexivity | ].
    split; [ exact Hrun | ].
    cbn in Hr, Hlt.
    destruct (r =? -1) eqn:E; [ lia | ].
    split; [ exact Hall | ]. right. split; [ lia | ].
    exists c. split; [ exact Hc | ]. split; [ exact Hidle | reflexivity ].
  - exists res, (-1), m1. eexists.
    split; [ now apply Mix_ReserveChannels_run | ]. split; [ reflexivity | ].
    split; [ reflexivity | ]. split; [ reflexivity | ].
    split; [ exact Hrun | ].
    split; [ exact Hall | ]. left. repeat split.
Qed.

Lemma reserve_then_play_auto_witness :
  exists res r m1 m',
    Mix_ReserveChannels 2 playing_mixer = Ok (res, m1) /\
    res = Z.max 0 (Z.min 2 (num_channels playing_mixer)) /\
    reserved_channels m1 = res /\ mix_channel m1 = mix_channel playing_mixer /\
    Mix_PlayChannelTimed 7 (-1) 1000 0 (-1) m1 = Ok (r, m') /\
    all_playing playing_mixer res (if r =? -1 then num_channels playing_mixer else r) /\
    ((r = -1 /\ error m' = no_free_channels /\ mix_channel m' = mix_channel playing_mixer)
     \/
     (res <= r < num_channels playing_mixer /\
      exists c, mix_channel playing_mixer !! Z.to_nat r = Some c /\ is_playing c = false /\
                mix_channel m'
                = <[Z.to_nat r := bound 7 1000
                    (alen two_frames - alen two_frames mod frame_width playing_mixer)
                                        0 (-1) c]> (mix_channel playing_mixer))).
Proof.
  apply (reserve_then_play_auto playing_mixer 2 7 1000 0 (-1) two_frames); side.
Defined.

(** ** Growing and shrinking the channel array *)

Lemma init_loop (m : Mixer) :
  forall (k : nat) (done rest : list Mix_Channel),
    (k <= length rest)%nat ->
    for_loop k (Z.of_nat (length done)) (fun i (_ : unit) => upd i init_channel) tt
             (set_mix_channel (done ++ rest) m)
    = Ok (tt, set_mix_channel (done ++ map init_channel (take k rest) ++ drop k rest) m).
Proof.
  induction k as [|k IH]; intros done rest Hk.
  - cbn. now rewrite drop_0.
  - destruct rest as [|c r]; [ cbn in Hk; lia | ]. cbn [for_loop].
    rewrite bind_run, (upd_ok _ _ c).
    + cbn [mix_channel set_mix_channel]. rewrite Nat2Z.id.
      replace (<[length done := init_channel c]> (done ++ c :: r))
        with ((done ++ [init_channel c]) ++ r).
      2:{ rewrite insert_app_r_alt by lia. rewrite Nat.sub_diag. cbn.
          now rewrite <- app_assoc. }
      replace (Z.of_nat (length done) + 1)
        with (Z.of_nat (length (done ++ [init_channel c])))
        by (rewrite length_app; cbn; lia).
      replace (set_mix_channel ((done ++ [init_channel c]) ++ r)
                               (set_mix_channel (done ++ c :: r) m))
        with (set_mix_channel ((done ++ [init_channel c]) ++ r) m) by reflexivity.
      rewrite IH by (cbn in Hk; lia).
      cbn [take drop map]. now rewrite <- !app_assoc.
    + lia.
    + cbn [mix_channel set_mix_channel]. rewrite Nat2Z.id. now rewrite list_lookup_middle.
Qed.

(** The slots added when the array grows from [old] to [numchans] channels,
    initialised. *)
Definition new_channels (junk : Z -> Mix_Channel) (numchans : Z) (old : nat)
    : list Mix_Channel :=
  map (fun k => init_channel (junk (Z.of_nat k))) (seq old (Z.to_nat numchans - old)).

(** What discarding channel [i] calls: the done-callbacks of its effects
    and then, when it was playing, the finished-callback. *)
Definition discard_events (m : Mixer) (i : Z) (c : Mix_Channel) : list event :=
  release_events i (effects c) ++ (if is_playing c then finished_events m i else []).

(** The loop that stops the channels from [lo] on before a shrink. *)
Lemma discard_channels (m : Mixer) (lo : Z) :
  wf_registry m -> 0 <= lo <= num_channels m ->
  For_ lo (num_channels m) (fun i => _ <- Mix_UnregisterAllEffects i ;; Mix_HaltChannel i) m
  = Ok (tt, set_log (log m ++ events_from (discard_events m) lo
                                   (drop (Z.to_nat lo) (mix_channel m)))
                    (set_mix_channel (take (Z.to_nat lo) (mix_channel m)
                                      ++ map discarded (drop (Z.to_nat lo) (mix_channel m)))
                                     m)).
Proof.
  intros Hwf Hlo.
  assert (Hlen : Z.of_nat (length (mix_channel m)) = num_channels m)
    by (unfold wf_registry in Hwf; lia).
  pose proof (sweep_part m
                (fun i (_ : unit) => _ <- Mix_UnregisterAllEffects i ;; Mix_HaltChannel i)
                (fun _ => discarded) (discard_events m) (fun _ _ _ => tt) Hwf) as Hsweep.
  unfold For_, For.
  specialize (Hsweep ltac:(
    intros cs l i c a Hcs Hi Hc;
    rewrite (st_of_list m cs l i c Hc);
    assert (Hv : valid_index (set_mix_channel cs m) i) by (now apply valid_index_list);
    rewrite bind_run, UnregisterAllEffects_st by (try assumption; cbn; lia);
    rewrite HaltChannel_st by (try assumption; cbn; lia);
    unfold discard_events, halt_events, discarded;
    change (is_playing (set_effects [] c)) with (is_playing c);
    destruct (is_playing c);
      cbn [effects set_effects]; unfold release_events at 2; cbn [filter map];
      rewrite ?app_nil_r, <- ?app_assoc; reflexivity)).
  specialize (Hsweep (Z.to_nat (num_channels m - lo))
                     (take (Z.to_nat lo) (mix_channel m))
                     (drop (Z.to_nat lo) (mix_channel m)) (log m) tt).
  rewrite take_drop in Hsweep.
  rewrite length_take in Hsweep.
  replace (Z.of_nat (Z.to_nat lo `min` length (mix_channel m))) with lo in Hsweep by lia.
  rewrite (take_ge (drop (Z.to_nat lo) (mix_channel m))) in Hsweep
    by (rewrite length_drop; lia).
  rewrite (drop_ge (drop (Z.to_nat lo) (mix_channel m))), app_nil_r in Hsweep
    by (rewrite length_drop; lia).
  replace (set_log (log m) (set_mix_channel (mix_channel m) m)) with m in Hsweep
    by now destruct m.
  rewrite Hsweep by (try reflexivity; rewrite length_drop; lia).
  rewrite chans_from_map, acc_from_tt. reflexivity.
Qed.

(** X28: [Mix_AllocateChannels] when the reallocation succeeds.  A negative
    count and the current count change nothing and return the current
    count.  A smaller count first discards the channels from it on, in
    channel order: for each, the done-callbacks of its effects are called
    and then, when it was playing, the finished-callback; these calls, and
    no others, are what the call adds to the log.  The array is then cut to
    the channels below the count, which stay as they are, and the new count
    is returned; the number of reserved channels is not adjusted.  A larger
    count keeps every channel as it is, calls nothing and adds inert
    channels: not playing, not paused, at full volume, in no group, with no
    chunk, fade, deadline or effect.  The channel count is the length of
    the array afterwards. *)
Theorem allocate_channels (m : Mixer) (junk : Z -> Mix_Channel) (numchans : Z) :
  wf_registry m ->
  (numchans < 0 \/ numchans = num_channels m ->
   forall realloc_ok,
     Mix_AllocateChannels realloc_ok junk numchans m = Ok (num_channels m, m)) /\
  (0 <= numchans < num_channels m ->
   exists m',
     Mix_AllocateChannels true junk numchans m = Ok (numchans, m') /\
     num_channels m' = numchans /\ wf_registry m' /\
     mix_channel m' = take (Z.to_nat numchans) (mix_channel m) /\
     log m' = log m ++ events_from (discard_events m) numchans
                                   (drop (Z.to_nat numchans) (mix_channel m)) /\
     reserved_channels m' = reserved_channels m /\ error m' = error m) /\
  (num_channels m < numchans ->
   exists m',
     Mix_AllocateChannels true junk numchans m = Ok (numchans, m') /\
     num_channels m' = numchans /\ wf_registry m' /\
     mix_channel m'
     = mix_channel m ++ new_channels junk numchans (length (mix_channel m)) /\
     log m' = log m /\ error m' = error m /\
     forall c', In c' (new_channels junk numchans (length (mix_channel m))) ->
                is_playing c' = false /\ paused c' = 0 /\ volume c' = MIX_MAX_VOLUME /\
                tag c' = -1 /\ chunk c' = NULL /\ fading c' = MIX_NO_FADING /\
                expire c' = 0 /\ effects c' = []).
Proof.
  intros Hwf.
  assert (Hlen : Z.of_nat (length (mix_channel m)) = num_channels m)
    by (unfold wf_registry in Hwf; lia).
  split; [ | split ].
  - intros Hsame realloc_ok. unfold Mix_AllocateChannels, gets. rewrite bind_run.
    destruct ((numchans <? 0) || (numchans =? num_channels m)) eqn:E; [ reflexivity | ].
    apply orb_false_iff in E. lia.
  - intros Hshrink. unfold Mix_AllocateChannels, gets. rewrite bind_run.
    destruct (numchans <? 0) eqn:E0; [ lia | ].
    destruct (numchans =? num_channels m) eqn:E1; [ lia | ]. cbn [orb].
    destruct (numchans <? num_channels m) eqn:E3; [ | lia ]. cbn [when].
    rewrite bind_run, (discard_channels m numchans Hwf) by lia.
    unfold modify. rewrite !bind_run.
    cbn [num_channels set_log set_mix_channel mix_channel].
    destruct (num_channels m <? numchans) eqn:E4; [ lia | ]. cbn [when ret].
    rewrite ?bind_run. cbn [ret].
    assert (Htake : (if numchans =? 0 then []
                     else realloc_channels junk numchans
                            (take (Z.to_nat numchans) (mix_channel m)
                             ++ map discarded (drop (Z.to_nat numchans) (mix_channel m))))
                    = take (Z.to_nat numchans) (mix_channel m)).
    { destruct (numchans =? 0) eqn:E5.
      - apply Z.eqb_eq in E5. subst numchans. reflexivity.
      - unfold realloc_channels.
        rewrite length_app, length_take, length_map, length_drop.
        replace (Z.to_nat numchans
                 - (Z.to_nat numchans `min` length (mix_channel m)
                    + (length (mix_channel m) - Z.to_nat numchans)))%nat
          with 0%nat by lia.
        cbn [seq map]. rewrite app_nil_r.
        rewrite take_app_le by (rewrite length_take; lia).
        rewrite take_take. f_equal. lia. }
    rewrite Htake.
    eexists. split; [ reflexivity | ].
    cbn [num_channels set_num_channels mix_channel set_mix_channel set_log
         reserved_channels error log].
    split; [ reflexivity | ].
    split; [ unfold wf_registry; cbn; rewrite length_take; lia | ].
    split; [ reflexivity | ]. split; [ reflexivity | ]. split; reflexivity.
  - intros Hgrow. unfold Mix_AllocateChannels, gets. rewrite bind_run.
    destruct (numchans <? 0) eqn:E0; [ lia | ].
    destruct (numchans =? num_channels m) eqn:E1; [ lia | ]. cbn [orb].
    destruct (numchans <? num_channels m) eqn:E3; [ lia | ]. cbn [when ret].
    rewrite bind_run. cbn [ret orb]. unfold modify. rewrite !bind_run.
    destruct (numchans =? 0) eqn:E5; [ lia | ].
    cbn [num_channels set_mix_channel].
    destruct (num_channels m <? numchans) eqn:E4; [ | lia ]. cbn [when].
    unfold realloc_channels.
    rewrite take_ge by lia.
    unfold For_, For.
    pose proof (init_loop m (Z.to_nat (numchans - num_channels m)) (mix_channel m)
                  (map (fun k => junk (Z.of_nat k))
                       (seq (length (mix_channel m))
                            (Z.to_nat numchans - length (mix_channel m))))) as Hinit.
    rewrite Hlen in Hinit. rewrite Hinit by (rewrite length_map, length_seq; lia).
    rewrite take_ge, drop_ge, app_nil_r by (rewrite length_map, length_seq; lia).
    rewrite map_map.
    eexists. split; [ reflexivity | ].
    cbn [num_channels set_num_channels mix_channel set_mix_channel log error].
    split; [ reflexivity | ].
    split; [ unfold wf_registry; cbn; rewrite length_app, length_map, length_seq; lia | ].
    split; [ reflexivity | ]. split; [ reflexivity | ]. split; [ reflexivity | ].
    intros c' Hc'. unfold new_channels in Hc'. apply in_map_iff in Hc'.
    destruct Hc' as (k & <- & _). repeat split.
Qed.

(** Channels 0 and 1 are playing, a finished-callback is set and channel 1
    has an effect with a done-callback. *)
Definition watched_mixer : Mixer :=
  default two_started_together
    (exec (_ <- Mix_ChannelFinished 77 ;; Mix_RegisterEffect true 1 11 12 13)
          two_started_together).

Lemma allocate_channels_witness :
  (1 < 0 \/ 1 = num_channels watched_mixer ->
   forall realloc_ok,
     Mix_AllocateChannels realloc_ok (fun _ => idle_channel) 1 watched_mixer
       = Ok (num_channels watched_mixer, watched_mixer)) /\
  (0 <= 1 < num_channels watched_mixer ->
   exists m',
     Mix_AllocateChannels true (fun _ => idle_channel) 1 watched_mixer = Ok (1, m') /\
     num_channels m' = 1 /\ wf_registry m' /\
     mix_channel m' = take (Z.to_nat 1) (mix_channel watched_mixer) /\
     log m' = log watched_mixer
              ++ events_from (discard_events watched_mixer) 1
                             (drop (Z.to_nat 1) (mix_channel watched_mixer)) /\
     reserved_channels m' = reserved_channels watched_mixer /\
     error m' = error watched_mixer) /\
  (num_channels watched_mixer < 1 ->
   exists m',
     Mix_AllocateChannels true (fun _ => idle_channel) 1 watched_mixer = Ok (1, m') /\
     num_channels m' = 1 /\ wf_registry m' /\
     mix_channel m'
     = mix_channel watched_mixer
       ++ new_channels (fun _ => idle_channel) 1 (length (mix_channel watched_mixer)) /\
     log m' = log watched_mixer /\ error m' = error watched_mixer /\
     forall c', In c' (new_channels (fun _ => idle_channel) 1
                                    (length (mix_channel watched_mixer))) ->
                is_playing c' = false /\ paused c' = 0 /\ volume c' = MIX_MAX_VOLUME /\
                tag c' = -1 /\ chunk c' = NULL /\ fading c' = MIX_NO_FADING /\
                expire c' = 0 /\ effects c' = []).
Proof.
  apply (allocate_channels watched_mixer (fun _ => idle_channel) 1); side.
Defined.

(** The shrink of that mixer to one channel calls the done-callback of the
    effect of channel 1 and then reports channel 1 finished. *)
Example shrink_discards_channel_1 :
  log <$> exec (Mix_AllocateChannels true (fun _ => idle_channel) 1) watched_mixer
  = Some [EffectDone 12 1 13; ChannelFinished 77 1].
Proof. vm_compute. reflexivity. Qed.

(** ** The list of chunk decoders *)

Lemma has_decoder_exact_In (ds : list string) (d : string) :
  has_decoder_exact ds d = true <-> In d ds.
Proof.
  induction ds as [|x ds IH]; cbn [has_decoder_exact In]; [ split; [ discriminate | tauto ] | ].
  destruct (String.eqb x d) eqn:E.
  - apply String.eqb_eq in E. tauto.
  - apply String.eqb_neq in E. rewrite IH. tauto.
Qed.

(** X29: the list of chunk decoders.  [add_chunk_decoder] leaves the list
    alone when the name is in it already or the list cannot grow, and
    appends the name otherwise: names already listed keep their index, a
    list without repetitions stays so, and adding a name a second time
    changes nothing.  [Mix_GetChunkDecoder] returns a name exactly at the
    indices from 0 below [Mix_GetNumChunkDecoders]. *)
Theorem chunk_decoder_list (realloc_ok : bool) (ds : list string) (d : string) :
  (In d ds -> add_chunk_decoder realloc_ok ds d = ds) /\
  (~ In d ds ->
   add_chunk_decoder true ds d = ds ++ [d] /\ add_chunk_decoder false ds d = ds) /\
  add_chunk_decoder realloc_ok (add_chunk_decoder realloc_ok ds d) d
  = add_chunk_decoder realloc_ok ds d /\
  (NoDup ds -> NoDup (add_chunk_decoder realloc_ok ds d)) /\
  (forall i x, Mix_GetChunkDecoder ds i = Some x ->
               Mix_GetChunkDecoder (add_chunk_decoder realloc_ok ds d) i = Some x) /\
  (forall i, 0 <= i < Mix_GetNumChunkDecoders ds <->
             exists x, Mix_GetChunkDecoder ds i = Some x).
Proof.
  assert (Hin : In d ds -> add_chunk_decoder realloc_ok ds d = ds).
  { intros H. unfold add_chunk_decoder.
    now rewrite (proj2 (has_decoder_exact_In ds d) H). }
  assert (Hout : ~ In d ds -> has_decoder_exact ds d = false).
  { intros H. destruct (has_decoder_exact ds d) eqn:E; [ | reflexivity ].
    apply has_decoder_exact_In in E. contradiction. }
  assert (Hcases : add_chunk_decoder realloc_ok ds d = ds \/
                   (~ In d ds /\ add_chunk_decoder realloc_ok ds d = ds ++ [d])).
  { unfold add_chunk_decoder. destruct (has_decoder_exact ds d) eqn:E; [ now left | ].
    destruct realloc_ok; [ right | now left ].
    split; [ | reflexivity ]. intros H. apply has_decoder_exact_In in H. congruence. }
  split; [ exact Hin | ]. split; [ | split; [ | split; [ | split ] ] ].
  - intros H. unfold add_chunk_decoder. now rewrite (Hout H).
  - destruct Hcases as [Heq | [Hnot Heq]].
    + rewrite Heq. exact Heq.
    + rewrite Heq. unfold add_chunk_decoder.
      rewrite (proj2 (has_decoder_exact_In (ds ++ [d]) d)); [ reflexivity | ].
      apply in_or_app. right. now left.
  - intros Hnd. destruct Hcases as [-> | [Hnot ->]]; [ exact Hnd | ].
    apply NoDup_app. split; [ exact Hnd | ]. split.
    + intros x Hx Hxd. apply Hnot. apply list_elem_of_In.
      apply list_elem_of_singleton in Hxd. now subst.
    + apply NoDup_singleton.
  - intros i x Hx. unfold Mix_GetChunkDecoder in *.
    destruct ((i <? 0) || (Z.of_nat (length ds) <=? i)) eqn:E; [ discriminate | ].
    apply orb_false_iff in E.
    destruct Hcases as [-> | [Hnot ->]].
    + now rewrite (proj2 (orb_false_iff _ _) E).
    + rewrite length_app. cbn [length].
      destruct ((i <? 0) || (Z.of_nat (length ds + 1) <=? i)) eqn:E'.
      * exfalso. destruct E as [E1 E2]. apply Z.ltb_ge in E1. apply Z.leb_gt in E2.
        apply orb_true_iff in E'. destruct E' as [E' | E'];
          [ apply Z.ltb_lt in E' | apply Z.leb_le in E' ]; lia.
      * destruct E as [E1 E2]. apply Z.ltb_ge in E1. apply Z.leb_gt in E2.
        now rewrite lookup_app_l by lia.
  - intros i. unfold Mix_GetChunkDecoder, Mix_GetNumChunkDecoders. split.
    + intros Hi. destruct ((i <? 0) || (Z.of_nat (length ds) <=? i)) eqn:E.
      * apply orb_true_iff in E. lia.
      * destruct (ds !! Z.to_nat i) as [x|] eqn:Hx; [ eauto | ].
        apply lookup_ge_None in Hx. lia.
    + intros [x Hx]. destruct ((i <? 0) || (Z.of_nat (length ds) <=? i)) eqn:E;
        [ discriminate | ].
      apply orb_false_iff in E. lia.
Qed.

(** ** What the callback reads and writes *)






Section Within.
Variable malloc_ok : Z -> Z -> bool.
Variable h : gmap Z Mix_Chunk.
Variable cb : Z.
Variables i len mv : Z.

Local Abbreviation runs := (runs h cb i).






End Within.


